(** * CSFPN interactive-segmentation trainer: click simulation, loss
      composition and checkpoint loading ([isegm/engine/trainer.py]).

    Float tensors are modelled with exact rationals ([Q]); Python and
    numpy exceptions are modelled by the [result] error monad. *)

From Stdlib Require Import ZArith QArith Qabs Lia Bool.
From stdpp Require Import base option list gmap strings fin_maps.

(** ** Exceptions and the error monad *)

Inductive exn : Type :=
| AssertionError | IndexError | KeyError | ValueError | TypeError | RuntimeError
| FileNotFoundError.

Inductive result (A : Type) : Type :=
| Ok (a : A)
| Raise (e : exn).
Arguments Ok {A} a.
Arguments Raise {A} e.

#[global] Instance result_ret : MRet result := fun _ a => Ok a.
#[global] Instance result_bind : MBind result := fun _ _ f m =>
  match m with Ok a => f a | Raise e => Raise e end.

Definition raises {A} (r : result A) : Prop := exists e, r = Raise e.
Definition returns {A} (r : result A) : Prop := exists a, r = Ok a.

(** ** Rationals standing for float values *)

Definition Qltb (x y : Q) : bool := (Qnum x * QDen y <? Qnum y * QDen x)%Z.

Definition np_maximum (a b : Q) : Q := if Qltb a b then b else a.

(** Python's builtin [max(a, b)]: [b] only when [b > a]. *)
Definition py_max (a b : Q) : Q := if Qltb a b then b else a.

(** ** Tensors as nested lists *)

Abbreviation matrix A := (list (list A)) (only parsing).
Abbreviation tensor3 A := (list (list (list A))) (only parsing).
Abbreviation tensor4 A := (list (list (list (list A)))) (only parsing).

(** A point is [(row, col, index)]; a point set is one sample's slots. *)
Abbreviation point := (Q * Q * Q)%type (only parsing).
Abbreviation pointset := (list (Q * Q * Q)) (only parsing).

Definition rect {A} (H W : nat) (m : matrix A) : Prop :=
  length m = H /\ Forall (fun r => length r = W) m.

Definition shape3 {A} (B H W : nat) (t : tensor3 A) : Prop :=
  length t = B /\ Forall (rect H W) t.

Definition shape4 {A} (B C H W : nat) (t : tensor4 A) : Prop :=
  length t = B /\ Forall (fun s => length s = C /\ Forall (rect H W) s) t.

Definition pixel {A} (m : matrix A) (i j : nat) : option A :=
  m !! i ≫= fun r => r !! j.

Definition pixel3 {A} (t : tensor3 A) (b i j : nat) : option A :=
  t !! b ≫= fun m => pixel m i j.

(** [t[:, 0, :, :]] *)
Fixpoint channel0 {A} (t : tensor4 A) : result (tensor3 A) :=
  match t with
  | [] => Ok []
  | s :: t' =>
      match s with
      | [] => Raise IndexError
      | c :: _ => rest ← channel0 t'; Ok (c :: rest)
      end
  end.

Definition shape_of {A} (t : tensor3 A) : list (list nat) := map (map length) t.

(** [np.logical_and] on boolean arrays of one shape.  numpy would also
    broadcast singleton axes; the trainer passes tensors of one shape, and
    arrays of different shapes are rejected here. *)
Definition np_logical_and (a b : tensor3 bool) : result (tensor3 bool) :=
  if decide (shape_of a = shape_of b)
  then Ok (zip_with (zip_with (zip_with andb)) a b)
  else Raise ValueError.

Definition np_logical_not (a : tensor3 bool) : tensor3 bool := map (map (map negb)) a.

(** [np.pad(m, ((0,0),(1,1),(1,1)), 'constant')] on one sample. *)
Definition np_pad1 (m : matrix bool) : matrix bool :=
  let z := replicate (length (hd [] m) + 2) false in
  z :: map (fun r => false :: r ++ [false]) m ++ [z].

Definition astype_uint8 (m : matrix bool) : matrix Z :=
  map (map (fun b : bool => if b then 1%Z else 0%Z)) m.

(** Python slice [l[1:-1]]. *)
Definition slice_1_m1 {A} (l : list A) : list A := removelast (tail l).

(** [d[1:-1, 1:-1]] *)
Definition crop {A} (d : matrix A) : matrix A := map slice_1_m1 (slice_1_m1 d).

(** [np.max] of a 2-d array; a zero-size array has no maximum. *)
Definition np_max (m : matrix Q) : result Q :=
  match concat m with
  | [] => Raise ValueError
  | x :: xs => Ok (fold_left np_maximum xs x)
  end.

Fixpoint where_true (j : nat) (row : list bool) : list nat :=
  match row with
  | [] => []
  | b :: r => if b then j :: where_true (S j) r else where_true (S j) r
  end.

Fixpoint argwhere_from (i : nat) (m : matrix bool) : list (nat * nat) :=
  match m with
  | [] => []
  | row :: m' => map (pair i) (where_true 0 row) ++ argwhere_from (S i) m'
  end.

(** [np.argwhere] of a 2-d boolean array: row-major list of coordinates. *)
Definition np_argwhere (m : matrix bool) : list (nat * nat) := argwhere_from 0 m.

(** ** Random sources

    A generator is a stream of raw draws with a cursor; every call
    consumes one raw draw. *)

Record RNG : Type := { stream : nat -> nat; cursor : nat }.

Definition next_raw (g : RNG) : nat := stream g (cursor g).
Definition advance (g : RNG) : RNG := {| stream := stream g; cursor := S (cursor g) |}.

(** [np.random.randint(lo, hi)]: uniform on [lo, hi). *)
Definition np_random_randint (lo hi : nat) (g : RNG) : nat * RNG :=
  (lo + next_raw g mod (hi - lo), advance g).

(** [random.randint(a, b)]: uniform on [a, b], both ends included; an empty
    range raises. *)
Definition random_randint (a b : Z) (raw : nat) : result Z :=
  if (b <? a)%Z then Raise ValueError
  else Ok (a + Z.of_nat raw mod (b - a + 1))%Z.

(** ** Indexing *)

(** A Python index into a sequence of length [len]; negative indices count
    from the end. *)
Definition py_index (len : nat) (i : Z) : result nat :=
  if ((0 <=? i) && (i <? Z.of_nat len))%Z then Ok (Z.to_nat i)
  else if ((- Z.of_nat len <=? i) && (i <? 0))%Z then Ok (Z.to_nat (Z.of_nat len + i))
  else Raise IndexError.

Module ClickSim.

Definition sentinel : point := ((-1)%Q, (-1)%Q, (-1)%Q).

Definition set_comp (c : nat) (v : Q) (p : point) : point :=
  let '(x, y, z) := p in
  match c with
  | 0 => (v, y, z)
  | 1 => (x, v, z)
  | _ => (x, y, v)
  end.

(** [points[bindx, i, c] = v] *)
Definition setitem (points : list pointset) (bindx : nat) (i : Z) (c : nat) (v : Q)
  : result (list pointset) :=
  match points !! bindx with
  | None => Raise IndexError
  | Some ps =>
      k ← py_index (length ps) i;
      Ok (<[bindx := alter (set_comp c v) k ps]> points)
  end.

(** [points.size(1)] *)
Definition size1 (points : list pointset) : nat := length (hd [] points).

Definition default_pred_thresh : Q := 49 # 100.

Definition false_negative_mask (pred gt : tensor3 Q) (pred_thresh : Q)
  : result (tensor3 bool) :=
  np_logical_and (map (map (map (fun g => Qltb (1 # 2) g))) gt)
                 (map (map (map (fun p => Qltb p pred_thresh))) pred).

Definition false_positive_mask (pred gt : tensor3 Q) (pred_thresh : Q)
  : result (tensor3 bool) :=
  np_logical_and (np_logical_not (map (map (map (fun g => Qltb (1 # 2) g))) gt))
                 (map (map (map (fun p => Qltb pred_thresh p))) pred).

Section GetNextPoints.

(** [cv2.distanceTransform(mask, cv2.DIST_L2, 5)] is OpenCV's routine. *)
Variable distanceTransform : matrix Z -> matrix Q.

(** Lines 843-854: the click chosen for one sample, if any. *)
Definition sample_click (fn fp : matrix Z) (g : RNG)
  : result (option (bool * (nat * nat)) * RNG) :=
  let fn_mask_dt := crop (distanceTransform fn) in
  let fp_mask_dt := crop (distanceTransform fp) in
  fn_max_dist ← np_max fn_mask_dt;
  fp_max_dist ← np_max fp_mask_dt;
  let is_positive := Qltb fp_max_dist fn_max_dist in
  let dt := if is_positive then fn_mask_dt else fp_mask_dt in
  let inner_mask := map (map (fun d => Qltb (py_max fn_max_dist fp_max_dist / 2) d)) dt in
  let indices := np_argwhere inner_mask in
  if (0 <? length indices)%nat then
    let '(k, g') := np_random_randint 0 (length indices) g in
    match indices !! k with
    | Some coords => Ok (Some (is_positive, coords), g')
    | None => Raise IndexError
    end
  else Ok (None, g).

(** The slot index of lines 856-862, as written: [num_points - click_indx]
    for a positive click, [2 * num_points - click_indx] for a negative one. *)
Definition slot_index (num_points : nat) (click_indx : Z) (is_positive : bool) : Z :=
  if is_positive
  then (Z.of_nat num_points - click_indx)%Z
  else (2 * Z.of_nat num_points - click_indx)%Z.

(** Lines 855-862: the three component writes of one click. *)
Definition write_click (points : list pointset) (num_points : nat) (bindx : nat)
    (click_indx : Z) (is_positive : bool) (coords : nat * nat)
  : result (list pointset) :=
  let slot := slot_index num_points click_indx is_positive in
  p0 ← setitem points bindx slot 0 (inject_Z (Z.of_nat (fst coords)));
  p1 ← setitem p0 bindx slot 1 (inject_Z (Z.of_nat (snd coords)));
  setitem p1 bindx slot 2 (inject_Z click_indx).

(** The loop over [bindx in range(fn_mask.shape[0])]. *)
Fixpoint click_loop (bindx : nat) (masks : list (matrix Z * matrix Z))
    (num_points : nat) (click_indx : Z) (points : list pointset) (g : RNG)
  : result (list pointset * RNG) :=
  match masks with
  | [] => Ok (points, g)
  | (fn, fp) :: rest =>
      '(click, g') ← sample_click fn fp g;
      points' ← match click with
                | Some (is_positive, coords) =>
                    write_click points num_points bindx click_indx is_positive coords
                | None => Ok points
                end;
      click_loop (S bindx) rest num_points click_indx points' g'
  end.

Definition get_next_points (pred gt : tensor4 Q) (points : list pointset)
    (click_indx : Z) (pred_thresh : Q) (g : RNG)
  : result (list pointset * RNG) :=
  if negb (0 <? click_indx)%Z then Raise AssertionError else
  pred0 ← channel0 pred;
  gt0 ← channel0 gt;
  fn_mask ← false_negative_mask pred0 gt0 pred_thresh;
  fp_mask ← false_positive_mask pred0 gt0 pred_thresh;
  let fn_mask := map (fun m => astype_uint8 (np_pad1 m)) fn_mask in
  let fp_mask := map (fun m => astype_uint8 (np_pad1 m)) fp_mask in
  let num_points := (size1 points / 2)%nat in
  click_loop 0 (zip fn_mask fp_mask) num_points click_indx points g.

End GetNextPoints.

End ClickSim.

(** ** A reference distance transform

    City-block distance to the nearest zero pixel, by exhaustive search.
    It meets the contract assumed of [cv2.distanceTransform] below (same
    shape, zero on zero pixels) and is used to evaluate examples. *)

Definition absdiff (a b : nat) : nat := (a - b) + (b - a).

Definition nearest_zero (zs : list (nat * nat)) (i j : nat) : nat :=
  match map (fun z => absdiff i (fst z) + absdiff j (snd z))%nat zs with
  | [] => 0%nat
  | d :: ds => fold_left Nat.min ds d
  end.

Definition cityblock_dt (m : matrix Z) : matrix Q :=
  let zs := np_argwhere (map (map (Z.eqb 0)) m) in
  imap (fun i row =>
          imap (fun j v => if (v =? 0)%Z then 0%Q
                           else inject_Z (Z.of_nat (nearest_zero zs i j))) row) m.


(** ** Loss configuration and network outputs *)

Module Loss.

(** A criterion maps the prediction and the target to a tensor of losses
    (flattened); criteria and the lazy input providers are the trainer's
    collaborators and are total here. *)
Definition criterion : Type := tensor4 Q -> tensor4 Q -> list Q.

(** One entry of the [loss_cfg] dictionary. *)
Inductive cfg_value : Type :=
| Weight (w : Q)
| Criterion (f : criterion).

Definition Qsum (l : list Q) : Q := fold_right Qplus 0%Q l.

(** [torch.mean] of a non-empty tensor. *)
Definition torch_mean (l : list Q) : Q := (Qsum l / inject_Z (Z.of_nat (length l)))%Q.

(** [loss_cfg.get(loss_name + '_weight', 0.0)], as a number: an entry that
    is not a number fails the comparison with [0.0] that follows. *)
Definition get_weight (cfg : gmap string cfg_value) (loss_name : string) : result Q :=
  match cfg !! (loss_name +:+ "_weight") with
  | None => Ok 0%Q
  | Some (Weight w) => Ok w
  | Some (Criterion _) => Raise TypeError
  end.

(** What the network returns. *)
Record Output : Type := {
  instances : tensor4 Q;
  instances_aux : tensor4 Q;
  zoom_in : tensor4 Q;
  point_pred : tensor4 Q;
  point_target : tensor4 Q
}.

End Loss.

(** ** The interaction loop of the single-network trainer *)

Module ISTrainer.
Import ClickSim Loss.

(** [ISTrainer.add_loss] *)
Definition add_loss (loss_cfg val_loss_cfg : gmap string cfg_value)
    (loss_name : string) (total_loss : Q) (losses_logging : gmap string Q)
    (validation : bool) (lambda_loss_inputs : unit -> tensor4 Q * tensor4 Q)
    (points_loss_weight : option (list Q))
  : result (Q * gmap string Q) :=
  let loss_cfg := if negb validation then loss_cfg else val_loss_cfg in
  loss_weight ← get_weight loss_cfg loss_name;
  if Qltb 0 loss_weight then
    match loss_cfg !! loss_name with
    | Some (Criterion loss_criterion) =>
        let '(x, y) := lambda_loss_inputs tt in
        let loss := loss_criterion x y in
        let loss := match points_loss_weight with
                    | Some w => if String.eqb loss_name "instance_loss"
                                then zip_with Qmult loss w else loss
                    | None => loss
                    end in
        let loss := torch_mean loss in
        let losses_logging := <[loss_name := loss]> losses_logging in
        let loss := (loss_weight * loss)%Q in
        Ok ((total_loss + loss)%Q, losses_logging)
    | _ => Raise TypeError
    end
  else Ok (total_loss, losses_logging).

(** Lines 289-299 of [ISTrainer.batch_forward]: the four terms, added to
    [loss = 0.0] with a fresh logging dict. *)
Definition compose_losses (loss_cfg val_loss_cfg : gmap string cfg_value)
    (validation : bool) (output : Output) (batch_instances : tensor4 Q)
  : result (Q * gmap string Q) :=
  let loss := 0%Q in
  let losses_logging : gmap string Q := ∅ in
  let points_loss_weight : option (list Q) := None in
  '(loss, losses_logging) ←
     add_loss loss_cfg val_loss_cfg "instance_loss" loss losses_logging validation
       (fun _ => (instances output, batch_instances)) points_loss_weight;
  '(loss, losses_logging) ←
     add_loss loss_cfg val_loss_cfg "instance_aux_loss" loss losses_logging validation
       (fun _ => (instances_aux output, batch_instances)) None;
  '(loss, losses_logging) ←
     add_loss loss_cfg val_loss_cfg "zoom_in_loss" loss losses_logging validation
       (fun _ => (zoom_in output, batch_instances)) None;
  add_loss loss_cfg val_loss_cfg "point_loss" loss losses_logging validation
    (fun _ => (point_pred output, point_target output)) None.

(** A network: its [with_prev_mask] attribute and its forward pass, which
    depends on the train/eval mode of the module. *)
Record Network : Type := {
  with_prev_mask : bool;
  forward : bool -> tensor4 Q -> list pointset -> tensor4 Q -> Output
}.

Record Trainer : Type := {
  net : Network;
  click_models : option (list Network);
  max_num_next_clicks : Z;
  prev_mask_drop_prob : Q;
  loss_cfg : gmap string cfg_value;
  val_loss_cfg : gmap string cfg_value
}.

Record Batch : Type := {
  images : tensor4 Q;
  gt_instances : tensor4 Q;
  points : list pointset
}.

(** The mutable state of one [batch_forward] call: local variables, the
    mode of [self.net], numpy's generator, and the rounds run so far. *)
Record SimState : Type := {
  prev_output : tensor4 Q;
  cur_points : list pointset;
  last_click_indx : option nat;
  net_training : bool;
  np_rng : RNG;
  rounds_run : list nat
}.

(** [torch.cat((image, prev_output), dim=1)] *)
Definition torch_cat1 (a b : tensor4 Q) : tensor4 Q := zip_with app a b.

(** [torch.zeros_like(image)[:, :1, :, :]] *)
Definition zeros_first_channel (image : tensor4 Q) : tensor4 Q :=
  map (fun s => take 1 (map (map (map (fun _ => 0%Q))) s)) image.

(** [np.random.random()]: 53 random bits scaled to [0, 1). *)
Definition np_random_random (g : RNG) : Q * RNG :=
  (inject_Z (Z.of_nat (next_raw g) mod 2 ^ 53) / inject_Z (2 ^ 53), advance g)%Q.

Fixpoint np_random_random_n (n : nat) (g : RNG) : list Q * RNG :=
  match n with
  | 0 => ([], g)
  | S n' => let '(x, g1) := np_random_random g in
            let '(xs, g2) := np_random_random_n n' g1 in
            (x :: xs, g2)
  end.

Section BatchForward.

Variable distanceTransform : matrix Z -> matrix Q.
(** [torch.sigmoid] on one value. *)
Variable sigmoid : Q -> Q.

Definition net_input_of (n : Network) (image prev : tensor4 Q) : tensor4 Q :=
  if with_prev_mask n then torch_cat1 image prev else image.

(** Lines 262-279: one simulated round. *)
Definition sim_round (tr : Trainer) (validation : bool) (image orig_gt_mask gt_mask : tensor4 Q)
    (st : SimState) (click_indx : nat) : result SimState :=
  let training := if negb validation then false else net_training st in
  let '(eval_model, mode) :=
    match click_models tr with
    | None => (net tr, training)
    | Some ms =>
        match ms !! click_indx with
        | None => (net tr, training)
        | Some m => (m, false)
        end
    end in
  let net_input := net_input_of (net tr) image (prev_output st) in
  let out := forward eval_model mode net_input (cur_points st) gt_mask in
  let prev := map (map (map (map sigmoid))) (instances out) in
  '(pts, g) ← get_next_points distanceTransform prev orig_gt_mask (cur_points st)
                 (Z.of_nat click_indx + 1) default_pred_thresh (np_rng st);
  Ok {| prev_output := prev;
        cur_points := pts;
        last_click_indx := Some click_indx;
        net_training := if negb validation then true else training;
        np_rng := g;
        rounds_run := rounds_run st ++ [click_indx] |}.

(** [for click_indx in range(num_iters)] *)
Fixpoint sim_loop (tr : Trainer) (validation : bool) (image orig_gt_mask gt_mask : tensor4 Q)
    (rounds : list nat) (st : SimState) : result SimState :=
  match rounds with
  | [] => Ok st
  | click_indx :: rest =>
      st' ← sim_round tr validation image orig_gt_mask gt_mask st click_indx;
      sim_loop tr validation image orig_gt_mask gt_mask rest st'
  end.

(** Lines 281-283: dropping the previous mask of a random subset. *)
Definition drop_prev_mask (tr : Trainer) (st : SimState) : SimState :=
  if with_prev_mask (net tr) && Qltb 0 (prev_mask_drop_prob tr)
     && bool_decide (last_click_indx st <> None)
  then
    let '(u, g) := np_random_random_n (length (prev_output st)) (np_rng st) in
    let zero_mask := map (fun x => Qltb x (prev_mask_drop_prob tr)) u in
    {| prev_output :=
         zip_with (fun (z : bool) s => if z then map (map (map (fun _ => 0%Q))) s else s)
                  zero_mask (prev_output st);
       cur_points := cur_points st;
       last_click_indx := last_click_indx st;
       net_training := net_training st;
       np_rng := g;
       rounds_run := rounds_run st |}
  else st.

Record Forwarded : Type := {
  loss : Q;
  losses_logging : gmap string Q;
  batch_points : list pointset;
  output : Output;
  final_state : SimState;
  num_iters : Z
}.

(** [ISTrainer.batch_forward]; [raw] is the draw [random.randint] consumes,
    [training] the mode of [self.net] on entry.  The metric updates at the
    end act on the metric objects only and are left out. *)
Definition batch_forward (tr : Trainer) (batch_data : Batch) (validation : bool)
    (training : bool) (raw : nat) (g : RNG) : result Forwarded :=
  let image := images batch_data in
  let gt_mask := gt_instances batch_data in
  let orig_gt_mask := gt_mask in
  let st := {| prev_output := zeros_first_channel image;
               cur_points := points batch_data;
               last_click_indx := None;
               net_training := training;
               np_rng := g;
               rounds_run := [] |} in
  num_iters ← random_randint 0 (max_num_next_clicks tr) raw;
  st ← sim_loop tr validation image orig_gt_mask gt_mask (seq 0 (Z.to_nat num_iters)) st;
  let st := drop_prev_mask tr st in
  let net_input := net_input_of (net tr) image (prev_output st) in
  let output := forward (net tr) (net_training st) net_input (cur_points st) gt_mask in
  '(loss, losses_logging) ←
     compose_losses (loss_cfg tr) (val_loss_cfg tr) validation output gt_mask;
  Ok {| loss := loss; losses_logging := losses_logging;
        batch_points := cur_points st; output := output;
        final_state := st; num_iters := num_iters |}.

End BatchForward.

End ISTrainer.

(** ** The interaction loop of the dual-network fine-tuner *)

Module ISFintuner.
Import ClickSim Loss.

(** [ISFintuner.add_loss] *)
Definition add_loss (loss_cfg val_loss_cfg : gmap string cfg_value)
    (loss_name : string) (total_loss : Q) (losses_logging : gmap string Q)
    (validation : bool) (lambda_loss_inputs : unit -> tensor4 Q * tensor4 Q)
  : result (Q * gmap string Q) :=
  let loss_cfg := if negb validation then loss_cfg else val_loss_cfg in
  loss_weight ← get_weight loss_cfg loss_name;
  if Qltb 0 loss_weight then
    match loss_cfg !! loss_name with
    | Some (Criterion loss_criterion) =>
        let '(x, y) := lambda_loss_inputs tt in
        let loss := loss_criterion x y in
        let loss := torch_mean loss in
        let losses_logging := <[loss_name := loss]> losses_logging in
        let loss := (loss_weight * loss)%Q in
        Ok ((total_loss + loss)%Q, losses_logging)
    | _ => Raise TypeError
    end
  else Ok (total_loss, losses_logging).

(** Lines 664-666 of [ISFintuner.batch_forward]. *)
Definition compose_losses (loss_cfg val_loss_cfg : gmap string cfg_value)
    (validation : bool) (output : Output) (seg_gt_mask : tensor4 Q)
  : result (Q * gmap string Q) :=
  add_loss loss_cfg val_loss_cfg "instance_loss" 0%Q ∅ validation
    (fun _ => (instances output, seg_gt_mask)).

(** Modelled from the spec: the [Click] class of
    [isegm/inference/clicker.py], which is not among the sources; a click
    has coordinates, a polarity and an order index, and
    [coords_and_indx] flattens it to a point. *)
Record Click : Type := {
  is_positive : bool;
  coords : Q * Q;
  indx : Z
}.

Definition coords_and_indx (c : Click) : point :=
  (fst (coords c), snd (coords c), inject_Z (indx c)).

(** Lines 705-707: the third component marks the half a slot lies in. *)
Definition mark_halves (ps : pointset) : pointset :=
  let half_point_num := (length ps / 2)%nat in
  imap (fun i p => set_comp 2 (if (i <? half_point_num)%nat then 999%Q else (-999)%Q) p) ps.

(** Line 719: [current_points[torch.where(current_points[:, 0] > 0)[0]]] *)
Definition valid_points_list (current_points : pointset) : list point :=
  filter (fun p : point => Qltb 0 (fst (fst p)) = true) current_points.

(** Lines 720-725 *)
Definition clicks_of (valid : list point) : list Click :=
  map (fun p : point =>
         {| is_positive := if Qeq_bool (snd p) 999 then true else false;
            coords := (fst (fst p), snd (fst p));
            indx := 100 |}) valid.

(** The clicks handed to the zoom transform for one sample of [int_points]. *)
Definition clicks_list_of (ps : pointset) : list Click :=
  clicks_of (valid_points_list (mark_halves ps)).

(** [get_points_nd], for the single list of clicks it is called with. *)
Definition get_points_nd (clicks_lists : list (list Click)) : result (list pointset) :=
  if decide (clicks_lists = []) then Raise ValueError else
  let num_max_points := 24%nat in
  Ok (map (fun clicks_list =>
             let pos_clicks := map coords_and_indx (filter (fun c => is_positive c = true) clicks_list) in
             let pos_clicks := pos_clicks ++ replicate (num_max_points - length pos_clicks) sentinel in
             let neg_clicks := map coords_and_indx (filter (fun c => is_positive c = false) clicks_list) in
             let neg_clicks := neg_clicks ++ replicate (num_max_points - length neg_clicks) sentinel in
             pos_clicks ++ neg_clicks) clicks_lists).

Record Network : Type := {
  forward : bool -> tensor4 Q -> list pointset -> Output
}.

Record Fintuner : Type := {
  int_net : Network;
  seg_net : Network;
  max_num_next_clicks : Z;
  loss_cfg : gmap string cfg_value;
  val_loss_cfg : gmap string cfg_value
}.

Section BatchForward.

Variable distanceTransform : matrix Z -> matrix Q.
Variable sigmoid : Q -> Q.

(** [isegm.inference.transforms.ZoomIn]: the per-sample crop state and its
    three operations, each on one sample (a list of channels). *)
Variable ZoomIn : Type.
Variable ZoomIn_new : ZoomIn.
Variable set_probs : ZoomIn -> list (matrix Q) -> ZoomIn.
Variable transform :
  ZoomIn -> list (matrix Q) -> list (list Click) -> list (matrix Q) * list (list Click) * ZoomIn.
Variable inv_transform : ZoomIn -> list (matrix Q) -> list (matrix Q).

Record SegInput : Type := {
  seg_input : tensor4 Q;
  seg_points : list pointset;
  seg_gt_mask : tensor4 Q;
  zoom_ins : list ZoomIn
}.

(** Lines 709-734: the body of the loop over the batch, for sample [bs]. *)
Definition prepare_sample (image gt_mask intention_probs : tensor4 Q) (int_points : list pointset)
    (acc : SegInput) (bs : nat) : result SegInput :=
  match intention_probs !! bs, zoom_ins acc !! bs,
        zip_with app gt_mask (zip_with app image intention_probs) !! bs, int_points !! bs with
  | Some prediction, Some z, Some current_input_image, Some current_points =>
      let z := set_probs z prediction in
      let clicks_list := clicks_of (valid_points_list current_points) in
      let '(current_zoomin_input_image, current_zoomin_clicks_list, z) :=
        transform z current_input_image [clicks_list] in
      current_zoomin_points ← get_points_nd current_zoomin_clicks_list;
      match current_zoomin_points, seg_points acc !! bs with
      | [], _ | _, None => Raise IndexError
      | zp :: _, Some old =>
          if negb (length zp =? length old)%nat then Raise RuntimeError else
          Ok {| seg_input := <[bs := drop 1 current_zoomin_input_image]> (seg_input acc);
                seg_gt_mask := <[bs := take 1 current_zoomin_input_image]> (seg_gt_mask acc);
                seg_points := <[bs := zp]> (seg_points acc);
                zoom_ins := <[bs := z]> (zoom_ins acc) |}
      end
  | _, _, _, _ => Raise IndexError
  end.

Fixpoint prepare_loop (image gt_mask intention_probs : tensor4 Q) (int_points : list pointset)
    (bss : list nat) (acc : SegInput) : result SegInput :=
  match bss with
  | [] => Ok acc
  | bs :: rest =>
      acc' ← prepare_sample image gt_mask intention_probs int_points acc bs;
      prepare_loop image gt_mask intention_probs int_points rest acc'
  end.

Definition zeros_like4 (t : tensor4 Q) : tensor4 Q := map (map (map (map (fun _ => 0%Q)))) t.

(** [prepare_seg_net_input]; the assignments into [seg_input] and
    [seg_gt_mask] take whatever shape the transform returns. *)
Definition prepare_seg_net_input (intention_out : Output) (image gt_mask : tensor4 Q)
    (int_points : list pointset) (zs : list ZoomIn) : result SegInput :=
  let seg_input0 := map (fun s => hd [] s :: s) (zeros_like4 image) in
  let seg_gt_mask0 := zeros_like4 gt_mask in
  let seg_points0 := map (map (fun _ : point => (0%Q, 0%Q, 0%Q))) int_points in
  let intention_probs := map (map (map (map sigmoid))) (instances intention_out) in
  let batch_size := length intention_probs in
  let int_points := map mark_halves int_points in
  prepare_loop image gt_mask intention_probs int_points (seq 0 batch_size)
    {| seg_input := seg_input0; seg_points := seg_points0;
       seg_gt_mask := seg_gt_mask0; zoom_ins := zs |}.

Fixpoint inv_zoom_all (zs : list ZoomIn) (probs : tensor4 Q) : result (tensor4 Q) :=
  match probs with
  | [] => Ok []
  | p :: probs' =>
      match zs with
      | [] => Raise IndexError
      | z :: zs' => rest ← inv_zoom_all zs' probs'; Ok (inv_transform z p :: rest)
      end
  end.

(** [prepare_int_net_input] *)
Definition prepare_int_net_input (seg_out_logits gt_mask : tensor4 Q)
    (int_points : list pointset) (zs : list ZoomIn) (click_indx : nat) (g : RNG)
  : result (tensor4 Q * list pointset * RNG) :=
  let seg_out_probs := map (map (map (map sigmoid))) seg_out_logits in
  inv_zoomin_seg_out ← inv_zoom_all zs seg_out_probs;
  '(next_int_points, g') ← get_next_points distanceTransform inv_zoomin_seg_out gt_mask
                             int_points (Z.of_nat click_indx + 1) default_pred_thresh g;
  Ok (inv_zoomin_seg_out, next_int_points, g').

Record SimState : Type := {
  prev_output : tensor4 Q;
  int_points : list pointset;
  zooms : list ZoomIn;
  seg_training : bool;
  np_rng : RNG;
  rounds_run : list nat
}.

(** Lines 631-650: one simulated round. *)
Definition sim_round (ft : Fintuner) (validation : bool) (image gt_mask orig_gt_mask : tensor4 Q)
    (st : SimState) (click_indx : nat) : result SimState :=
  let training := if negb validation then false else seg_training st in
  let int_net_input := ISTrainer.torch_cat1 image (prev_output st) in
  let int_out := forward (int_net ft) false int_net_input (int_points st) in
  si ← prepare_seg_net_input int_out image gt_mask (int_points st) (zooms st);
  let out := forward (seg_net ft) training (seg_input si) (seg_points si) in
  '(prev, pts, g) ← prepare_int_net_input (instances out) orig_gt_mask (int_points st)
                      (zoom_ins si) click_indx (np_rng st);
  Ok {| prev_output := prev;
        int_points := pts;
        zooms := zoom_ins si;
        seg_training := if negb validation then true else training;
        np_rng := g;
        rounds_run := rounds_run st ++ [click_indx] |}.

Fixpoint sim_loop (ft : Fintuner) (validation : bool) (image gt_mask orig_gt_mask : tensor4 Q)
    (rounds : list nat) (st : SimState) : result SimState :=
  match rounds with
  | [] => Ok st
  | click_indx :: rest =>
      st' ← sim_round ft validation image gt_mask orig_gt_mask st click_indx;
      sim_loop ft validation image gt_mask orig_gt_mask rest st'
  end.

Record Forwarded : Type := {
  loss : Q;
  losses_logging : gmap string Q;
  batch_points : list pointset;
  batch_seg_gt_mask : tensor4 Q;
  output : Output;
  final_state : SimState;
  num_iters : Z
}.

(** [ISFintuner.batch_forward]; [raw] is the draw [random.randint] consumes,
    [training] the mode of [self.seg_net] on entry.  The metric updates at
    the end act on the metric objects only and are left out. *)
Definition batch_forward (ft : Fintuner) (batch_data : ISTrainer.Batch) (validation : bool)
    (training : bool) (raw : nat) (g : RNG) : result Forwarded :=
  let batch_size := length (ISTrainer.images batch_data) in
  let zs := replicate batch_size ZoomIn_new in
  let image := ISTrainer.images batch_data in
  let gt_mask := ISTrainer.gt_instances batch_data in
  let orig_gt_mask := gt_mask in
  let st := {| prev_output := ISTrainer.zeros_first_channel image;
               int_points := ISTrainer.points batch_data;
               zooms := zs;
               seg_training := training;
               np_rng := g;
               rounds_run := [] |} in
  num_iters ← random_randint 0 (max_num_next_clicks ft) raw;
  st ← sim_loop ft validation image gt_mask orig_gt_mask (seq 0 (Z.to_nat num_iters)) st;
  let int_net_input := ISTrainer.torch_cat1 image (prev_output st) in
  let int_out := forward (int_net ft) false int_net_input (int_points st) in
  si ← prepare_seg_net_input int_out image gt_mask (int_points st) (zooms st);
  let output := forward (seg_net ft) (seg_training st) (seg_input si) (seg_points si) in
  '(loss, losses_logging) ←
     compose_losses (loss_cfg ft) (val_loss_cfg ft) validation output (seg_gt_mask si);
  Ok {| loss := loss; losses_logging := losses_logging;
        batch_points := seg_points si; batch_seg_gt_mask := seg_gt_mask si;
        output := output;
        final_state := {| prev_output := prev_output st; int_points := int_points st;
                          zooms := zoom_ins si; seg_training := seg_training st;
                          np_rng := np_rng st; rounds_run := rounds_run st |};
        num_iters := num_iters |}.

End BatchForward.
End ISFintuner.

(** ** Checkpoint loading *)

Module Checkpoint.

Record Tensor : Type := { shape : list nat; data : list Q }.

(** The network whose weights are loaded: its live parameter mapping. *)
Record Model : Type := { parameters : gmap string Tensor }.

(** What [torch.load] reads from a checkpoint file: a mapping whose
    ['state_dict'] entry is a parameter mapping. *)
Definition checkpoint : Type := gmap string (gmap string Tensor).

Record FileSystem : Type := {
  files : gmap string checkpoint;
  entries : string -> list string
}.

(** [os.path.isfile] *)
Definition isfile (fs : FileSystem) (path : string) : bool :=
  bool_decide (is_Some (files fs !! path)).

(** [torch.load(path)['state_dict']] *)
Definition torch_load_state_dict (fs : FileSystem) (path : string)
  : result (gmap string Tensor) :=
  match files fs !! path with
  | None => Raise FileNotFoundError
  | Some ck =>
      match ck !! "state_dict" with
      | None => Raise KeyError
      | Some sd => Ok sd
      end
  end.

(** [dict.update]: entries of [new] replace those of [cur]. *)
Definition dict_update (cur new : gmap string Tensor) : gmap string Tensor := new ∪ cur.

Definition shape_matches (live : gmap string Tensor) (k : string) (t : Tensor) : Prop :=
  shape <$> live !! k = Some (shape t).

#[global] Instance shape_matches_dec live k t : Decision (shape_matches live k t).
Proof. unfold shape_matches. apply _. Defined.

(** [torch.nn.Module.load_state_dict] with its default [strict=True]: the
    given mapping must have exactly the module's keys, each with the shape
    of the live parameter; otherwise [RuntimeError]. *)
Definition load_state_dict (model : Model) (sd : gmap string Tensor) : result Model :=
  if bool_decide (dom sd = dom (parameters model)
                  /\ map_Forall (shape_matches (parameters model)) sd)
  then Ok {| parameters := sd |}
  else Raise RuntimeError.

(** [load_weights] *)
Definition load_weights (fs : FileSystem) (model : Model) (path_to_weights : string)
  : result Model :=
  let current_state_dict := parameters model in
  new_state_dict ← torch_load_state_dict fs path_to_weights;
  let current_state_dict := dict_update current_state_dict new_state_dict in
  load_state_dict model current_state_dict.

Record Cfg : Type := {
  weights : option string;
  resume_exp : option string;
  resume_prefix : string;
  CHECKPOINTS_PATH : string
}.

Definition ends_with (suffix s : string) : bool :=
  String.eqb (String.substring (String.length s - String.length suffix)
                               (String.length suffix) s) suffix
  && (String.length suffix <=? String.length s)%nat.

(** A name matches [f'{prefix}*.pth'] when it starts with the prefix and
    ends with [.pth] after it. *)
Definition glob_match (pfx name : string) : bool :=
  String.prefix pfx name && ends_with ".pth" name
  && (String.length pfx + 4 <=? String.length name)%nat.

(** [list(CHECKPOINTS_PATH.glob(f'{resume_prefix}*.pth'))] *)
Definition glob (fs : FileSystem) (dir pfx : string) : list string :=
  map (fun name => dir +:+ "/" +:+ name)
      (filter (fun name => glob_match pfx name = true) (entries fs dir)).

(** [_load_weights] of both trainers: returns the updated [cfg] and the
    network. *)
Definition _load_weights (fs : FileSystem) (cfg : Cfg) (net : Model)
  : result (Cfg * Model) :=
  match weights cfg with
  | Some w =>
      if isfile fs w then
        net' ← load_weights fs net w;
        Ok ({| weights := None; resume_exp := resume_exp cfg;
               resume_prefix := resume_prefix cfg;
               CHECKPOINTS_PATH := CHECKPOINTS_PATH cfg |}, net')
      else Raise RuntimeError
  | None =>
      match resume_exp cfg with
      | Some _ =>
          let checkpoints := glob fs (CHECKPOINTS_PATH cfg) (resume_prefix cfg) in
          if negb (length checkpoints =? 1)%nat then Raise AssertionError else
          match checkpoints with
          | checkpoint_path :: _ =>
              net' ← load_weights fs net checkpoint_path;
              Ok (cfg, net')
          | [] => Raise IndexError
          end
      | None => Ok (cfg, net)
      end
  end.

End Checkpoint.

(** ** The click-synthesis algorithm as the specification words it

    Section 4.1 of the specification, pixel by pixel: the masks, the
    padding and the cropping are functions of the coordinates. *)

Module ClickSpec.

Definition value_at (m : matrix Q) (i j : nat) : Q := default 0%Q (pixel m i j).

Definition tabulate {A} (H W : nat) (f : nat -> nat -> A) : matrix A :=
  map (fun i => map (f i) (seq 0 W)) (seq 0 H).

(** The pixels of an [H] by [W] image, row by row. *)
Definition pixels (H W : nat) : list (nat * nat) := concat (tabulate H W pair).

Definition maximum (l : list Q) : Q :=
  match l with
  | [] => 0%Q
  | x :: xs => fold_left np_maximum xs x
  end.

Section Algorithm.

Variable distanceTransform : matrix Z -> matrix Q.
Variable thresh : Q.

(** Ground truth binarized at 0.5. *)
Definition foreground (gt : matrix Q) (i j : nat) : bool := Qltb (1 # 2) (value_at gt i j).

(** [gt = 1 and pred < thresh] *)
Definition false_negative (pred gt : matrix Q) (i j : nat) : bool :=
  foreground gt i j && Qltb (value_at pred i j) thresh.

(** [gt = 0 and pred > thresh] *)
Definition false_positive (pred gt : matrix Q) (i j : nat) : bool :=
  negb (foreground gt i j) && Qltb thresh (value_at pred i j).

(** The mask with one pixel of zeros on each side. *)
Definition padded (H W : nat) (mask : nat -> nat -> bool) : matrix Z :=
  tabulate (H + 2) (W + 2)
    (fun i j => if (0 <? i)%nat && (i <=? H)%nat && (0 <? j)%nat && (j <=? W)%nat
                   && mask (i - 1)%nat (j - 1)%nat
                then 1%Z else 0%Z).

(** Distance transform of the padded mask, with the padding cropped off. *)
Definition distance (H W : nat) (mask : nat -> nat -> bool) (i j : nat) : Q :=
  value_at (distanceTransform (padded H W mask)) (i + 1) (j + 1).

Definition max_distance (H W : nat) (d : nat -> nat -> Q) : Q :=
  maximum (map (fun p => d (fst p) (snd p)) (pixels H W)).

Section Sample.

Variables (H W : nat) (pred gt : matrix Q).

Definition polarity : bool :=
  Qltb (max_distance H W (distance H W (false_positive pred gt)))
       (max_distance H W (distance H W (false_negative pred gt))).

Definition winning_distance : nat -> nat -> Q :=
  if polarity then distance H W (false_negative pred gt)
  else distance H W (false_positive pred gt).

Definition winning_max : Q := max_distance H W winning_distance.

(** The inner region: pixels farther than half the winning maximum. *)
Definition region : list (nat * nat) :=
  filter (fun p => Qltb (winning_max / 2) (winning_distance (fst p) (snd p)) = true)
         (pixels H W).

(** One pixel of the region, drawn uniformly, with the winning polarity;
    nothing when the region is empty. *)
Definition next_click (g : RNG) : option (bool * (nat * nat)) * RNG :=
  match region with
  | [] => (None, g)
  | p :: _ =>
      (Some (polarity, nth (next_raw g mod length region) region p), advance g)
  end.

End Sample.

(** The batch: each sample's click is stored in the slot section 3 names. *)
Fixpoint next_points (bindx : nat) (samples : list (list (list Q) * list (list Q)))
    (num_points : nat) (click_indx : Z) (points : list pointset) (g : RNG)
  : result (list pointset * RNG) :=
  match samples with
  | [] => Ok (points, g)
  | (pred, gt) :: rest =>
      let '(click, g') := next_click (length pred) (length (hd [] pred)) pred gt g in
      points' ← match click with
                | Some (is_positive, coords) =>
                    ClickSim.write_click points num_points bindx click_indx is_positive coords
                | None => Ok points
                end;
      next_points (S bindx) rest num_points click_indx points' g'
  end.

Definition get_next_points (pred gt : tensor4 Q) (points : list pointset)
    (click_indx : Z) (g : RNG) : result (list pointset * RNG) :=
  next_points 0 (zip (map (hd []) pred) (map (hd []) gt))
    (ClickSim.size1 points / 2) click_indx points g.

End Algorithm.

End ClickSpec.

(** The contract of [cv2.distanceTransform] on shapes: the result has the
    shape of the mask. *)
Definition shape_preserving (dt : matrix Z -> matrix Q) : Prop :=
  forall H W m, rect H W m -> rect H W (dt m).

(** ** Vocabulary of the statements *)

(** The point a click at [coords] of round [click_indx] is stored as. *)
Definition click_point (coords : nat * nat) (click_indx : Z) : point :=
  (inject_Z (Z.of_nat (fst coords)), inject_Z (Z.of_nat (snd coords)), inject_Z click_indx).

(** The slot of round [j] and polarity [q], as a position of the list. *)
Definition slot_nat (num_points : nat) (j : Z) (q : bool) : nat :=
  Z.to_nat (ClickSim.slot_index num_points j q).

(** What one call may do to one sample's slots: nothing, or one write. *)
Definition sample_effect (num_points : nat) (click_indx : Z) (ps ps' : pointset) : Prop :=
  ps' = ps \/
  exists is_positive coords slot,
    py_index (length ps) (ClickSim.slot_index num_points click_indx is_positive) = Ok slot
    /\ ps' = <[slot := click_point coords click_indx]> ps.

(** The part of the contract of [cv2.distanceTransform] the boundary case
    rests on: a mask without any nonzero pixel has distance zero everywhere. *)
Definition zero_on_blank (dt : matrix Z -> matrix Q) : Prop :=
  forall m, Forall (Forall (fun v => v = 0%Z)) m ->
            Forall (Forall (fun d => (d == 0)%Q)) (dt m).

(** Sample [pm], [gm] (prediction and ground truth, one channel) has no
    false-negative and no false-positive pixel. *)
Definition no_error_pixels (thr : Q) (pm gm : matrix Q) : Prop :=
  forall i j p g, pixel pm i j = Some p -> pixel gm i j = Some g ->
    ((1 # 2 < g)%Q -> ~ (p < thr)%Q) /\ (~ (1 # 2 < g)%Q -> ~ (thr < p)%Q).

(** [astype(np.uint8)] of the padded mask, as line 837 computes it. *)
Definition pad8 (m : matrix bool) : matrix Z := astype_uint8 (np_pad1 m).

(** The masks of one sample, as lines 834-835 compute them. *)
Definition fn_of (thr : Q) (pm gm : matrix Q) : matrix bool :=
  zip_with (zip_with andb) (map (map (fun g => Qltb (1 # 2) g)) gm)
                           (map (map (fun p => Qltb p thr)) pm).

Definition fp_of (thr : Q) (pm gm : matrix Q) : matrix bool :=
  zip_with (zip_with andb) (map (map negb) (map (map (fun g => Qltb (1 # 2) g)) gm))
                           (map (map (fun p => Qltb thr p)) pm).

(** The weight table in force: training or validation. *)
Definition active_cfg (loss_cfg val_loss_cfg : gmap string Loss.cfg_value)
    (validation : bool) : gmap string Loss.cfg_value :=
  if negb validation then loss_cfg else val_loss_cfg.

(** The four terms [ISTrainer.batch_forward] composes, and what each lazy
    provider returns. *)
Definition trainer_terms : list string :=
  ["instance_loss"; "instance_aux_loss"; "zoom_in_loss"; "point_loss"]%string.

Definition term_inputs (output : Loss.Output) (gt : tensor4 Q) (t : string)
  : tensor4 Q * tensor4 Q :=
  if String.eqb t "instance_loss" then (Loss.instances output, gt)
  else if String.eqb t "instance_aux_loss" then (Loss.instances_aux output, gt)
  else if String.eqb t "zoom_in_loss" then (Loss.zoom_in output, gt)
  else (Loss.point_pred output, Loss.point_target output).

(** The weight of a term is absent or not positive. *)
Definition weight_off (cfg : gmap string Loss.cfg_value) (name : string) : Prop :=
  cfg !! (name +:+ "_weight")%string = None
  \/ exists w, cfg !! (name +:+ "_weight")%string = Some (Loss.Weight w) /\ (w <= 0)%Q.

(** The checkpoint [_load_weights] goes on to load, when its own checks
    pass. *)
Definition selected_checkpoint (fs : Checkpoint.FileSystem) (cfg : Checkpoint.Cfg)
  : option string :=
  match Checkpoint.weights cfg with
  | Some w => if Checkpoint.isfile fs w then Some w else None
  | None =>
      match Checkpoint.resume_exp cfg with
      | Some _ =>
          match Checkpoint.glob fs (Checkpoint.CHECKPOINTS_PATH cfg)
                  (Checkpoint.resume_prefix cfg) with
          | [p] => Some p
          | _ => None
          end
      | None => None
      end
  end.

Definition clear_weights (cfg : Checkpoint.Cfg) : Checkpoint.Cfg :=
  {| Checkpoint.weights := None;
     Checkpoint.resume_exp := Checkpoint.resume_exp cfg;
     Checkpoint.resume_prefix := Checkpoint.resume_prefix cfg;
     Checkpoint.CHECKPOINTS_PATH := Checkpoint.CHECKPOINTS_PATH cfg |}.

(** A checkpoint whose only tensor has another shape than the live one. *)
Definition t_2x3 : Checkpoint.Tensor :=
  {| Checkpoint.shape := [2; 3]%nat; Checkpoint.data := replicate 6 0%Q |}.
Definition t_3x2 : Checkpoint.Tensor :=
  {| Checkpoint.shape := [3; 2]%nat; Checkpoint.data := replicate 6 1%Q |}.

Definition fs_mismatch : Checkpoint.FileSystem :=
  {| Checkpoint.files :=
       {[ "w.pth"%string := {[ "state_dict"%string := {[ "conv.weight"%string := t_3x2 ]} ]} ]};
     Checkpoint.entries := fun _ => [] |}.

Definition cfg_weights : Checkpoint.Cfg :=
  {| Checkpoint.weights := Some "w.pth"%string;
     Checkpoint.resume_exp := None;
     Checkpoint.resume_prefix := EmptyString;
     Checkpoint.CHECKPOINTS_PATH := "checkpoints"%string |}.

Definition net_small : Checkpoint.Model :=
  {| Checkpoint.parameters := {[ "conv.weight"%string := t_2x3 ]} |}.

(** ** Worked inputs

    A 4 by 4 image whose object is the central 2 by 2 square. *)

Definition square : list (list Q) :=
  [[0; 0; 0; 0]; [0; 1; 1; 0]; [0; 1; 1; 0]; [0; 0; 0; 0]]%Q.
Definition blank : list (list Q) :=
  [[0; 0; 0; 0]; [0; 0; 0; 0]; [0; 0; 0; 0]; [0; 0; 0; 0]]%Q.

Definition ramp : RNG := {| stream := fun n => n; cursor := 0 |}.

(** One sample, nothing predicted yet; four slots, all unset. *)
Definition gt_one : tensor4 Q := [[square]].
Definition pred_none : tensor4 Q := [[blank]].
Definition points_unset : list pointset := [replicate 4 ClickSim.sentinel].

(** Two samples: the first already segmented perfectly, the second not. *)
Definition gt_two : tensor4 Q := [[square]; [square]].
Definition pred_two : tensor4 Q := [[square]; [blank]].
Definition points_two : list pointset :=
  [replicate 4 ClickSim.sentinel; replicate 4 ClickSim.sentinel].

(** A rational squashing function with the range and the midpoint of the
    logistic function, standing for [torch.sigmoid] in the examples. *)
Definition squash (x : Q) : Q := ((1 + x / (1 + Qabs x)) / 2)%Q.

(** A network whose logits are zero everywhere. *)
Definition oracle_output (gt : tensor4 Q) : Loss.Output :=
  {| Loss.instances := gt; Loss.instances_aux := gt; Loss.zoom_in := gt;
     Loss.point_pred := gt; Loss.point_target := gt |}.

Definition blind_net : ISTrainer.Network :=
  {| ISTrainer.with_prev_mask := true;
     ISTrainer.forward := fun _ _ _ gt => oracle_output (map (map (map (map (fun _ => 0%Q)))) gt) |}.

Definition trainer_two_clicks : ISTrainer.Trainer :=
  {| ISTrainer.net := blind_net;
     ISTrainer.click_models := None;
     ISTrainer.max_num_next_clicks := 2;
     ISTrainer.prev_mask_drop_prob := 0;
     ISTrainer.loss_cfg := ∅;
     ISTrainer.val_loss_cfg := ∅ |}.

Definition batch_one : ISTrainer.Batch :=
  {| ISTrainer.images := [[blank; blank; blank]];
     ISTrainer.gt_instances := gt_one;
     ISTrainer.points := points_unset |}.

(** A criterion: the squared error of every pixel. *)
Definition flatten4 (t : tensor4 Q) : list Q := concat (concat (concat t)).
Definition squared_error : Loss.criterion :=
  fun x y => zip_with (fun a b => (a - b) * (a - b))%Q (flatten4 x) (flatten4 y).

Definition cfg_instance_only : gmap string Loss.cfg_value :=
  {[ "instance_loss"%string := Loss.Criterion squared_error;
     "instance_loss_weight"%string := Loss.Weight 2 ]}.

Definition cfg_no_criterion : gmap string Loss.cfg_value :=
  {[ "instance_loss_weight"%string := Loss.Weight 1 ]}.

(** A checkpoint holding one of the two live parameters. *)
Definition fs_partial : Checkpoint.FileSystem :=
  {| Checkpoint.files :=
       {[ "w.pth"%string := {[ "state_dict"%string := {[ "conv.weight"%string := t_2x3 ]} ]} ]};
     Checkpoint.entries := fun _ => [] |}.

Definition cfg_fresh : Checkpoint.Cfg :=
  {| Checkpoint.weights := None;
     Checkpoint.resume_exp := None;
     Checkpoint.resume_prefix := EmptyString;
     Checkpoint.CHECKPOINTS_PATH := "checkpoints"%string |}.

(** The zoom transform replaced by the identity crop, for the examples. *)
Definition zoom_identity (z : unit) (img : list (list (list Q)))
    (clicks : list (list ISFintuner.Click))
  : list (list (list Q)) * list (list ISFintuner.Click) * unit :=
  (img, clicks, z).

(** ** Further vocabulary

    Two more parts of the contract of [cv2.distanceTransform]: distances
    are not negative, and a positive distance occurs only at a nonzero
    pixel of the mask. *)
Definition nonnegative (dt : matrix Z -> matrix Q) : Prop :=
  forall m i j d, pixel (dt m) i j = Some d -> (0 <= d)%Q.

Definition positive_on_mask (dt : matrix Z -> matrix Q) : Prop :=
  forall m i j d, pixel (dt m) i j = Some d -> (0 < d)%Q ->
                  exists v, pixel m i j = Some v /\ v <> 0%Z.

(** Slots that [n] simulated rounds cannot reach when each half has
    [num_points] slots: all but the last [n] slots of each half. *)
Definition outside_window (num_points n slot : nat) : Prop :=
  (slot < num_points - n)%nat
  \/ (num_points <= slot < 2 * num_points - n)%nat
  \/ (2 * num_points <= slot)%nat.

(** A point tensor with [N] slots per sample. *)
Definition point_tensor (N : nat) (points : list pointset) : Prop :=
  Forall (fun ps => length ps = N) points /\ ClickSim.size1 points = N.

(** What a loss table says about one term: its weight (0 when absent),
    whether it takes part, the unweighted mean of its criterion, and its
    share of the total. *)
Definition term_weight (cfg : gmap string Loss.cfg_value) (t : string) : Q :=
  match cfg !! (t +:+ "_weight")%string with
  | Some (Loss.Weight w) => w
  | _ => 0%Q
  end.

Definition term_active (cfg : gmap string Loss.cfg_value) (t : string) : bool :=
  Qltb 0 (term_weight cfg t).

Definition term_mean (cfg : gmap string Loss.cfg_value) (inputs : tensor4 Q * tensor4 Q)
    (t : string) : Q :=
  match cfg !! t with
  | Some (Loss.Criterion f) => Loss.torch_mean (f (fst inputs) (snd inputs))
  | _ => 0%Q
  end.

Definition term_share (cfg : gmap string Loss.cfg_value) (inputs : tensor4 Q * tensor4 Q)
    (t : string) : Q :=
  if term_active cfg t then (term_weight cfg t * term_mean cfg inputs t)%Q else 0%Q.

(** The table is usable for a term: the weight entry, if any, is a number,
    and a term that takes part has a criterion. *)
Definition term_configured (cfg : gmap string Loss.cfg_value) (t : string) : Prop :=
  (forall f, cfg !! (t +:+ "_weight")%string <> Some (Loss.Criterion f))
  /\ (term_active cfg t = true -> exists f, cfg !! t = Some (Loss.Criterion f)).

(** The positive and the negative clicks of a list, in order. *)
Definition positives (cl : list ISFintuner.Click) : list ISFintuner.Click :=
  filter (fun c => ISFintuner.is_positive c = true) cl.

Definition negatives (cl : list ISFintuner.Click) : list ISFintuner.Click :=
  filter (fun c => ISFintuner.is_positive c = false) cl.

(** One half of a row of [get_points_nd]: the points, then sentinels up to
    24 slots. *)
Definition padded_half (pts : list point) : pointset :=
  pts ++ replicate (24 - length pts) ClickSim.sentinel.

(** The valid points of one half of a sample, re-indexed as
    [prepare_seg_net_input] does. *)
Definition compacted_half (half : pointset) : pointset :=
  padded_half (map (ClickSim.set_comp 2 100) (ISFintuner.valid_points_list half)).

(** Two lists of point sets with the same number of samples and the same
    number of slots in each sample. *)
Definition same_slots (a b : list pointset) : Prop :=
  map length a = map (@length point) b.

(** ** The numbered checkpoint of an epoch

    Lines 194-201 of [ISTrainer.training] (and 558-565 of
    [ISFintuner.training]): [self.checkpoint_interval] is an integer or a
    list of pairs (first epoch, interval). *)

Module Schedule.

Inductive interval_cfg : Type :=
| Every (n : Z)
| Table (rows : list (Z * Z)).

Inductive error : Type := IndexError | ZeroDivisionError.

(** [[x for x in self.checkpoint_interval if x[0] <= epoch][-1][1]] *)
Definition checkpoint_interval_at (ci : interval_cfg) (epoch : Z) : error + Z :=
  match ci with
  | Every n => inr n
  | Table rows =>
      match last (filter (fun x : Z * Z => (fst x <= epoch)%Z) rows) with
      | Some x => inr (snd x)
      | None => inl IndexError
      end
  end.

(** [epoch % checkpoint_interval == 0]: whether the checkpoint numbered
    [epoch] is written. *)
Definition saves_numbered (ci : interval_cfg) (epoch : Z) : error + bool :=
  match checkpoint_interval_at ci epoch with
  | inl e => inl e
  | inr n => if (n =? 0)%Z then inl ZeroDivisionError else inr (epoch mod n =? 0)%Z
  end.

End Schedule.

(** A table of intervals listed by increasing first epoch. *)
Fixpoint increasing_starts (rows : list (Z * Z)) : Prop :=
  match rows with
  | [] => True
  | r :: rest => Forall (fun r' : Z * Z => (fst r < fst r')%Z) rest /\ increasing_starts rest
  end.

(** ** Worked inputs of the further properties

    The fine-tuner needs 48 slots per sample; its two networks answer with
    one channel of zero logits. *)
Definition points_48 : list pointset := [replicate 48 ClickSim.sentinel].

Definition batch_48 : ISTrainer.Batch :=
  {| ISTrainer.images := [[blank; blank; blank]];
     ISTrainer.gt_instances := gt_one;
     ISTrainer.points := points_48 |}.

Definition zero_logits (input : tensor4 Q) : Loss.Output :=
  oracle_output (map (fun s => [map (map (fun _ => 0%Q)) (hd [] s)]) input).

Definition blind_ft_net : ISFintuner.Network :=
  {| ISFintuner.forward := fun _ input _ => zero_logits input |}.

Definition fintuner_two_clicks : ISFintuner.Fintuner :=
  {| ISFintuner.int_net := blind_ft_net;
     ISFintuner.seg_net := blind_ft_net;
     ISFintuner.max_num_next_clicks := 2;
     ISFintuner.loss_cfg := ∅;
     ISFintuner.val_loss_cfg := ∅ |}.

(** A trainer that always drops the previous mask, and a state after one
    simulated round. *)
Definition trainer_always_drops : ISTrainer.Trainer :=
  {| ISTrainer.net := blind_net;
     ISTrainer.click_models := None;
     ISTrainer.max_num_next_clicks := 2;
     ISTrainer.prev_mask_drop_prob := 1;
     ISTrainer.loss_cfg := ∅;
     ISTrainer.val_loss_cfg := ∅ |}.

Definition state_after_round : ISTrainer.SimState :=
  {| ISTrainer.prev_output := gt_one;
     ISTrainer.cur_points := points_unset;
     ISTrainer.last_click_indx := Some 0%nat;
     ISTrainer.net_training := true;
     ISTrainer.np_rng := ramp;
     ISTrainer.rounds_run := [0%nat] |}.

(** Intervals 5 from epoch 0 and 10 from epoch 100. *)
Definition two_phase_table : list (Z * Z) := [(0, 5); (100, 10)]%Z.

Definition one_positive_click : list ISFintuner.Click :=
  [{| ISFintuner.is_positive := true; ISFintuner.coords := (3, 4)%Q; ISFintuner.indx := 1 |}].

(** * Properties *)

(** ** Comparisons on rationals *)

Lemma Qltb_lt x y : Qltb x y = true <-> (x < y)%Q.
Proof. unfold Qltb, Qlt. apply Z.ltb_lt. Qed.

Lemma Qltb_nlt x y : Qltb x y = false <-> (y <= x)%Q.
Proof. unfold Qltb, Qle. rewrite Z.ltb_ge. reflexivity. Qed.

Lemma Qltb_compat x x' y y' : (x == x')%Q -> (y == y')%Q -> Qltb x y = Qltb x' y'.
Proof.
  intros Hx Hy. destruct (Qltb x' y') eqn:E.
  - apply Qltb_lt. apply Qltb_lt in E. rewrite Hx, Hy. exact E.
  - apply Qltb_nlt. apply Qltb_nlt in E. rewrite Hx, Hy. exact E.
Qed.

(** ** Lookups in element-wise combinations *)

Lemma shape_of_lookup {A B} (a : tensor3 A) (b : tensor3 B) n i j x :
  shape_of a = shape_of b -> pixel3 a n i j = Some x -> exists y, pixel3 b n i j = Some y.
Proof.
  unfold shape_of, pixel3, pixel. intros Hs Hx.
  destruct (a !! n) as [ma|] eqn:Ea; simpl in Hx; [|discriminate].
  destruct (ma !! i) as [ra|] eqn:Er; simpl in Hx; [|discriminate].
  assert (map (map length) a !! n = Some (map length ma)) as H1
    by (rewrite list_lookup_fmap, Ea; reflexivity).
  rewrite Hs, list_lookup_fmap in H1.
  destruct (b !! n) as [mb|] eqn:Eb; simpl in H1; [|discriminate].
  assert (map length ma !! i = Some (length ra)) as H2
    by (rewrite list_lookup_fmap, Er; reflexivity).
  injection H1 as H1. rewrite <- H1, list_lookup_fmap in H2.
  destruct (mb !! i) as [rb|] eqn:Erb; simpl in H2; [|discriminate].
  injection H2 as H2. simpl.
  destruct (lookup_lt_is_Some_2 rb j) as [y Hy].
  { rewrite H2. eapply lookup_lt_Some; eauto. }
  exists y. rewrite Erb. exact Hy.
Qed.

Lemma zip3_pixel {A B C} (f : A -> B -> C) (a : tensor3 A) (b : tensor3 B) n i j x y :
  pixel3 a n i j = Some x -> pixel3 b n i j = Some y ->
  pixel3 (zip_with (zip_with (zip_with f)) a b) n i j = Some (f x y).
Proof.
  unfold pixel3, pixel. intros Hx Hy.
  rewrite lookup_zip_with.
  destruct (a !! n) as [ma|]; simpl in *; [|discriminate].
  destruct (b !! n) as [mb|]; simpl in *; [|discriminate].
  rewrite lookup_zip_with.
  destruct (ma !! i) as [ra|]; simpl in *; [|discriminate].
  destruct (mb !! i) as [rb|]; simpl in *; [|discriminate].
  rewrite lookup_zip_with, Hx, Hy. reflexivity.
Qed.

Lemma map3_pixel {A B} (f : A -> B) (a : tensor3 A) n i j :
  pixel3 (map (map (map f)) a) n i j = f <$> pixel3 a n i j.
Proof.
  unfold pixel3, pixel. rewrite list_lookup_fmap.
  destruct (a !! n) as [m|]; simpl; [|reflexivity].
  rewrite list_lookup_fmap. destruct (m !! i) as [r|]; simpl; [|reflexivity].
  apply list_lookup_fmap.
Qed.

Lemma shape_of_map3 {A B} (f : A -> B) (a : tensor3 A) :
  shape_of (map (map (map f)) a) = shape_of a.
Proof.
  unfold shape_of. induction a as [|m a IH]; simpl; [reflexivity|]. f_equal; [|exact IH].
  clear IH. induction m as [|r m IH]; simpl; [reflexivity|].
  f_equal; [apply length_map|exact IH].
Qed.

(** C7. A ground-truth pixel equal to -1 (ignore) is never in the
    false-negative mask, whatever the prediction and the threshold: the
    mask [get_next_points] computes has [false] at that pixel. *)
Theorem ignore_pixel_never_false_negative :
  forall (pred gt : tensor3 Q) (pred_thresh : Q) (fn_mask : tensor3 bool)
         (b i j : nat) (g : Q),
    ClickSim.false_negative_mask pred gt pred_thresh = Ok fn_mask ->
    pixel3 gt b i j = Some g ->
    (g == -1)%Q ->
    pixel3 fn_mask b i j = Some false.
Proof.
  intros pred gt thr fn b i j g Hfn Hg Hneg.
  unfold ClickSim.false_negative_mask, np_logical_and in Hfn.
  destruct (decide _) as [Hs|]; [|discriminate]. injection Hfn as <-.
  rewrite !shape_of_map3 in Hs.
  destruct (shape_of_lookup gt pred b i j g Hs Hg) as [p Hp].
  erewrite zip3_pixel; [| rewrite map3_pixel, Hg; reflexivity
                        | rewrite map3_pixel, Hp; reflexivity ].
  f_equal. apply andb_false_iff. left.
  apply Qltb_nlt. rewrite Hneg. discriminate.
Qed.

(** ** Writing a click into the point tensor *)

Import ClickSim.

Lemma py_index_lt len i k : py_index len i = Ok k -> (k < len)%nat.
Proof.
  unfold py_index. intros H.
  destruct ((0 <=? i) && (i <? Z.of_nat len))%Z eqn:E1.
  - injection H as <-. apply andb_true_iff in E1 as [? ?]. lia.
  - destruct ((- Z.of_nat len <=? i) && (i <? 0))%Z eqn:E2; [|discriminate].
    injection H as <-. apply andb_true_iff in E2 as [? ?]. lia.
Qed.

Lemma py_index_nonneg len i :
  (0 <= i < Z.of_nat len)%Z -> py_index len i = Ok (Z.to_nat i).
Proof.
  intros [H1 H2]. unfold py_index.
  apply Z.leb_le in H1. apply Z.ltb_lt in H2. rewrite H1, H2. reflexivity.
Qed.

Lemma alter_thrice (ps : pointset) k a b c :
  (k < length ps)%nat ->
  alter (set_comp 2 c) k (alter (set_comp 1 b) k (alter (set_comp 0 a) k ps))
  = <[k := (a, b, c)]> ps.
Proof.
  intros Hk. apply list_eq. intros i.
  destruct (decide (k = i)) as [<-|Hne].
  - rewrite !list_lookup_alter_eq, list_lookup_insert_eq by exact Hk.
    destruct (lookup_lt_is_Some_2 ps k Hk) as [[[x y] z] ->]. reflexivity.
  - rewrite !list_lookup_alter_ne, list_lookup_insert_ne by exact Hne. reflexivity.
Qed.

Lemma setitem_Ok points bindx i c v ps k :
  points !! bindx = Some ps -> py_index (length ps) i = Ok k ->
  setitem points bindx i c v = Ok (<[bindx := alter (set_comp c v) k ps]> points).
Proof. intros Hp Hk. unfold setitem. rewrite Hp. simpl. rewrite Hk. reflexivity. Qed.

Lemma setitem_inv points bindx i c v points' :
  setitem points bindx i c v = Ok points' ->
  exists ps k, points !! bindx = Some ps /\ py_index (length ps) i = Ok k.
Proof.
  unfold setitem. destruct (points !! bindx) as [ps|]; [|discriminate].
  simpl. destruct (py_index (length ps) i) as [k|] eqn:E; [|discriminate].
  intros _. exists ps, k. split; [reflexivity|exact E].
Qed.

Lemma write_click_Ok points num_points bindx click_indx is_positive coords ps slot :
  points !! bindx = Some ps ->
  py_index (length ps) (slot_index num_points click_indx is_positive) = Ok slot ->
  write_click points num_points bindx click_indx is_positive coords
  = Ok (<[bindx := <[slot := click_point coords click_indx]> ps]> points).
Proof.
  intros Hp Hk. unfold write_click.
  assert (bindx < length points)%nat as Hb by (eapply lookup_lt_Some; eauto).
  pose proof (py_index_lt _ _ _ Hk) as Hlt.
  erewrite setitem_Ok by eauto. simpl.
  erewrite setitem_Ok;
    [| apply list_lookup_insert_eq; exact Hb | rewrite length_alter; exact Hk].
  simpl.
  erewrite setitem_Ok;
    [| apply list_lookup_insert_eq; rewrite length_insert; exact Hb
     | rewrite !length_alter; exact Hk].
  rewrite !list_insert_insert_eq, alter_thrice by exact Hlt. reflexivity.
Qed.

Lemma write_click_inv points num_points bindx click_indx is_positive coords points' :
  write_click points num_points bindx click_indx is_positive coords = Ok points' ->
  exists ps slot,
    points !! bindx = Some ps
    /\ py_index (length ps) (slot_index num_points click_indx is_positive) = Ok slot
    /\ points' = <[bindx := <[slot := click_point coords click_indx]> ps]> points.
Proof.
  intros H. pose proof H as H0. unfold write_click in H0.
  destruct (setitem points bindx _ 0 _) as [p0|] eqn:E0; [|discriminate].
  destruct (setitem_inv _ _ _ _ _ _ E0) as (ps & slot & Hp & Hk).
  exists ps, slot. split; [exact Hp|]. split; [exact Hk|].
  erewrite write_click_Ok in H by eauto. congruence.
Qed.

(** ** The loop over the batch touches one slot per sample *)

Lemma click_loop_effect dt masks :
  forall bindx num_points click_indx points g points' g',
    click_loop dt bindx masks num_points click_indx points g = Ok (points', g') ->
    length points' = length points /\
    forall i ps, points !! i = Some ps ->
      exists ps', points' !! i = Some ps'
                  /\ sample_effect num_points click_indx ps ps'
                  /\ ((i < bindx)%nat -> ps' = ps).
Proof.
  induction masks as [|[fn fp] rest IH]; intros bindx np k points g points' g' H.
  - simpl in H. injection H as <- <-. split; [reflexivity|].
    intros i ps Hi. exists ps. split; [exact Hi|]. split; [left; reflexivity|reflexivity].
  - simpl in H.
    destruct (sample_click dt fn fp g) as [[click g1]|] eqn:Es; [|discriminate].
    simpl in H.
    destruct click as [[pos coords]|].
    + destruct (write_click points np bindx k pos coords) as [points1|] eqn:Ew;
        [|discriminate].
      simpl in H. apply IH in H as [Hlen Hall].
      destruct (write_click_inv _ _ _ _ _ _ _ Ew) as (psb & slot & Hb & Hslot & ->).
      rewrite length_insert in Hlen. split; [exact Hlen|].
      assert (bindx < length points)%nat as Hlt by (eapply lookup_lt_Some; eauto).
      intros i ps Hi. destruct (decide (i = bindx)) as [->|Hne].
      * assert (ps = psb) as -> by congruence.
        destruct (Hall bindx (<[slot := click_point coords k]> psb)) as (ps' & Hp' & _ & Heq).
        { apply list_lookup_insert_eq. exact Hlt. }
        rewrite Heq in Hp' by lia.
        eexists. split; [exact Hp'|]. split; [|lia].
        right. exists pos, coords, slot. split; [exact Hslot|reflexivity].
      * destruct (Hall i ps) as (ps' & Hp' & Heff & Heq).
        { rewrite list_lookup_insert_ne by congruence. exact Hi. }
        exists ps'. split; [exact Hp'|]. split; [exact Heff|].
        intros ?. apply Heq. lia.
    + simpl in H. apply IH in H as [Hlen Hall]. split; [exact Hlen|].
      intros i ps Hi. destruct (Hall i ps Hi) as (ps' & Hp' & Heff & Heq).
      exists ps'. split; [exact Hp'|]. split; [exact Heff|].
      intros ?. apply Heq. lia.
Qed.

Lemma get_next_points_inv dt pred gt points click_indx thr g r :
  get_next_points dt pred gt points click_indx thr g = Ok r ->
  (0 < click_indx)%Z /\
  exists masks, click_loop dt 0 masks (size1 points / 2) click_indx points g = Ok r.
Proof.
  unfold get_next_points. destruct (0 <? click_indx)%Z eqn:Ek; simpl; [|discriminate].
  apply Z.ltb_lt in Ek.
  destruct (channel0 pred) as [pred0|]; simpl; [|discriminate].
  destruct (channel0 gt) as [gt0|]; simpl; [|discriminate].
  destruct (false_negative_mask pred0 gt0 thr) as [fn|]; simpl; [|discriminate].
  destruct (false_positive_mask pred0 gt0 thr) as [fp|]; simpl; [|discriminate].
  intros H. split; [exact Ek|]. eexists. exact H.
Qed.

Lemma slot_within_capacity (N : nat) (click_indx : Z) (is_positive : bool) slot :
  let num_points := (N / 2)%nat in
  (0 < click_indx <= Z.of_nat num_points)%Z ->
  py_index N (slot_index num_points click_indx is_positive) = Ok slot ->
  slot = slot_nat num_points click_indx is_positive
  /\ (if is_positive then (slot < num_points)%nat
      else (num_points <= slot < 2 * num_points)%nat)
  /\ forall j q, (1 <= j <= Z.of_nat num_points)%Z ->
                 (j, q) <> (click_indx, is_positive) ->
                 slot_nat num_points j q <> slot.
Proof.
  intros np Hk Hidx.
  assert (2 * np <= N)%nat as HN.
  { unfold np. pose proof (Nat.div_mod_eq N 2). lia. }
  rewrite py_index_nonneg in Hidx.
  2:{ unfold slot_index. destruct is_positive; lia. }
  injection Hidx as <-. split; [reflexivity|].
  unfold slot_nat, slot_index. split; [destruct is_positive; lia|].
  intros j q Hj Hne Heq.
  destruct q, is_positive; try lia.
  - apply Hne. f_equal. lia.
  - apply Hne. f_equal. lia.
Qed.

(** C2. The point set [get_next_points] returns has the length of its
    input, for every sample at most one slot changes, a positive click of
    round [click_indx] goes to slot [num_points - click_indx] and a negative
    one to slot [2 * num_points - click_indx]; while
    [click_indx <= num_points] these are positions of the first and second
    half and the slot of every other round or polarity is left as it was. *)
Theorem get_next_points_slots :
  forall dt pred gt (points : list pointset) click_indx thr g points' g',
    get_next_points dt pred gt points click_indx thr g = Ok (points', g') ->
    let num_points := (size1 points / 2)%nat in
    length points' = length points /\
    forall bindx ps,
      points !! bindx = Some ps -> length ps = size1 points ->
      exists ps',
        points' !! bindx = Some ps' /\ length ps' = length ps /\
        (ps' = ps \/
         exists is_positive coords slot,
           py_index (length ps) (slot_index num_points click_indx is_positive) = Ok slot
           /\ ps' = <[slot := click_point coords click_indx]> ps
           /\ ((click_indx <= Z.of_nat num_points)%Z ->
               slot = slot_nat num_points click_indx is_positive
               /\ (if is_positive then (slot < num_points)%nat
                   else (num_points <= slot < 2 * num_points)%nat)
               /\ forall j q,
                    (1 <= j <= Z.of_nat num_points)%Z ->
                    (j, q) <> (click_indx, is_positive) ->
                    ps' !! slot_nat num_points j q = ps !! slot_nat num_points j q)).
Proof.
  intros dt pred gt points k thr g points' g' H np.
  apply get_next_points_inv in H as (Hk & masks & H).
  apply click_loop_effect in H as [Hlen Hall]. split; [exact Hlen|].
  intros bindx ps Hb HN. destruct (Hall bindx ps Hb) as (ps' & Hp' & Heff & _).
  exists ps'. split; [exact Hp'|].
  destruct Heff as [->|(pos & coords & slot & Hslot & ->)].
  - split; [reflexivity|]. left. reflexivity.
  - split; [apply length_insert|]. right. exists pos, coords, slot.
    split; [exact Hslot|]. split; [reflexivity|].
    intros Hcap. rewrite HN in Hslot.
    destruct (slot_within_capacity (size1 points) k pos slot) as (E & Hhalf & Hother);
      [fold np; lia | exact Hslot |].
    split; [exact E|]. split; [exact Hhalf|].
    intros j q Hj Hne. apply list_lookup_insert_ne. intros Heq.
    apply (Hother j q Hj Hne). symmetry. exact Heq.
Qed.

(** ** A sample without error pixels yields no click *)

Lemma Forall_removelast {A} (P : A -> Prop) (l : list A) :
  Forall P l -> Forall P (removelast l).
Proof.
  induction 1 as [|x l Hx Hl IH]; simpl; [constructor|].
  destruct l; [constructor|]. constructor; [exact Hx|exact IH].
Qed.

Lemma Forall_slice {A} (P : A -> Prop) (l : list A) :
  Forall P l -> Forall P (slice_1_m1 l).
Proof.
  intros H. unfold slice_1_m1. apply Forall_removelast.
  destruct H; simpl; [constructor|assumption].
Qed.

Lemma crop_Forall {A} (P : A -> Prop) (d : matrix A) :
  Forall (Forall P) d -> Forall (Forall P) (crop d).
Proof.
  intros H. unfold crop. apply Forall_fmap.
  eapply Forall_impl; [apply Forall_slice; exact H|].
  intros r Hr. apply Forall_slice. exact Hr.
Qed.

Lemma pad_blank (m : matrix bool) :
  Forall (Forall (fun b => b = false)) m ->
  Forall (Forall (fun v => v = 0%Z)) (astype_uint8 (np_pad1 m)).
Proof.
  intros H. unfold astype_uint8, np_pad1.
  assert (forall n, Forall (fun v => v = 0%Z)
                      (map (fun b : bool => if b then 1%Z else 0%Z) (replicate n false))) as Hz.
  { intros n. apply Forall_fmap, Forall_replicate. reflexivity. }
  simpl. constructor; [apply Hz|].
  rewrite map_app. apply Forall_app. split.
  - rewrite map_map. apply Forall_fmap.
    eapply Forall_impl; [exact H|]. intros r Hr. simpl.
    constructor; [reflexivity|]. rewrite map_app. apply Forall_app. split.
    + apply Forall_fmap. eapply Forall_impl; [exact Hr|]. intros b ->. reflexivity.
    + repeat constructor.
  - constructor; [apply Hz|constructor].
Qed.

Lemma fold_np_maximum_Forall (P : Q -> Prop) xs x :
  P x -> Forall P xs -> P (fold_left np_maximum xs x).
Proof.
  revert x. induction xs as [|y xs IH]; intros x Hx Hxs; simpl; [exact Hx|].
  inversion Hxs; subst. apply IH; [|assumption].
  unfold np_maximum. destruct (Qltb x y); assumption.
Qed.

Lemma np_max_Forall (P : Q -> Prop) m v :
  Forall (Forall P) m -> np_max m = Ok v -> P v.
Proof.
  intros H. unfold np_max.
  assert (Forall P (concat m)) as Hc.
  { induction H; simpl; [constructor|]. apply Forall_app. split; assumption. }
  destruct (concat m) as [|x xs]; [discriminate|].
  intros [= <-]. inversion Hc; subst. apply fold_np_maximum_Forall; assumption.
Qed.

Lemma where_true_blank j row :
  Forall (fun b => b = false) row -> where_true j row = [].
Proof.
  intros H. revert j. induction H as [|b row -> _ IH]; intros j; simpl; [reflexivity|].
  apply IH.
Qed.

Lemma argwhere_blank i m :
  Forall (Forall (fun b => b = false)) m -> argwhere_from i m = [].
Proof.
  intros H. revert i. induction H as [|row m Hr _ IH]; intros i; simpl; [reflexivity|].
  rewrite where_true_blank by exact Hr. simpl. apply IH.
Qed.

Lemma sample_click_blank dt fn fp g r :
  zero_on_blank dt ->
  Forall (Forall (fun v => v = 0%Z)) fn ->
  Forall (Forall (fun v => v = 0%Z)) fp ->
  sample_click dt fn fp g = Ok r ->
  r = (None, g).
Proof.
  intros Hdt Hfn Hfp. unfold sample_click.
  pose proof (crop_Forall _ _ (Hdt fn Hfn)) as Zfn.
  pose proof (crop_Forall _ _ (Hdt fp Hfp)) as Zfp.
  destruct (np_max (crop (dt fn))) as [vn|] eqn:En; [|discriminate].
  destruct (np_max (crop (dt fp))) as [vp|] eqn:Ep; [|discriminate].
  simpl.
  pose proof (np_max_Forall _ _ _ Zfn En) as Hvn.
  pose proof (np_max_Forall _ _ _ Zfp Ep) as Hvp.
  assert (Qltb vp vn = false) as -> by (apply Qltb_nlt; rewrite Hvn, Hvp; apply Qle_refl).
  assert (np_argwhere (map (map (fun d => Qltb (py_max vn vp / 2) d)) (crop (dt fp))) = [])
    as ->.
  { apply argwhere_blank. apply Forall_fmap.
    eapply Forall_impl; [exact Zfp|]. intros row Hrow. apply Forall_fmap.
    eapply Forall_impl; [exact Hrow|]. intros d Hd. simpl.
    apply Qltb_nlt. rewrite Hd. unfold py_max.
    destruct (Qltb vn vp); [rewrite Hvp|rewrite Hvn]; discriminate. }
  simpl. congruence.
Qed.

Lemma zip2_Forall {A B C} (f : A -> B -> C) (P : C -> Prop) (a : matrix A) (b : matrix B) :
  (forall i j x y, pixel a i j = Some x -> pixel b i j = Some y -> P (f x y)) ->
  Forall (Forall P) (zip_with (zip_with f) a b).
Proof.
  intros H. apply Forall_lookup. intros i row Hrow.
  apply lookup_zip_with_Some in Hrow as (ra & rb & -> & Ha & Hb).
  apply Forall_lookup. intros j c Hc.
  apply lookup_zip_with_Some in Hc as (x & y & -> & Hx & Hy).
  apply (H i j); unfold pixel; [rewrite Ha|rewrite Hb]; assumption.
Qed.

Lemma map2_pixel {A B} (f : A -> B) (a : matrix A) i j :
  pixel (map (map f) a) i j = f <$> pixel a i j.
Proof.
  unfold pixel. rewrite list_lookup_fmap.
  destruct (a !! i) as [r|]; simpl; [|reflexivity]. apply list_lookup_fmap.
Qed.

Lemma np_logical_and_lookup a c r b :
  np_logical_and a c = Ok r ->
  r !! b = (x ← a !! b; y ← c !! b; Some (zip_with (zip_with andb) x y)).
Proof.
  unfold np_logical_and. destruct (decide _); [|discriminate].
  intros [= <-]. apply lookup_zip_with.
Qed.

Lemma masks_blank pred0 gt0 thr fn fp b pm gm :
  false_negative_mask pred0 gt0 thr = Ok fn ->
  false_positive_mask pred0 gt0 thr = Ok fp ->
  pred0 !! b = Some pm -> gt0 !! b = Some gm ->
  no_error_pixels thr pm gm ->
  exists mn mp, fn !! b = Some mn /\ fp !! b = Some mp
                /\ Forall (Forall (fun v => v = false)) mn
                /\ Forall (Forall (fun v => v = false)) mp.
Proof.
  intros Hfn Hfp Hp Hg Hno.
  pose proof (np_logical_and_lookup _ _ _ b Hfn) as Ln.
  pose proof (np_logical_and_lookup _ _ _ b Hfp) as Lp.
  unfold np_logical_not in Lp.
  rewrite (list_lookup_fmap _ pred0), Hp in Ln.
  rewrite (list_lookup_fmap _ pred0), Hp in Lp.
  rewrite (list_lookup_fmap _ gt0), Hg in Ln.
  rewrite list_lookup_fmap, (list_lookup_fmap _ gt0), Hg in Lp.
  simpl in Ln, Lp.
  eexists _, _. split; [exact Ln|]. split; [exact Lp|]. split.
  - apply zip2_Forall. intros i j x y Hx Hy.
    rewrite map2_pixel in Hx, Hy.
    destruct (pixel gm i j) as [g|] eqn:Eg; [|discriminate].
    destruct (pixel pm i j) as [q|] eqn:Eq; [|discriminate].
    injection Hx as <-. injection Hy as <-.
    destruct (Hno i j q g Eq Eg) as [H1 _].
    destruct (Qltb (1 # 2) g) eqn:E1; [|reflexivity]. simpl.
    apply Qltb_lt in E1. destruct (Qltb q thr) eqn:E2; [|reflexivity].
    apply Qltb_lt in E2. exfalso. exact (H1 E1 E2).
  - apply zip2_Forall. intros i j x y Hx Hy.
    rewrite !map2_pixel in Hx. rewrite map2_pixel in Hy.
    destruct (pixel gm i j) as [g|] eqn:Eg; [|discriminate].
    destruct (pixel pm i j) as [q|] eqn:Eq; [|discriminate].
    injection Hx as <-. injection Hy as <-.
    destruct (Hno i j q g Eq Eg) as [_ H2].
    destruct (Qltb (1 # 2) g) eqn:E1; [reflexivity|]. simpl.
    destruct (Qltb thr q) eqn:E2; [|reflexivity].
    apply Qltb_lt in E2. exfalso. apply H2; [|exact E2].
    intros E. apply Qltb_lt in E. congruence.
Qed.

Lemma channel0_lookup {A} (t : tensor4 A) t0 b c rest :
  channel0 t = Ok t0 -> t !! b = Some (c :: rest) -> t0 !! b = Some c.
Proof.
  revert t0 b. induction t as [|s t IH]; intros t0 b H Hb; [discriminate|].
  simpl in H. destruct s as [|c0 s]; [discriminate|].
  destruct (channel0 t) as [r|] eqn:E; [|discriminate]. injection H as <-.
  destruct b as [|b]; simpl in *; [congruence|]. eapply IH; eauto.
Qed.

(** ** Removing a sample that yields no click *)

Lemma delete_insert_above {A} (l : list A) c i x :
  (c <= i)%nat -> delete c (<[S i := x]> l) = <[i := x]> (delete c l).
Proof.
  revert c i. induction l as [|y l IH]; intros c i Hc; [destruct c; reflexivity|].
  destruct c as [|c]; simpl; [reflexivity|].
  destruct i as [|i]; [lia|]. simpl. f_equal. apply IH. lia.
Qed.

Lemma delete_insert_below {A} (l : list A) c i x :
  (i < c)%nat -> delete c (<[i := x]> l) = <[i := x]> (delete c l).
Proof.
  revert c i. induction l as [|y l IH]; intros c i Hc; [destruct c; reflexivity|].
  destruct c as [|c]; [lia|]. destruct i as [|i]; simpl; [reflexivity|].
  f_equal. apply IH. lia.
Qed.

Lemma zip_with_delete {A B C} (f : A -> B -> C) (l : list A) (k : list B) i :
  zip_with f (delete i l) (delete i k) = delete i (zip_with f l k).
Proof.
  revert k i. induction l as [|x l IH]; intros k i.
  - destruct i; simpl; destruct k; reflexivity.
  - destruct k as [|y k]; [destruct i; simpl; [destruct l|destruct (delete i l)]; reflexivity|].
    destruct i as [|i]; simpl; [reflexivity|]. f_equal. apply IH.
Qed.

Lemma map_delete {A B} (f : A -> B) (l : list A) i :
  map f (delete i l) = delete i (map f l).
Proof. exact (list_fmap_delete f l i). Qed.

Lemma channel0_delete {A} (t : tensor4 A) t0 b :
  channel0 t = Ok t0 -> channel0 (delete b t) = Ok (delete b t0).
Proof.
  revert t0 b. induction t as [|s t IH]; intros t0 b H.
  - injection H as <-. destruct b; reflexivity.
  - simpl in H. destruct s as [|c s]; [discriminate|].
    destruct (channel0 t) as [r|] eqn:E; [|discriminate]. injection H as <-.
    destruct b as [|b]; simpl; [exact E|].
    rewrite (IH r b eq_refl). reflexivity.
Qed.

Lemma np_logical_and_delete a c r b :
  np_logical_and a c = Ok r ->
  np_logical_and (delete b a) (delete b c) = Ok (delete b r).
Proof.
  unfold np_logical_and, shape_of. destruct (decide _) as [Hs|]; [|discriminate].
  intros [= <-]. rewrite !map_delete, Hs.
  destruct (decide _) as [_|Hne]; [|congruence].
  rewrite zip_with_delete. reflexivity.
Qed.

Lemma false_negative_mask_delete pred0 gt0 thr fn b :
  false_negative_mask pred0 gt0 thr = Ok fn ->
  false_negative_mask (delete b pred0) (delete b gt0) thr = Ok (delete b fn).
Proof.
  unfold false_negative_mask. intros H. rewrite !map_delete.
  apply np_logical_and_delete. exact H.
Qed.

Lemma false_positive_mask_delete pred0 gt0 thr fp b :
  false_positive_mask pred0 gt0 thr = Ok fp ->
  false_positive_mask (delete b pred0) (delete b gt0) thr = Ok (delete b fp).
Proof.
  unfold false_positive_mask, np_logical_not. intros H. rewrite !map_delete.
  apply np_logical_and_delete. exact H.
Qed.

Lemma click_loop_shift dt masks :
  forall i c num_points click_indx points g points' g',
    (c <= i)%nat ->
    click_loop dt (S i) masks num_points click_indx points g = Ok (points', g') ->
    click_loop dt i masks num_points click_indx (delete c points) g
    = Ok (delete c points', g').
Proof.
  induction masks as [|[fn fp] rest IH]; intros i c np k points g points' g' Hc H.
  - simpl in *. congruence.
  - simpl in *.
    destruct (sample_click dt fn fp g) as [[click g1]|]; [|discriminate]. simpl in *.
    destruct click as [[pos coords]|]; simpl in *.
    + destruct (write_click points np (S i) k pos coords) as [points1|] eqn:Ew;
        [|discriminate].
      destruct (write_click_inv _ _ _ _ _ _ _ Ew) as (ps & slot & Hp & Hslot & ->).
      erewrite write_click_Ok;
        [| rewrite list_lookup_delete_ge by exact Hc; exact Hp | exact Hslot].
      simpl in *. rewrite <- delete_insert_above by exact Hc.
      apply IH; [lia|exact H].
    + apply IH; [lia|exact H].
Qed.

Lemma click_loop_delete dt masks :
  forall b i num_points click_indx points g points' g' fn fp,
    masks !! b = Some (fn, fp) ->
    (forall g0 r, sample_click dt fn fp g0 = Ok r -> r = (None, g0)) ->
    click_loop dt i masks num_points click_indx points g = Ok (points', g') ->
    click_loop dt i (delete b masks) num_points click_indx (delete (i + b) points) g
    = Ok (delete (i + b) points', g')
    /\ points' !! (i + b)%nat = points !! (i + b)%nat.
Proof.
  induction masks as [|[fn0 fp0] rest IH];
    intros b i np k points g points' g' fn fp Hb Hblank H; [discriminate|].
  destruct b as [|b].
  - injection Hb as -> ->. simpl in H.
    destruct (sample_click dt fn fp g) as [r|] eqn:Es; [|discriminate].
    rewrite (Hblank g r Es) in H. simpl in H.
    rewrite Nat.add_0_r. split.
    + simpl. apply click_loop_shift; [lia|exact H].
    + apply click_loop_effect in H as [Hlen Hall].
      destruct (points !! i) as [ps|] eqn:Ei.
      * destruct (Hall i ps Ei) as (ps' & Hp' & _ & Heq). rewrite Hp', Heq by lia.
        reflexivity.
      * apply lookup_ge_None. rewrite Hlen. apply lookup_ge_None. exact Ei.
  - simpl in Hb. simpl in H. simpl.
    destruct (sample_click dt fn0 fp0 g) as [[click g1]|]; [|discriminate]. simpl in *.
    replace (i + S b)%nat with (S i + b)%nat by lia.
    destruct click as [[pos coords]|]; simpl in *.
    + destruct (write_click points np i k pos coords) as [points1|] eqn:Ew;
        [|discriminate].
      destruct (write_click_inv _ _ _ _ _ _ _ Ew) as (ps & slot & Hp & Hslot & ->).
      erewrite write_click_Ok;
        [| rewrite list_lookup_delete_lt by lia; exact Hp | exact Hslot].
      simpl in *. rewrite <- delete_insert_below by lia.
      destruct (IH b (S i) np k _ g1 points' g' fn fp Hb Hblank H) as [H1 H2].
      split; [exact H1|]. etransitivity; [exact H2|].
      apply list_lookup_insert_ne. lia.
    + exact (IH b (S i) np k _ g1 points' g' fn fp Hb Hblank H).
Qed.

Lemma get_next_points_unfold dt pred gt points click_indx thr g r :
  get_next_points dt pred gt points click_indx thr g = Ok r ->
  exists pred0 gt0 fn fp,
    (0 < click_indx)%Z
    /\ channel0 pred = Ok pred0 /\ channel0 gt = Ok gt0
    /\ false_negative_mask pred0 gt0 thr = Ok fn
    /\ false_positive_mask pred0 gt0 thr = Ok fp
    /\ click_loop dt 0 (zip (map pad8 fn) (map pad8 fp)) (size1 points / 2)
         click_indx points g = Ok r.
Proof.
  unfold get_next_points. destruct (0 <? click_indx)%Z eqn:Ek; simpl; [|discriminate].
  apply Z.ltb_lt in Ek.
  destruct (channel0 pred) as [pred0|]; simpl; [|discriminate].
  destruct (channel0 gt) as [gt0|]; simpl; [|discriminate].
  destruct (false_negative_mask pred0 gt0 thr) as [fn|] eqn:En; simpl; [|discriminate].
  destruct (false_positive_mask pred0 gt0 thr) as [fp|] eqn:Ep; simpl; [|discriminate].
  intros H. exists pred0, gt0, fn, fp. repeat split; assumption.
Qed.

Lemma get_next_points_fold dt pred gt points click_indx thr g pred0 gt0 fn fp :
  (0 < click_indx)%Z ->
  channel0 pred = Ok pred0 -> channel0 gt = Ok gt0 ->
  false_negative_mask pred0 gt0 thr = Ok fn ->
  false_positive_mask pred0 gt0 thr = Ok fp ->
  get_next_points dt pred gt points click_indx thr g
  = click_loop dt 0 (zip (map pad8 fn) (map pad8 fp)) (size1 points / 2)
      click_indx points g.
Proof.
  intros Hk Hp Hg Hn Hf. unfold get_next_points.
  apply Z.ltb_lt in Hk. rewrite Hk, Hp. simpl. rewrite Hg. simpl.
  rewrite Hn. simpl. rewrite Hf. reflexivity.
Qed.

Lemma size1_delete (points : list pointset) b :
  Forall (fun ps => length ps = size1 points) points ->
  (2 <= length points)%nat ->
  size1 (delete b points) = size1 points.
Proof.
  intros Hrect Hlen. destruct points as [|p0 [|p1 rest]]; simpl in Hlen; try lia.
  destruct b as [|b]; [|reflexivity].
  inversion Hrect as [|? ? _ Hr]; subst. inversion Hr as [|? ? H1 _]; subst.
  exact H1.
Qed.

(** C3. A sample without false-negative and false-positive pixels keeps
    all its slots (a sentinel slot stays the sentinel), and the call
    treats the other samples as if that sample were not in the batch: the
    same clicks, from the same random draws. *)
Theorem perfect_sample_left_unset :
  forall dt pred gt (points : list pointset) click_indx thr g points' g'
         b pm prest gm grest,
    zero_on_blank dt ->
    get_next_points dt pred gt points click_indx thr g = Ok (points', g') ->
    pred !! b = Some (pm :: prest) ->
    gt !! b = Some (gm :: grest) ->
    no_error_pixels thr pm gm ->
    points' !! b = points !! b
    /\ (forall slot, pixel points b slot = Some sentinel ->
                     pixel points' b slot = Some sentinel)
    /\ (Forall (fun ps => length ps = size1 points) points ->
        (2 <= length points)%nat ->
        get_next_points dt (delete b pred) (delete b gt) (delete b points)
          click_indx thr g
        = Ok (delete b points', g')).
Proof.
  intros dt pred gt points k thr g points' g' b pm prest gm grest
         Hdt H Hpb Hgb Hno.
  apply get_next_points_unfold in H as (pred0 & gt0 & fn & fp & Hk & Hp & Hg & Hn & Hf & H).
  pose proof (channel0_lookup _ _ _ _ _ Hp Hpb) as Hp0.
  pose proof (channel0_lookup _ _ _ _ _ Hg Hgb) as Hg0.
  destruct (masks_blank _ _ _ _ _ _ _ _ Hn Hf Hp0 Hg0 Hno)
    as (mn & mp & Hmn & Hmp & Bn & Bp).
  assert (zip (map pad8 fn) (map pad8 fp) !! b = Some (pad8 mn, pad8 mp)) as Hb.
  { rewrite lookup_zip_with, !list_lookup_fmap, Hmn, Hmp. reflexivity. }
  assert (forall g0 r, sample_click dt (pad8 mn) (pad8 mp) g0 = Ok r -> r = (None, g0))
    as Hblank.
  { intros g0 r. apply sample_click_blank; [exact Hdt| |]; apply pad_blank; assumption. }
  destruct (click_loop_delete dt _ b 0 _ _ _ _ _ _ _ _ Hb Hblank H) as [Hdel Hsame].
  change (0 + b)%nat with b in Hdel, Hsame. split; [exact Hsame|]. split.
  - intros slot. unfold pixel. rewrite Hsame. trivial.
  - intros Hrect Hlen.
    erewrite get_next_points_fold;
      [ | exact Hk | apply channel0_delete; exact Hp | apply channel0_delete; exact Hg
        | apply false_negative_mask_delete; exact Hn
        | apply false_positive_mask_delete; exact Hf ].
    rewrite size1_delete by assumption.
    rewrite !map_delete, zip_with_delete. exact Hdel.
Qed.

(** ** Matrices as tables of their pixels *)

Import ClickSpec.

Lemma rect_tabulate_shape {A} H W (f : nat -> nat -> A) : rect H W (tabulate H W f).
Proof.
  unfold rect, tabulate. split; [rewrite length_map, length_seq; reflexivity|].
  apply Forall_fmap, Forall_forall. intros i _. simpl.
  rewrite length_map, length_seq. reflexivity.
Qed.

Lemma pixel_tabulate {A} H W (f : nat -> nat -> A) i j :
  (i < H)%nat -> (j < W)%nat -> pixel (tabulate H W f) i j = Some (f i j).
Proof.
  intros Hi Hj. unfold pixel, tabulate.
  rewrite list_lookup_fmap, lookup_seq_lt by exact Hi. simpl.
  rewrite list_lookup_fmap, lookup_seq_lt by exact Hj. reflexivity.
Qed.

Lemma rect_pixel {A} H W (m : matrix A) i j :
  rect H W m -> (i < H)%nat -> (j < W)%nat -> is_Some (pixel m i j).
Proof.
  intros [Hl Hr] Hi Hj. unfold pixel.
  destruct (lookup_lt_is_Some_2 m i) as [r Er]; [lia|]. rewrite Er. simpl.
  apply lookup_lt_is_Some_2.
  rewrite Forall_lookup in Hr. rewrite (Hr i r Er). exact Hj.
Qed.

Lemma matrix_ext {A} H W (a b : matrix A) :
  rect H W a -> rect H W b ->
  (forall i j, (i < H)%nat -> (j < W)%nat -> pixel a i j = pixel b i j) ->
  a = b.
Proof.
  intros [La Ra] [Lb Rb] Hpix. apply (list_eq_same_length a b H Lb La).
  intros i ra rb Hi Ea Eb.
  rewrite Forall_lookup in Ra, Rb.
  apply (list_eq_same_length ra rb W (Rb i rb Eb) (Ra i ra Ea)).
  intros j x y Hj Ex Ey.
  specialize (Hpix i j Hi Hj). unfold pixel in Hpix. rewrite Ea, Eb in Hpix.
  simpl in Hpix. congruence.
Qed.

Lemma tabulate_of_rect {A} H W (m : matrix A) (f : nat -> nat -> A) :
  rect H W m ->
  (forall i j, (i < H)%nat -> (j < W)%nat -> pixel m i j = Some (f i j)) ->
  m = tabulate H W f.
Proof.
  intros Hm Hf. apply matrix_ext with H W; [exact Hm|apply rect_tabulate_shape|].
  intros i j Hi Hj. rewrite pixel_tabulate by assumption. apply Hf; assumption.
Qed.

Lemma tabulate_ext {A} H W (f f' : nat -> nat -> A) :
  (forall i j, (i < H)%nat -> (j < W)%nat -> f i j = f' i j) ->
  tabulate H W f = tabulate H W f'.
Proof.
  intros Hf. apply tabulate_of_rect; [apply rect_tabulate_shape|].
  intros i j Hi Hj. rewrite pixel_tabulate by assumption. f_equal. apply Hf; assumption.
Qed.

Lemma map_tabulate {A B} (g : A -> B) H W (f : nat -> nat -> A) :
  map (map g) (tabulate H W f) = tabulate H W (fun i j => g (f i j)).
Proof.
  unfold tabulate. rewrite map_map. apply map_ext. intros i. apply map_map.
Qed.

Lemma zip_tabulate {A B C} (h : A -> B -> C) H W f f' :
  zip_with (zip_with h) (tabulate H W f) (tabulate H W f')
  = tabulate H W (fun i j => h (f i j) (f' i j)).
Proof.
  apply tabulate_of_rect.
  - split.
    + rewrite length_zip_with.
      destruct (rect_tabulate_shape H W f) as [-> _].
      destruct (rect_tabulate_shape H W f') as [-> _]. lia.
    + apply Forall_lookup. intros i r Hr.
      apply lookup_zip_with_Some in Hr as (ra & rb & -> & Ha & Hb).
      rewrite length_zip_with.
      destruct (rect_tabulate_shape H W f) as [_ Rf].
      destruct (rect_tabulate_shape H W f') as [_ Rf'].
      rewrite Forall_lookup in Rf. rewrite Forall_lookup in Rf'.
      rewrite (Rf _ _ Ha), (Rf' _ _ Hb). lia.
  - intros i j Hi Hj. unfold pixel. rewrite lookup_zip_with.
    pose proof (pixel_tabulate H W f i j Hi Hj) as P1.
    pose proof (pixel_tabulate H W f' i j Hi Hj) as P2.
    unfold pixel in P1, P2.
    destruct (tabulate H W f !! i) as [ra|]; [|discriminate].
    destruct (tabulate H W f' !! i) as [rb|]; [|discriminate].
    simpl in *. rewrite lookup_zip_with, P1, P2. reflexivity.
Qed.

Lemma value_at_tabulate_of (m : matrix Q) H W :
  rect H W m -> m = tabulate H W (value_at m).
Proof.
  intros Hm. apply tabulate_of_rect; [exact Hm|].
  intros i j Hi Hj. unfold value_at.
  destruct (rect_pixel H W m i j Hm Hi Hj) as [x ->]. reflexivity.
Qed.

Lemma length_tail {A} (l : list A) : length (tail l) = (length l - 1)%nat.
Proof. destruct l; simpl; lia. Qed.

Lemma slice_length {A} (l : list A) : length (slice_1_m1 l) = (length l - 2)%nat.
Proof.
  unfold slice_1_m1. rewrite removelast_firstn_len, length_take, length_tail. lia.
Qed.

Lemma slice_lookup {A} (l : list A) i :
  (i + 2 < length l)%nat -> slice_1_m1 l !! i = l !! S i.
Proof.
  intros Hi. unfold slice_1_m1.
  rewrite removelast_firstn_len, length_tail.
  rewrite lookup_take_lt by lia. apply lookup_tail.
Qed.

Lemma crop_tabulate (d : matrix Q) H W :
  rect (H + 2) (W + 2) d ->
  crop d = tabulate H W (fun i j => value_at d (i + 1) (j + 1)).
Proof.
  intros [Hl Hr]. rewrite Forall_lookup in Hr.
  assert (forall i r, slice_1_m1 d !! i = Some r -> length r = (W + 2)%nat) as Hr'.
  { intros i r Er.
    destruct (decide (i + 2 < length d)%nat) as [Hi|Hi].
    - rewrite slice_lookup in Er by exact Hi. eapply Hr; eauto.
    - apply lookup_lt_Some in Er. rewrite slice_length in Er. lia. }
  apply tabulate_of_rect.
  - split.
    + unfold crop. rewrite length_map, slice_length. lia.
    + unfold crop. apply Forall_fmap, Forall_lookup. intros i r Er. simpl.
      rewrite slice_length, (Hr' i r Er). lia.
  - intros i j Hi Hj. unfold crop, pixel, value_at, pixel.
    rewrite list_lookup_fmap, slice_lookup by lia.
    replace (i + 1)%nat with (S i) by lia.
    destruct (lookup_lt_is_Some_2 d (S i)) as [r Er]; [lia|].
    rewrite Er. simpl. rewrite slice_lookup by (rewrite (Hr _ _ Er); lia).
    replace (j + 1)%nat with (S j) by lia.
    destruct (lookup_lt_is_Some_2 r (S j)) as [x Ex]; [rewrite (Hr _ _ Er); lia|].
    rewrite Ex. reflexivity.
Qed.

Lemma concat_tabulate {A} H W (f : nat -> nat -> A) :
  concat (tabulate H W f) = map (fun p => f (fst p) (snd p)) (pixels H W).
Proof.
  unfold pixels. rewrite concat_map, map_tabulate. reflexivity.
Qed.

Lemma np_max_tabulate H W (f : nat -> nat -> Q) :
  np_max (tabulate (S H) (S W) f) = Ok (max_distance (S H) (S W) f).
Proof.
  unfold np_max, max_distance. rewrite concat_tabulate.
  destruct (map (fun p => f (fst p) (snd p)) (pixels (S H) (S W))) eqn:E; [|reflexivity].
  discriminate.
Qed.

Lemma where_true_seq (b : nat -> bool) n :
  forall j0, where_true j0 (map b (seq j0 n)) = filter (fun j => b j = true) (seq j0 n).
Proof.
  induction n as [|n IH]; intros j0; simpl; [reflexivity|].
  rewrite IH. destruct (b j0) eqn:E.
  - rewrite filter_cons_True by exact E. reflexivity.
  - rewrite filter_cons_False by congruence. reflexivity.
Qed.

Lemma filter_pair_row (P : nat * nat -> Prop) `{forall p, Decision (P p)} i (l : list nat) :
  filter P (map (pair i) l) = map (pair i) (filter (fun j => P (i, j)) l).
Proof.
  induction l as [|j l IH]; simpl; [reflexivity|].
  destruct (decide (P (i, j))) as [Hp|Hp].
  - rewrite !filter_cons_True by exact Hp. simpl. f_equal. exact IH.
  - rewrite !filter_cons_False by exact Hp. exact IH.
Qed.

Lemma argwhere_tabulate H W (b : nat -> nat -> bool) :
  np_argwhere (tabulate H W b)
  = filter (fun p => b (fst p) (snd p) = true) (pixels H W).
Proof.
  unfold np_argwhere, pixels, tabulate. generalize 0%nat at 1 3 5 as i0.
  induction H as [|H IH]; intros i0; simpl; [reflexivity|].
  rewrite filter_app, IH. f_equal.
  rewrite where_true_seq, filter_pair_row. reflexivity.
Qed.

Lemma pad8_rect H W (m : matrix bool) :
  rect (S H) W m ->
  pad8 m = padded (S H) W (fun i j => default false (pixel m i j)).
Proof.
  intros [Hl Hr]. unfold pad8, astype_uint8, padded.
  assert (length (hd [] m) = W) as HW.
  { destruct m as [|r0 m']; [discriminate|]. inversion Hr; subst. reflexivity. }
  rewrite Forall_lookup in Hr.
  apply tabulate_of_rect.
  - unfold np_pad1. split.
    + rewrite length_map. cbn [length]. rewrite length_app, length_map, Hl.
      cbn [length]. lia.
    + apply Forall_fmap. rewrite HW. constructor.
      { cbn. rewrite length_map, length_replicate. reflexivity. }
      apply Forall_app. split.
      * apply Forall_fmap, Forall_lookup. intros i r Er. cbn.
        rewrite length_map, length_app, (Hr _ _ Er). cbn. lia.
      * constructor; [|constructor]. cbn. rewrite length_map, length_replicate. reflexivity.
  - intros i j Hi Hj. cbv beta.
    set (c := (0 <? i)%nat && (i <=? S H)%nat && (0 <? j)%nat && (j <=? W)%nat).
    assert (c = bool_decide ((1 <= i <= S H)%nat /\ (1 <= j <= W)%nat)) as Hc.
    { unfold c. apply eq_true_iff_eq.
      rewrite bool_decide_eq_true, !andb_true_iff, !Nat.ltb_lt, !Nat.leb_le. lia. }
    clearbody c. rewrite map2_pixel. unfold np_pad1. rewrite HW.
    unfold pixel at 1. destruct i as [|i].
    + rewrite bool_decide_eq_false_2 in Hc by lia. subst c.
      cbn. rewrite lookup_replicate_2 by exact Hj. reflexivity.
    + rewrite lookup_cons. destruct (decide (i < S H)%nat) as [Hin|Hout].
      * rewrite lookup_app_l by (rewrite length_map; lia).
        rewrite list_lookup_fmap.
        destruct (lookup_lt_is_Some_2 m i) as [r Er]; [lia|]. rewrite Er. cbn.
        destruct j as [|j].
        { rewrite bool_decide_eq_false_2 in Hc by lia. subst c. reflexivity. }
        rewrite lookup_cons. destruct (decide (j < W)%nat) as [Hjn|Hjo].
        -- rewrite lookup_app_l by (rewrite (Hr _ _ Er); exact Hjn).
           rewrite bool_decide_eq_true_2 in Hc by lia. subst c.
           cbn. rewrite ?Nat.sub_0_r. unfold pixel. rewrite Er. cbn.
           rewrite ?Nat.sub_0_r.
           destruct (lookup_lt_is_Some_2 r j) as [x Ex]; [rewrite (Hr _ _ Er); lia|].
           rewrite Ex. reflexivity.
        -- rewrite lookup_app_r by (rewrite (Hr _ _ Er); lia).
           rewrite bool_decide_eq_false_2 in Hc by lia. subst c.
           rewrite (Hr _ _ Er). replace (j - W)%nat with 0%nat by lia. reflexivity.
      * rewrite lookup_app_r by (rewrite length_map; lia).
        rewrite bool_decide_eq_false_2 in Hc by lia. subst c.
        rewrite length_map, Hl. replace (i - S H)%nat with 0%nat by lia. cbn.
        rewrite lookup_replicate_2 by exact Hj. reflexivity.
Qed.

Lemma padded_ext H W (mask mask' : nat -> nat -> bool) :
  (forall i j, (i < H)%nat -> (j < W)%nat -> mask i j = mask' i j) ->
  padded H W mask = padded H W mask'.
Proof.
  intros He. unfold padded. apply tabulate_ext. intros i j _ _.
  destruct (0 <? i)%nat eqn:E1; [|reflexivity].
  destruct (i <=? H)%nat eqn:E2; [|reflexivity].
  destruct (0 <? j)%nat eqn:E3; [|reflexivity].
  destruct (j <=? W)%nat eqn:E4; [|reflexivity].
  cbn. apply Nat.ltb_lt in E1, E3. apply Nat.leb_le in E2, E4.
  rewrite He by lia. reflexivity.
Qed.

Lemma pad8_tabulate H W (mask : nat -> nat -> bool) :
  pad8 (tabulate (S H) W mask) = padded (S H) W mask.
Proof.
  rewrite (pad8_rect H W) by apply rect_tabulate_shape.
  apply padded_ext. intros i j Hi Hj. rewrite pixel_tabulate by assumption. reflexivity.
Qed.

Section MasksAsTables.

Variables (thr : Q) (H W : nat) (pm gm : matrix Q).
Hypothesis Hpm : rect H W pm.
Hypothesis Hgm : rect H W gm.

Lemma fn_mask_tabulate :
  zip_with (zip_with andb) (map (map (fun g => Qltb (1 # 2) g)) gm)
                           (map (map (fun p => Qltb p thr)) pm)
  = tabulate H W (false_negative thr pm gm).
Proof using Hpm Hgm.
  rewrite (value_at_tabulate_of pm H W Hpm) at 1.
  rewrite (value_at_tabulate_of gm H W Hgm) at 1.
  rewrite !map_tabulate, zip_tabulate. reflexivity.
Qed.

Lemma fp_mask_tabulate :
  zip_with (zip_with andb) (map (map negb) (map (map (fun g => Qltb (1 # 2) g)) gm))
                           (map (map (fun p => Qltb thr p)) pm)
  = tabulate H W (false_positive thr pm gm).
Proof using Hpm Hgm.
  rewrite (value_at_tabulate_of pm H W Hpm) at 1.
  rewrite (value_at_tabulate_of gm H W Hgm) at 1.
  rewrite !map_tabulate, zip_tabulate. reflexivity.
Qed.

End MasksAsTables.

(** ** One sample: the code picks the click of the specification *)

Lemma py_max_winning (mfn mfp : Q) :
  (py_max mfn mfp == (if Qltb mfp mfn then mfn else mfp))%Q.
Proof.
  unfold py_max. destruct (Qltb mfp mfn) eqn:E1, (Qltb mfn mfp) eqn:E2; try reflexivity.
  - apply Qltb_lt in E1, E2. exfalso. apply (Qlt_irrefl mfn).
    eapply Qlt_trans; eauto.
  - apply Qltb_nlt in E1, E2. apply Qle_antisym; assumption.
Qed.

Lemma sample_click_spec dt thr H W (pm gm : matrix Q) g :
  shape_preserving dt ->
  sample_click dt (pad8 (tabulate (S H) (S W) (false_negative thr pm gm)))
                  (pad8 (tabulate (S H) (S W) (false_positive thr pm gm))) g
  = Ok (next_click dt thr (S H) (S W) pm gm g).
Proof.
  intros Hdt. unfold sample_click. rewrite !pad8_tabulate.
  assert (forall mask, crop (dt (padded (S H) (S W) mask))
                       = tabulate (S H) (S W) (distance dt (S H) (S W) mask)) as Hcrop.
  { intros mask. apply crop_tabulate. apply Hdt. apply rect_tabulate_shape. }
  rewrite !Hcrop, !np_max_tabulate. simpl mbind.
  set (dfn := distance dt (S H) (S W) (false_negative thr pm gm)).
  set (dfp := distance dt (S H) (S W) (false_positive thr pm gm)).
  set (mfn := max_distance (S H) (S W) dfn).
  set (mfp := max_distance (S H) (S W) dfp).
  assert (polarity dt thr (S H) (S W) pm gm = Qltb mfp mfn) as Hpol by reflexivity.
  assert ((if Qltb mfp mfn then tabulate (S H) (S W) dfn else tabulate (S H) (S W) dfp)
          = tabulate (S H) (S W) (winning_distance dt thr (S H) (S W) pm gm)) as ->.
  { unfold winning_distance. rewrite Hpol. destruct (Qltb mfp mfn); reflexivity. }
  assert (winning_max dt thr (S H) (S W) pm gm = if Qltb mfp mfn then mfn else mfp) as Hwin.
  { unfold winning_max, winning_distance. rewrite Hpol. destruct (Qltb mfp mfn); reflexivity. }
  rewrite map_tabulate, argwhere_tabulate.
  assert (filter (fun p => Qltb (py_max mfn mfp / 2)
                             (winning_distance dt thr (S H) (S W) pm gm (fst p) (snd p)) = true)
                 (pixels (S H) (S W))
          = region dt thr (S H) (S W) pm gm) as ->.
  { unfold region. apply list_filter_iff. intros p.
    erewrite Qltb_compat; [reflexivity| |reflexivity].
    rewrite py_max_winning, Hwin. reflexivity. }
  unfold next_click. rewrite <- Hpol.
  destruct (region dt thr (S H) (S W) pm gm) as [|p rest] eqn:Er; [reflexivity|].
  cbn [length Nat.ltb Nat.leb]. unfold np_random_randint.
  rewrite Nat.sub_0_r. cbn [Nat.add].
  set (n := next_raw g mod S (length rest)).
  destruct (lookup_lt_is_Some_2 (p :: rest) n) as [c Ec].
  { unfold n. cbn [length]. apply Nat.mod_upper_bound. discriminate. }
  rewrite Ec, (nth_lookup_Some _ _ p _ Ec). reflexivity.
Qed.

(** ** The batch *)

Lemma shape3_shape_of {A} B H W (t : tensor3 A) :
  shape3 B H W t -> shape_of t = replicate B (replicate H W).
Proof.
  intros [Hl Hr]. subst B. unfold shape_of.
  induction Hr as [|m t [Hm Hrows] _ IH]; simpl; [reflexivity|].
  f_equal; [|exact IH]. subst H. clear IH.
  induction Hrows as [|r m Hrw _ IH]; simpl; [reflexivity|]. f_equal; assumption.
Qed.

Lemma channel0_shape {A} B C H W (t : tensor4 A) :
  shape4 B (S C) H W t ->
  channel0 t = Ok (map (hd []) t) /\ shape3 B H W (map (hd []) t).
Proof.
  intros [Hl Hs]. subst B. induction Hs as [|s t [Hc Hch] _ [IH1 [IH2 IH3]]].
  - split; [reflexivity|]. split; [reflexivity|constructor].
  - destruct s as [|c s]; [discriminate|]. simpl. rewrite IH1. simpl.
    split; [reflexivity|]. split; [simpl; f_equal; exact IH2|].
    constructor; [|exact IH3]. inversion Hch; subst. assumption.
Qed.

Lemma zip_with_maps {A B A' B' C} (h : B' -> A' -> C) (fa : A -> A') (fb : B -> B')
    (la : list A) (lb : list B) :
  zip_with h (map fb lb) (map fa la) = map (fun s => h (fb (snd s)) (fa (fst s))) (zip la lb).
Proof.
  revert lb. induction la as [|a la IH]; intros [|b lb]; simpl; try reflexivity.
  f_equal. apply IH.
Qed.

Lemma zip_map_diag {A B C} (a : A -> B) (b : A -> C) (l : list A) :
  zip (map a l) (map b l) = map (fun x => (a x, b x)) l.
Proof. induction l as [|x l IH]; simpl; [reflexivity|]. f_equal. exact IH. Qed.

Lemma masks_as_map B H W thr (pred0 gt0 : tensor3 Q) :
  shape3 B H W pred0 -> shape3 B H W gt0 ->
  false_negative_mask pred0 gt0 thr
  = Ok (map (fun s => fn_of thr (fst s) (snd s)) (zip pred0 gt0))
  /\ false_positive_mask pred0 gt0 thr
     = Ok (map (fun s => fp_of thr (fst s) (snd s)) (zip pred0 gt0)).
Proof.
  intros Hp Hg.
  pose proof (shape3_shape_of _ _ _ _ Hp) as Sp.
  pose proof (shape3_shape_of _ _ _ _ Hg) as Sg.
  unfold false_negative_mask, false_positive_mask, np_logical_and, np_logical_not.
  rewrite !shape_of_map3, Sp, Sg.
  destruct (decide _) as [_|Hne]; [|congruence].
  split; f_equal.
  - apply (zip_with_maps (zip_with (zip_with andb))).
  - rewrite map_map, zip_with_maps. reflexivity.
Qed.

Lemma click_loop_spec dt thr H W samples :
  shape_preserving dt ->
  Forall (fun s : list (list Q) * list (list Q) =>
            rect (S H) (S W) (fst s) /\ rect (S H) (S W) (snd s)) samples ->
  forall i num_points click_indx points g,
    click_loop dt i
      (map (fun s => (pad8 (fn_of thr (fst s) (snd s)), pad8 (fp_of thr (fst s) (snd s))))
           samples)
      num_points click_indx points g
    = next_points dt thr i samples num_points click_indx points g.
Proof.
  intros Hdt Hs. induction Hs as [|[pm gm] samples [Hpm Hgm] _ IH];
    intros i np k points g; [reflexivity|].
  cbn [fst snd] in Hpm, Hgm.
  cbn [map click_loop next_points fst snd].
  unfold fn_of, fp_of.
  rewrite (fn_mask_tabulate thr (S H) (S W) pm gm Hpm Hgm).
  rewrite (fp_mask_tabulate thr (S H) (S W) pm gm Hpm Hgm).
  rewrite sample_click_spec by exact Hdt.
  assert (length pm = S H) as -> by apply Hpm.
  assert (length (hd [] pm) = S W) as ->.
  { destruct Hpm as [Hl Hr]. destruct pm as [|r0 pm]; [discriminate|].
    inversion Hr; subst. assumption. }
  destruct (next_click dt thr (S H) (S W) pm gm g) as [click g1]. cbn [mbind result_bind].
  destruct click as [[pos coords]|].
  - destruct (write_click points np i k pos coords) as [points1|]; [|reflexivity].
    cbn. apply IH.
  - cbn. apply IH.
Qed.

Lemma NoDup_pixels H W : NoDup (pixels H W).
Proof.
  unfold pixels, tabulate.
  assert (forall n i0,
             NoDup (concat (map (fun i => map (pair i) (seq 0 W)) (seq i0 n)))
             /\ forall p, p ∈ concat (map (fun i => map (pair i) (seq 0 W)) (seq i0 n)) ->
                          (i0 <= fst p)%nat) as Hgen.
  { induction n as [|n IH]; intros i0; simpl.
    - split; [constructor|]. intros p Hp. inversion Hp.
    - destruct (IH (S i0)) as [IH1 IH2]. split.
      + apply NoDup_app. split; [|split; [|exact IH1]].
        * apply (NoDup_fmap_2 (pair i0)), NoDup_seq.
        * intros p Hp Hq. apply list_elem_of_fmap in Hp as (j & -> & _).
          apply IH2 in Hq. simpl in Hq. lia.
      + intros p Hp. apply elem_of_app in Hp as [Hp|Hp].
        * apply list_elem_of_fmap in Hp as (j & -> & _). simpl. lia.
        * apply IH2 in Hp. lia. }
  apply Hgen.
Qed.

Lemma py_index_capacity (N : nat) (click_indx : Z) (is_positive : bool) :
  (0 < click_indx <= Z.of_nat (N / 2))%Z ->
  exists slot, py_index N (slot_index (N / 2) click_indx is_positive) = Ok slot.
Proof.
  intros Hk. eexists. apply py_index_nonneg.
  pose proof (Nat.div_mod_eq N 2). unfold slot_index. destruct is_positive; lia.
Qed.

Lemma next_points_returns dt thr N samples :
  forall i click_indx (points : list pointset) g,
    (0 < click_indx <= Z.of_nat (N / 2))%Z ->
    (i + length samples <= length points)%nat ->
    Forall (fun ps => length ps = N) points ->
    returns (next_points dt thr i samples (N / 2) click_indx points g).
Proof.
  induction samples as [|[pm gm] samples IH]; intros i k points g Hk Hlen Hrect.
  - eexists. reflexivity.
  - cbn [next_points].
    destruct (next_click dt thr (length pm) (length (hd [] pm)) pm gm g) as [click g1].
    cbn [length] in Hlen. destruct click as [[pos coords]|].
    + destruct (lookup_lt_is_Some_2 points i) as [ps Hps]; [lia|].
      assert (length ps = N) as HN by (rewrite Forall_lookup in Hrect; eauto).
      destruct (py_index_capacity N k pos Hk) as [slot Hslot].
      erewrite write_click_Ok; [|exact Hps|rewrite HN; exact Hslot].
      cbn [mbind result_bind]. apply IH; [exact Hk|rewrite length_insert; lia|].
      apply Forall_insert; [exact Hrect|]. rewrite length_insert. exact HN.
    + cbn [mbind result_bind]. apply IH; [exact Hk|lia|exact Hrect].
Qed.

(** C1. On a batch of [B] samples of [H+1] by [W+1] pixels,
    [get_next_points] computes what the algorithm of the specification
    computes: ground truth binarized at 0.5, false-negative and
    false-positive masks against the threshold, one pixel of zero padding,
    distance transform, crop, polarity of the larger maximum (negative on a
    tie), inner region beyond half the winning maximum, one pixel of the
    region drawn by [randint(0, len)].  The draws below the size of the
    region select its pixels one to one; and within capacity the call
    returns. *)
Theorem get_next_points_follows_spec :
  forall dt thr B C C' H W (pred gt : tensor4 Q) (points : list pointset)
         (click_indx : Z) (g : RNG),
    shape_preserving dt ->
    shape4 B (S C) (S H) (S W) pred ->
    shape4 B (S C') (S H) (S W) gt ->
    (1 <= click_indx)%Z ->
    ClickSim.get_next_points dt pred gt points click_indx thr g
    = ClickSpec.get_next_points dt thr pred gt points click_indx g
    /\ (forall pm gm g0,
          let R := region dt thr (S H) (S W) pm gm in
          NoDup R
          /\ (R = [] -> next_click dt thr (S H) (S W) pm gm g0 = (None, g0))
          /\ (R <> [] ->
              exists p, R !! (next_raw g0 mod length R)%nat = Some p
                        /\ next_click dt thr (S H) (S W) pm gm g0
                           = (Some (polarity dt thr (S H) (S W) pm gm, p), advance g0)))
    /\ (length points = B ->
        Forall (fun ps => length ps = size1 points) points ->
        (click_indx <= Z.of_nat (size1 points / 2))%Z ->
        returns (ClickSim.get_next_points dt pred gt points click_indx thr g)).
Proof.
  intros dt thr B C C' H W pred gt points k g Hdt Hp Hg Hk.
  destruct (channel0_shape _ _ _ _ _ Hp) as [Cp Sp].
  destruct (channel0_shape _ _ _ _ _ Hg) as [Cg Sg].
  destruct (masks_as_map _ _ _ thr _ _ Sp Sg) as [Mn Mp].
  assert (ClickSim.get_next_points dt pred gt points k thr g
          = ClickSpec.get_next_points dt thr pred gt points k g) as Heq.
  { erewrite get_next_points_fold; [|lia|exact Cp|exact Cg|exact Mn|exact Mp].
    rewrite !map_map, zip_map_diag. unfold ClickSpec.get_next_points.
    apply (click_loop_spec dt thr H W); [exact Hdt|].
    apply Forall_lookup. intros i [pm gm] Hi.
    apply lookup_zip_with_Some in Hi as (x & y & [= <- <-] & Hx & Hy).
    destruct Sp as [_ Sp], Sg as [_ Sg]. rewrite Forall_lookup in Sp, Sg.
    split; [eapply Sp|eapply Sg]; eassumption. }
  split; [exact Heq|]. split.
  - intros pm gm g0 R. split; [apply NoDup_filter, NoDup_pixels|].
    unfold next_click. fold R. split.
    + intros ->. reflexivity.
    + intros Hne. destruct R as [|p0 rest] eqn:ER; [congruence|].
      destruct (lookup_lt_is_Some_2 (p0 :: rest) (next_raw g0 mod length (p0 :: rest)))
        as [p Ep].
      { apply Nat.mod_upper_bound. discriminate. }
      exists p. split; [exact Ep|]. rewrite (nth_lookup_Some _ _ p0 _ Ep). reflexivity.
  - intros HB Hrect Hcap. rewrite Heq. unfold ClickSpec.get_next_points.
    apply next_points_returns; [lia| |exact Hrect].
    rewrite length_zip_with, !length_map.
    destruct Hp as [-> _], Hg as [Hg _]. lia.
Qed.

(** ** The number of simulated rounds *)

Lemma random_randint_range (hi : Z) (raw : nat) (n : Z) :
  random_randint 0 hi raw = Ok n ->
  (0 <= n <= hi)%Z /\ n = (Z.of_nat raw mod (hi + 1))%Z.
Proof.
  unfold random_randint. destruct (hi <? 0)%Z eqn:E; [discriminate|].
  apply Z.ltb_ge in E. intros [= <-].
  rewrite Z.sub_0_r, Z.add_0_l.
  pose proof (Z.mod_pos_bound (Z.of_nat raw) (hi + 1)). split; [lia|reflexivity].
Qed.

Lemma random_randint_onto (hi n : Z) :
  (0 <= n <= hi)%Z -> random_randint 0 hi (Z.to_nat n) = Ok n.
Proof.
  intros Hn. unfold random_randint.
  destruct (hi <? 0)%Z eqn:E; [apply Z.ltb_lt in E; lia|].
  rewrite Z.sub_0_r, Z.add_0_l, Z2Nat.id, Z.mod_small by lia. reflexivity.
Qed.

Lemma trainer_sim_loop_rounds dt sigmoid tr validation image orig_gt gt rounds :
  forall st st',
    ISTrainer.sim_loop dt sigmoid tr validation image orig_gt gt rounds st = Ok st' ->
    ISTrainer.rounds_run st' = ISTrainer.rounds_run st ++ rounds.
Proof.
  induction rounds as [|k rounds IH]; intros st st' H.
  - injection H as <-. rewrite app_nil_r. reflexivity.
  - cbn [ISTrainer.sim_loop] in H.
    destruct (ISTrainer.sim_round dt sigmoid tr validation image orig_gt gt st k)
      as [st1|] eqn:E; [|discriminate].
    cbn in H. rewrite (IH _ _ H).
    unfold ISTrainer.sim_round in E.
    destruct (match ISTrainer.click_models tr with
              | Some ms => _ | None => _ end) as [eval_model mode].
    destruct (ClickSim.get_next_points _ _ _ _ _ _ _) as [[pts g]|]; [|discriminate].
    injection E as <-. cbn. rewrite <- app_assoc. reflexivity.
Qed.

Lemma trainer_drop_rounds tr st :
  ISTrainer.rounds_run (ISTrainer.drop_prev_mask tr st) = ISTrainer.rounds_run st.
Proof.
  unfold ISTrainer.drop_prev_mask.
  destruct (_ && _ && _); [|reflexivity].
  destruct (ISTrainer.np_random_random_n _ _). reflexivity.
Qed.

Section FintunerRounds.

Context (dt : list (list Z) -> list (list Q)) (sigmoid : Q -> Q) {ZoomIn : Type}
        (ZoomIn_new : ZoomIn)
        (set_probs : ZoomIn -> list (list (list Q)) -> ZoomIn)
        (transform : ZoomIn -> list (list (list Q)) -> list (list ISFintuner.Click) ->
                     list (list (list Q)) * list (list ISFintuner.Click) * ZoomIn)
        (inv_transform : ZoomIn -> list (list (list Q)) -> list (list (list Q))).

Lemma fintuner_sim_loop_rounds ft validation image gt orig_gt rounds :
  forall st st',
    ISFintuner.sim_loop dt sigmoid ZoomIn set_probs transform inv_transform
      ft validation image gt orig_gt rounds st = Ok st' ->
    ISFintuner.rounds_run ZoomIn st' = ISFintuner.rounds_run ZoomIn st ++ rounds.
Proof.
  induction rounds as [|k rounds IH]; intros st st' H.
  - injection H as <-. rewrite app_nil_r. reflexivity.
  - cbn [ISFintuner.sim_loop] in H.
    destruct (ISFintuner.sim_round dt sigmoid ZoomIn set_probs transform inv_transform
                ft validation image gt orig_gt st k) as [st1|] eqn:E; [|discriminate].
    cbn in H. rewrite (IH _ _ H).
    unfold ISFintuner.sim_round in E.
    destruct (ISFintuner.prepare_seg_net_input _ _ _ _ _ _ _ _ _) as [si|];
      [|discriminate].
    cbn in E.
    destruct (ISFintuner.prepare_int_net_input _ _ _ _ _ _ _ _ _ _) as [[[prev pts] g]|];
      [|discriminate].
    injection E as <-. cbn. rewrite <- app_assoc. reflexivity.
Qed.

End FintunerRounds.

(** C4. In both trainers [num_iters] is one draw of [random.randint(0,
    max_num_next_clicks)] for the whole batch: it lies in
    [0, max_num_next_clicks], every value of the range is drawn by equally
    many raw draws, the simulated rounds are exactly those of
    [range(num_iters)], and with a ceiling of 0 no round runs and the final
    pass sees the initial points and the zero mask. *)
Theorem num_iters_drawn_once_and_bounded :
  forall dt sigmoid (ZoomIn : Type) (ZoomIn_new : ZoomIn) set_probs transform inv_transform,
    (forall hi raw n,
        random_randint 0 hi raw = Ok n ->
        (0 <= n <= hi)%Z /\ n = (Z.of_nat raw mod (hi + 1))%Z)
    /\ (forall hi n, (0 <= n <= hi)%Z -> random_randint 0 hi (Z.to_nat n) = Ok n)
    /\ (forall tr batch validation training raw g r,
          ISTrainer.batch_forward dt sigmoid tr batch validation training raw g = Ok r ->
          let n := ISTrainer.num_iters r in
          random_randint 0 (ISTrainer.max_num_next_clicks tr) raw = Ok n
          /\ (0 <= n <= ISTrainer.max_num_next_clicks tr)%Z
          /\ ISTrainer.rounds_run (ISTrainer.final_state r) = seq 0 (Z.to_nat n)
          /\ (ISTrainer.max_num_next_clicks tr = 0%Z ->
              ISTrainer.rounds_run (ISTrainer.final_state r) = []
              /\ ISTrainer.batch_points r = ISTrainer.points batch
              /\ ISTrainer.output r
                 = ISTrainer.forward (ISTrainer.net tr) training
                     (ISTrainer.net_input_of (ISTrainer.net tr) (ISTrainer.images batch)
                        (ISTrainer.zeros_first_channel (ISTrainer.images batch)))
                     (ISTrainer.points batch) (ISTrainer.gt_instances batch)))
    /\ (forall ft batch validation training raw g r,
          ISFintuner.batch_forward dt sigmoid ZoomIn ZoomIn_new set_probs transform
            inv_transform ft batch validation training raw g = Ok r ->
          let n := ISFintuner.num_iters ZoomIn r in
          random_randint 0 (ISFintuner.max_num_next_clicks ft) raw = Ok n
          /\ (0 <= n <= ISFintuner.max_num_next_clicks ft)%Z
          /\ ISFintuner.rounds_run ZoomIn (ISFintuner.final_state ZoomIn r)
             = seq 0 (Z.to_nat n)
          /\ (ISFintuner.max_num_next_clicks ft = 0%Z ->
              ISFintuner.rounds_run ZoomIn (ISFintuner.final_state ZoomIn r) = []
              /\ ISFintuner.int_points ZoomIn (ISFintuner.final_state ZoomIn r)
                 = ISTrainer.points batch
              /\ ISFintuner.prev_output ZoomIn (ISFintuner.final_state ZoomIn r)
                 = ISTrainer.zeros_first_channel (ISTrainer.images batch))).
Proof.
  intros dt sigmoid ZoomIn zn sp tf itf.
  split; [exact random_randint_range|]. split; [exact random_randint_onto|]. split.
  - intros tr batch validation training raw g r H n.
    unfold ISTrainer.batch_forward in H.
    destruct (random_randint 0 (ISTrainer.max_num_next_clicks tr) raw) as [k|] eqn:Ek;
      [|discriminate].
    cbn [mbind result_bind] in H.
    destruct (ISTrainer.sim_loop _ _ _ _ _ _ _ _ _) as [st|] eqn:Es; [|discriminate].
    cbn [mbind result_bind] in H.
    destruct (ISTrainer.compose_losses _ _ _ _ _) as [[l lg]|]; [|discriminate].
    injection H as <-. subst n. cbn.
    destruct (random_randint_range _ _ _ Ek) as [Hr _].
    pose proof (trainer_sim_loop_rounds _ _ _ _ _ _ _ _ _ _ Es) as Hrounds.
    cbn in Hrounds.
    split; [reflexivity|]. split; [exact Hr|].
    split; [rewrite trainer_drop_rounds; exact Hrounds|].
    intros Hmax. assert (k = 0%Z) as -> by lia.
    cbn in Es. injection Es as <-.
    unfold ISTrainer.drop_prev_mask. cbn [ISTrainer.last_click_indx].
    rewrite (bool_decide_eq_false_2 (None <> None)) by congruence.
    rewrite andb_false_r. cbn. repeat split.
  - intros ft batch validation training raw g r H n.
    unfold ISFintuner.batch_forward in H.
    destruct (random_randint 0 (ISFintuner.max_num_next_clicks ft) raw) as [k|] eqn:Ek;
      [|discriminate].
    cbn [mbind result_bind] in H.
    destruct (ISFintuner.sim_loop _ _ _ _ _ _ _ _ _ _ _ _ _) as [st|] eqn:Es;
      [|discriminate].
    cbn [mbind result_bind] in H.
    destruct (ISFintuner.prepare_seg_net_input _ _ _ _ _ _ _ _ _) as [si|]; [|discriminate].
    cbn [mbind result_bind] in H.
    destruct (ISFintuner.compose_losses _ _ _ _ _) as [[l lg]|]; [|discriminate].
    injection H as <-. subst n. cbn.
    destruct (random_randint_range _ _ _ Ek) as [Hr _].
    pose proof Es as Hrounds. apply fintuner_sim_loop_rounds in Hrounds.
    cbn in Hrounds.
    split; [reflexivity|]. split; [exact Hr|]. split; [exact Hrounds|].
    intros Hmax. assert (k = 0%Z) as -> by lia.
    cbn in Es. injection Es as <-. cbn. repeat split.
Qed.

(** ** Loss composition *)

Lemma get_weight_off cfg name :
  weight_off cfg name -> exists w, Loss.get_weight cfg name = Ok w /\ (w <= 0)%Q.
Proof.
  unfold Loss.get_weight. intros [->|(w & -> & Hw)].
  - exists 0%Q. split; [reflexivity|apply Qle_refl].
  - exists w. split; [reflexivity|exact Hw].
Qed.

Lemma add_loss_skip loss_cfg val_loss_cfg name total log validation thunk plw :
  weight_off (active_cfg loss_cfg val_loss_cfg validation) name ->
  ISTrainer.add_loss loss_cfg val_loss_cfg name total log validation thunk plw = Ok (total, log).
Proof.
  intros Hoff. apply get_weight_off in Hoff as (w & Hw & Hle).
  unfold ISTrainer.add_loss. fold (active_cfg loss_cfg val_loss_cfg validation).
  rewrite Hw. cbn [mbind result_bind].
  apply Qltb_nlt in Hle. rewrite Hle. reflexivity.
Qed.

Lemma add_loss_ft_skip loss_cfg val_loss_cfg name total log validation thunk :
  weight_off (active_cfg loss_cfg val_loss_cfg validation) name ->
  ISFintuner.add_loss loss_cfg val_loss_cfg name total log validation thunk = Ok (total, log).
Proof.
  intros Hoff. apply get_weight_off in Hoff as (w & Hw & Hle).
  unfold ISFintuner.add_loss. fold (active_cfg loss_cfg val_loss_cfg validation).
  rewrite Hw. cbn [mbind result_bind].
  apply Qltb_nlt in Hle. rewrite Hle. reflexivity.
Qed.

Lemma add_loss_apply loss_cfg val_loss_cfg name total log validation thunk w f :
  let cfg := active_cfg loss_cfg val_loss_cfg validation in
  cfg !! (name +:+ "_weight")%string = Some (Loss.Weight w) -> (0 < w)%Q ->
  cfg !! name = Some (Loss.Criterion f) ->
  ISTrainer.add_loss loss_cfg val_loss_cfg name total log validation thunk None
  = Ok ((total + w * Loss.torch_mean (f (fst (thunk tt)) (snd (thunk tt))))%Q,
        <[name := Loss.torch_mean (f (fst (thunk tt)) (snd (thunk tt)))]> log).
Proof.
  intros cfg Hw Hpos Hf. unfold ISTrainer.add_loss, Loss.get_weight.
  fold (active_cfg loss_cfg val_loss_cfg validation). fold cfg.
  rewrite Hw. cbn [mbind result_bind].
  apply Qltb_lt in Hpos. rewrite Hpos, Hf. destruct (thunk tt). reflexivity.
Qed.

Lemma add_loss_ft_apply loss_cfg val_loss_cfg name total log validation thunk w f :
  let cfg := active_cfg loss_cfg val_loss_cfg validation in
  cfg !! (name +:+ "_weight")%string = Some (Loss.Weight w) -> (0 < w)%Q ->
  cfg !! name = Some (Loss.Criterion f) ->
  ISFintuner.add_loss loss_cfg val_loss_cfg name total log validation thunk
  = Ok ((total + w * Loss.torch_mean (f (fst (thunk tt)) (snd (thunk tt))))%Q,
        <[name := Loss.torch_mean (f (fst (thunk tt)) (snd (thunk tt)))]> log).
Proof.
  intros cfg Hw Hpos Hf. unfold ISFintuner.add_loss, Loss.get_weight.
  fold (active_cfg loss_cfg val_loss_cfg validation). fold cfg.
  rewrite Hw. cbn [mbind result_bind].
  apply Qltb_lt in Hpos. rewrite Hpos, Hf. destruct (thunk tt). reflexivity.
Qed.

(** C5. A term whose weight is absent or not positive leaves the running
    total and the logging dict as they were; when one of the composed terms
    has a positive weight and a criterion and the others are off, the
    composed loss is [weight * mean(criterion(inputs))] and the logging
    dict holds the unweighted mean under the term's name. *)
Theorem add_loss_composition :
  forall loss_cfg val_loss_cfg validation,
    let cfg := active_cfg loss_cfg val_loss_cfg validation in
    (forall name total log thunk plw,
        weight_off cfg name ->
        ISTrainer.add_loss loss_cfg val_loss_cfg name total log validation thunk plw
        = Ok (total, log)
        /\ ISFintuner.add_loss loss_cfg val_loss_cfg name total log validation thunk
           = Ok (total, log))
    /\ (forall t w f output gt,
          t ∈ trainer_terms ->
          cfg !! (t +:+ "_weight")%string = Some (Loss.Weight w) -> (0 < w)%Q ->
          cfg !! t = Some (Loss.Criterion f) ->
          (forall t', t' ∈ trainer_terms -> t' <> t -> weight_off cfg t') ->
          let m := Loss.torch_mean (f (fst (term_inputs output gt t))
                                      (snd (term_inputs output gt t))) in
          exists total,
            ISTrainer.compose_losses loss_cfg val_loss_cfg validation output gt
            = Ok (total, {[ t := m ]})
            /\ (total == w * m)%Q)
    /\ (forall w f output seg_gt,
          cfg !! "instance_loss_weight"%string = Some (Loss.Weight w) -> (0 < w)%Q ->
          cfg !! "instance_loss"%string = Some (Loss.Criterion f) ->
          let m := Loss.torch_mean (f (Loss.instances output) seg_gt) in
          exists total,
            ISFintuner.compose_losses loss_cfg val_loss_cfg validation output seg_gt
            = Ok (total, {[ "instance_loss"%string := m ]})
            /\ (total == w * m)%Q).
Proof.
  intros loss_cfg val_loss_cfg validation cfg. split; [|split].
  - intros name total log thunk plw Hoff. split.
    + apply add_loss_skip. exact Hoff.
    + apply add_loss_ft_skip. exact Hoff.
  - intros t w f output gt Ht Hw Hpos Hf Hothers m.
    assert (forall t', t' ∈ trainer_terms -> t' <> t ->
              forall total log thunk,
                ISTrainer.add_loss loss_cfg val_loss_cfg t' total log validation thunk None
                = Ok (total, log)) as Hskip.
    { intros t' Ht' Hne total log thunk. apply add_loss_skip. apply Hothers; assumption. }
    unfold trainer_terms in *. unfold ISTrainer.compose_losses.
    repeat (apply elem_of_cons in Ht as [->|Ht]); [| | | |inversion Ht].
    all: repeat first
           [ rewrite Hskip by (first [set_solver | discriminate])
           | rewrite (add_loss_apply _ _ _ _ _ _ _ w f Hw Hpos Hf)
           | progress cbn [mbind result_bind] ].
    all: eexists; split; [rewrite insert_empty; reflexivity|]; apply Qplus_0_l.
  - intros w f output seg_gt Hw Hpos Hf m. unfold ISFintuner.compose_losses.
    rewrite (add_loss_ft_apply _ _ "instance_loss" _ _ _ _ w f Hw Hpos Hf).
    eexists. split; [rewrite insert_empty; reflexivity|]. apply Qplus_0_l.
Qed.

(** C6. Given a numeric (or absent) weight entry, [add_loss] raises exactly
    when the weight is positive and no criterion is stored under the
    term's name; with a weight that is not positive it returns without
    looking the criterion up. *)
Theorem add_loss_raises_iff :
  forall loss_cfg val_loss_cfg validation name total log thunk plw w,
    let cfg := active_cfg loss_cfg val_loss_cfg validation in
    Loss.get_weight cfg name = Ok w ->
    (raises (ISTrainer.add_loss loss_cfg val_loss_cfg name total log validation thunk plw)
     <-> (0 < w)%Q /\ forall f, cfg !! name <> Some (Loss.Criterion f))
    /\ (raises (ISFintuner.add_loss loss_cfg val_loss_cfg name total log validation thunk)
        <-> (0 < w)%Q /\ forall f, cfg !! name <> Some (Loss.Criterion f))
    /\ ((w <= 0)%Q ->
        ISTrainer.add_loss loss_cfg val_loss_cfg name total log validation thunk plw
        = Ok (total, log)
        /\ ISFintuner.add_loss loss_cfg val_loss_cfg name total log validation thunk
           = Ok (total, log)).
Proof.
  intros loss_cfg val_loss_cfg validation name total log thunk plw w cfg Hw.
  unfold ISTrainer.add_loss, ISFintuner.add_loss.
  fold (active_cfg loss_cfg val_loss_cfg validation). fold cfg.
  rewrite Hw. cbn [mbind result_bind].
  assert (forall P : Prop, (0 < w)%Q -> (w <= 0)%Q -> P) as Habs.
  { intros P H1 H2. exfalso. apply (Qlt_irrefl 0). eapply Qlt_le_trans; eassumption. }
  destruct (Qltb 0 w) eqn:E; [apply Qltb_lt in E|apply Qltb_nlt in E].
  - destruct (cfg !! name) as [[w'|f]|] eqn:Ec; [| destruct (thunk tt) as [x y] |].
    all: split; [split|split; [split|]].
    all: try solve
           [ intros [e He]; discriminate
           | intros _; eexists; reflexivity
           | intros [_ Hno]; exfalso; eapply Hno; reflexivity
           | intros Hle; eapply Habs; eassumption
           | intros _; split; [exact E|congruence] ].
  - split; [split|split; [split|]].
    all: try solve
           [ intros [e He]; discriminate
           | intros [Hpos _]; eapply Habs; eassumption
           | intros _; split; reflexivity ].
Qed.

(** ** Checkpoints *)

Import Checkpoint.

Lemma load_state_dict_Ok model sd :
  dom sd = dom (parameters model) ->
  map_Forall (shape_matches (parameters model)) sd ->
  load_state_dict model sd = Ok {| parameters := sd |}.
Proof.
  intros Hd Hs. unfold load_state_dict.
  rewrite bool_decide_eq_true_2 by (split; assumption). reflexivity.
Qed.

Lemma load_state_dict_inv model sd model' :
  load_state_dict model sd = Ok model' ->
  parameters model' = sd /\ dom sd = dom (parameters model)
  /\ map_Forall (shape_matches (parameters model)) sd.
Proof.
  unfold load_state_dict. destruct (bool_decide _) eqn:E; [|discriminate].
  apply bool_decide_eq_true in E as [Hd Hs]. intros [= <-]. repeat split; assumption.
Qed.

Lemma load_weights_mismatch fs model path sd k t t' :
  torch_load_state_dict fs path = Ok sd ->
  sd !! k = Some t -> parameters model !! k = Some t' -> shape t <> shape t' ->
  load_weights fs model path = Raise RuntimeError.
Proof.
  intros Hload Hk Hk' Hne. unfold load_weights. rewrite Hload. cbn [mbind result_bind].
  unfold load_state_dict. rewrite bool_decide_eq_false_2; [reflexivity|].
  intros [_ Hall]. specialize (Hall k t).
  unfold dict_update in Hall. rewrite (lookup_union_Some_l _ _ _ _ Hk) in Hall.
  specialize (Hall eq_refl). unfold shape_matches in Hall.
  rewrite Hk' in Hall. cbn in Hall. congruence.
Qed.

(** C8. [load_weights] merges the checkpoint's [state_dict] into the live
    parameter mapping by key: a key of the checkpoint carries the
    checkpoint's tensor, a live parameter absent from the checkpoint keeps
    its tensor, a successful load installs exactly the merged mapping, and
    the load fails when a tensor of the checkpoint has another shape than
    the live parameter of that name. *)
Theorem load_weights_merges :
  forall fs model path sd,
    torch_load_state_dict fs path = Ok sd ->
    let merged := dict_update (parameters model) sd in
    (forall k t, sd !! k = Some t -> merged !! k = Some t)
    /\ (forall k, sd !! k = None -> merged !! k = parameters model !! k)
    /\ (forall model', load_weights fs model path = Ok model' ->
                       parameters model' = merged)
    /\ ((exists k t t', sd !! k = Some t /\ parameters model !! k = Some t'
                        /\ shape t <> shape t') ->
        load_weights fs model path = Raise RuntimeError)
    /\ (dom sd ⊆ dom (parameters model) ->
        (forall k t t', sd !! k = Some t -> parameters model !! k = Some t' ->
                        shape t = shape t') ->
        load_weights fs model path = Ok {| parameters := merged |}).
Proof.
  intros fs model path sd Hload merged.
  assert (forall k t, sd !! k = Some t -> merged !! k = Some t) as H1.
  { intros k t Hk. unfold merged, dict_update. apply lookup_union_Some_l. exact Hk. }
  assert (forall k, sd !! k = None -> merged !! k = parameters model !! k) as H2.
  { intros k Hk. unfold merged, dict_update. apply lookup_union_r. exact Hk. }
  assert (load_weights fs model path = load_state_dict model merged) as Hlw.
  { unfold load_weights. rewrite Hload. reflexivity. }
  split; [exact H1|]. split; [exact H2|]. split; [|split].
  - intros model' H. rewrite Hlw in H. apply load_state_dict_inv in H as [Hm _]. exact Hm.
  - intros (k & t & t' & Hk & Hk' & Hne). eapply load_weights_mismatch; eauto.
  - intros Hsub Hshape. rewrite Hlw. apply load_state_dict_Ok.
    + unfold merged, dict_update. rewrite dom_union_L.
      apply set_eq. intros k. rewrite elem_of_union. specialize (Hsub k). tauto.
    + intros k t Hk. unfold shape_matches.
      destruct (sd !! k) as [t0|] eqn:Es.
      * rewrite (H1 k t0 Es) in Hk. injection Hk as <-.
        assert (is_Some (parameters model !! k)) as [t' Ht'].
        { apply elem_of_dom. apply Hsub. apply elem_of_dom. eauto. }
        rewrite Ht'. cbn. f_equal. symmetry. eapply Hshape; eauto.
      * rewrite (H2 k Es) in Hk. rewrite Hk. reflexivity.
Qed.

(** C9, as stated, fails: with [cfg.weights] naming an existing file and
    nothing to resume, [_load_weights] still raises when the load itself
    fails, here on a tensor of another shape. *)
Lemma load_failure_is_a_third_situation :
  weights cfg_weights = Some "w.pth"%string
  /\ isfile fs_mismatch "w.pth" = true
  /\ _load_weights fs_mismatch cfg_weights net_small = Raise RuntimeError.
Proof. vm_compute. repeat split.
Qed.

Lemma _load_weights_missing_file fs cfg net w :
  weights cfg = Some w -> isfile fs w = false ->
  _load_weights fs cfg net = Raise RuntimeError.
Proof. intros Hw Hf. unfold _load_weights. rewrite Hw, Hf. reflexivity. Qed.

Lemma _load_weights_ambiguous fs cfg net :
  weights cfg = None -> is_Some (resume_exp cfg) ->
  length (glob fs (CHECKPOINTS_PATH cfg) (resume_prefix cfg)) <> 1%nat ->
  _load_weights fs cfg net = Raise AssertionError.
Proof.
  intros Hw [r Hr] Hlen. unfold _load_weights. rewrite Hw, Hr.
  destruct (glob fs _ _) as [|p [|q rest]]; [reflexivity| |reflexivity].
  exfalso. apply Hlen. reflexivity.
Qed.

Lemma _load_weights_selected fs cfg net p :
  selected_checkpoint fs cfg = Some p ->
  _load_weights fs cfg net
  = (net' ← load_weights fs net p; Ok (clear_weights cfg, net')).
Proof.
  destruct cfg as [wts rexp pfx dir]. unfold selected_checkpoint, _load_weights, clear_weights.
  cbn [weights resume_exp resume_prefix CHECKPOINTS_PATH].
  destruct wts as [w|].
  - destruct (isfile fs w); [|discriminate]. intros [= <-]. reflexivity.
  - destruct rexp as [r|]; [|discriminate].
    destruct (glob fs dir pfx) as [|q [|q' rest]]; try discriminate.
    intros [= <-]. reflexivity.
Qed.

Lemma _load_weights_nothing fs cfg net :
  weights cfg = None -> resume_exp cfg = None ->
  _load_weights fs cfg net = Ok (cfg, net).
Proof. intros Hw Hr. unfold _load_weights. rewrite Hw, Hr. reflexivity. Qed.

Lemma selected_or_not fs cfg :
  (exists w, weights cfg = Some w /\ isfile fs w = false)
  \/ (weights cfg = None /\ is_Some (resume_exp cfg)
      /\ length (glob fs (CHECKPOINTS_PATH cfg) (resume_prefix cfg)) <> 1%nat)
  \/ (exists p, selected_checkpoint fs cfg = Some p)
  \/ (weights cfg = None /\ resume_exp cfg = None).
Proof.
  unfold selected_checkpoint. destruct (weights cfg) as [w|].
  - destruct (isfile fs w) eqn:Ef; [right; right; left; eauto|left; eauto].
  - destruct (resume_exp cfg) as [r|]; [|right; right; right; split; reflexivity].
    destruct (glob fs _ _) as [|q [|q' rest]].
    + right. left. repeat split; [eauto|discriminate].
    + right. right. left. eauto.
    + right. left. repeat split; [eauto|discriminate].
Qed.

(** C9, amended. [_load_weights] raises exactly when [cfg.weights] is set
    but names no file (at once, whatever [resume_exp] says), when
    [cfg.weights] is unset, [resume_exp] is set and the checkpoints matching
    the prefix are not exactly one, or when the load of the selected
    checkpoint raises; otherwise it returns the model, loaded or, with
    neither option set, untouched. *)
Theorem _load_weights_failures :
  forall fs cfg net,
    (raises (_load_weights fs cfg net) <->
       (exists w, weights cfg = Some w /\ isfile fs w = false)
       \/ (weights cfg = None /\ is_Some (resume_exp cfg)
           /\ length (glob fs (CHECKPOINTS_PATH cfg) (resume_prefix cfg)) <> 1%nat)
       \/ (exists p, selected_checkpoint fs cfg = Some p /\ raises (load_weights fs net p)))
    /\ (forall w, weights cfg = Some w -> isfile fs w = false ->
                  _load_weights fs cfg net = Raise RuntimeError)
    /\ (weights cfg = None -> is_Some (resume_exp cfg) ->
        length (glob fs (CHECKPOINTS_PATH cfg) (resume_prefix cfg)) <> 1%nat ->
        _load_weights fs cfg net = Raise AssertionError)
    /\ (forall p net', selected_checkpoint fs cfg = Some p ->
                       load_weights fs net p = Ok net' ->
                       _load_weights fs cfg net = Ok (clear_weights cfg, net'))
    /\ (weights cfg = None -> resume_exp cfg = None ->
        _load_weights fs cfg net = Ok (cfg, net)).
Proof.
  intros fs cfg net. split; [|split; [|split; [|split]]].
  - split.
    + intros Hraise.
      destruct (selected_or_not fs cfg) as [H1|[H2|[[p Hp]|[Hw Hr]]]].
      * left. exact H1.
      * right. left. exact H2.
      * right. right. exists p. split; [exact Hp|].
        rewrite (_load_weights_selected _ _ _ _ Hp) in Hraise.
        destruct (load_weights fs net p) as [net'|e]; [|eexists; reflexivity].
        destruct Hraise as [e He]. discriminate.
      * rewrite (_load_weights_nothing _ _ _ Hw Hr) in Hraise.
        destruct Hraise as [e He]. discriminate.
    + intros [(w & Hw & Hf)|[(Hw & Hr & Hlen)|(p & Hp & [e He])]].
      * rewrite (_load_weights_missing_file _ _ _ _ Hw Hf). eexists. reflexivity.
      * rewrite (_load_weights_ambiguous _ _ _ Hw Hr Hlen). eexists. reflexivity.
      * rewrite (_load_weights_selected _ _ _ _ Hp), He. eexists. reflexivity.
  - intros w. apply _load_weights_missing_file.
  - apply _load_weights_ambiguous.
  - intros p net' Hp Hl. rewrite (_load_weights_selected _ _ _ _ Hp), Hl. reflexivity.
  - apply _load_weights_nothing.
Qed.

(** ** Clicks forwarded to the zoom transform *)

Lemma filter_insert_dropped {A} (P : A -> Prop) `{forall x, Decision (P x)}
    (l : list A) i x y :
  l !! i = Some x -> ~ P x -> ~ P y -> filter P (<[i := y]> l) = filter P l.
Proof.
  revert i. induction l as [|a l IH]; intros i Hi Hx Hy; [discriminate|].
  destruct i as [|i]; cbn in Hi.
  - injection Hi as ->. change (<[0%nat := y]> (x :: l)) with (y :: l).
    rewrite !filter_cons_False by assumption. reflexivity.
  - change (<[S i := y]> (a :: l)) with (a :: <[i := y]> l).
    rewrite !filter_cons. rewrite (IH i Hi Hx Hy). reflexivity.
Qed.

Lemma mark_halves_lookup (ps : pointset) i :
  ISFintuner.mark_halves ps !! i
  = set_comp 2 (if (i <? length ps / 2)%nat then 999%Q else (-999)%Q) <$> ps !! i.
Proof. unfold ISFintuner.mark_halves. rewrite list_lookup_imap. reflexivity. Qed.

Lemma mark_halves_insert (ps : pointset) i p :
  ISFintuner.mark_halves (<[i := p]> ps)
  = <[i := set_comp 2 (if (i <? length ps / 2)%nat then 999%Q else (-999)%Q) p]>
      (ISFintuner.mark_halves ps).
Proof.
  apply list_eq. intros j. rewrite mark_halves_lookup, length_insert.
  destruct (decide (i = j)) as [<-|Hne].
  - destruct (decide (i < length ps)%nat) as [Hlt|Hge].
    + rewrite !list_lookup_insert_eq; [reflexivity| |exact Hlt].
      unfold ISFintuner.mark_halves. rewrite length_imap. exact Hlt.
    + rewrite !list_insert_ge; [symmetry; apply mark_halves_lookup| |lia].
      unfold ISFintuner.mark_halves. rewrite length_imap. lia.
  - rewrite !list_lookup_insert_ne by exact Hne. symmetry. apply mark_halves_lookup.
Qed.

Lemma set_comp2_row v (p : point) : fst (fst (set_comp 2 v p)) = fst (fst p).
Proof. destruct p as [[x y] z]. reflexivity. Qed.

(** C10. In the dual-network path a stored point becomes a click of the
    zoom transform only when its row coordinate is strictly positive: every
    click handed over has a positive row, and a point whose row is 0 is
    dropped exactly as the sentinel is, whatever its column and index. *)
Theorem row_zero_click_dropped :
  forall (ps : pointset),
    (forall c, c ∈ ISFintuner.clicks_list_of ps -> (0 < fst (ISFintuner.coords c))%Q)
    /\ (forall i row col idx,
          ps !! i = Some (row, col, idx) -> (row == 0)%Q ->
          ISFintuner.clicks_list_of ps
          = ISFintuner.clicks_list_of (<[i := sentinel]> ps))
    /\ length (ISFintuner.clicks_list_of ps)
       = length (filter (fun p : point => Qltb 0 (fst (fst p)) = true) ps).
Proof.
  intros ps. unfold ISFintuner.clicks_list_of, ISFintuner.clicks_of,
    ISFintuner.valid_points_list. split; [|split].
  - intros c Hc. apply list_elem_of_fmap in Hc as (p & -> & Hp).
    apply list_elem_of_filter in Hp as [Hp _]. cbn. apply Qltb_lt. exact Hp.
  - intros i row col idx Hi Hrow. f_equal.
    rewrite mark_halves_insert. symmetry.
    eapply filter_insert_dropped.
    + rewrite mark_halves_lookup, Hi. reflexivity.
    + rewrite set_comp2_row. cbn. intros Hlt. apply Qltb_lt in Hlt.
      rewrite Hrow in Hlt. discriminate.
    + rewrite set_comp2_row. cbn. discriminate.
  - rewrite length_map. unfold ISFintuner.mark_halves.
    generalize (length ps / 2)%nat as h. intros h.
    assert (forall (l : pointset) (f : nat -> point -> point),
               (forall i p, fst (fst (f i p)) = fst (fst p)) ->
               length (filter (fun p : point => Qltb 0 (fst (fst p)) = true) (imap f l))
               = length (filter (fun p : point => Qltb 0 (fst (fst p)) = true) l)) as Hgen.
    { induction l as [|p l IH]; intros f Hf; [reflexivity|]. cbn [imap].
      rewrite !filter_cons, Hf.
      destruct (decide (Qltb 0 (fst (fst p)) = true)); cbn [length];
        rewrite (IH (f ∘ S)) by (intros; apply Hf); reflexivity. }
    apply Hgen. intros i p. apply set_comp2_row.
Qed.

(** ** The reference distance transform meets the contract *)

Lemma cityblock_shape : shape_preserving cityblock_dt.
Proof.
  intros H W m [Hl Hr]. unfold cityblock_dt. split; [rewrite length_imap; exact Hl|].
  apply Forall_lookup. intros i r Hi.
  rewrite list_lookup_imap in Hi.
  destruct (m !! i) as [row|] eqn:Er; [|discriminate]. injection Hi as <-.
  rewrite length_imap. rewrite Forall_lookup in Hr. eapply Hr; eauto.
Qed.

Lemma cityblock_blank : zero_on_blank cityblock_dt.
Proof.
  intros m Hm. unfold cityblock_dt. apply Forall_lookup. intros i r Hi.
  rewrite list_lookup_imap in Hi.
  destruct (m !! i) as [row|] eqn:Er; [|discriminate]. injection Hi as <-.
  rewrite Forall_lookup in Hm. specialize (Hm i row Er).
  apply Forall_lookup. intros j d Hj. rewrite list_lookup_imap in Hj.
  destruct (row !! j) as [v|] eqn:Ev; [|discriminate]. injection Hj as <-.
  rewrite Forall_lookup in Hm. rewrite (Hm j v Ev). reflexivity.
Qed.

Lemma binarized_no_error thr (gm : list (list Q)) :
  (0 <= thr)%Q -> (thr < 1)%Q ->
  no_error_pixels thr (map (map (fun g => if Qltb (1 # 2) g then 1%Q else 0%Q)) gm) gm.
Proof.
  intros H0 H1 i j p g Hp Hg. rewrite map2_pixel, Hg in Hp. injection Hp as <-.
  split.
  - intros Hfg Hlt. apply Qltb_lt in Hfg. rewrite Hfg in Hlt.
    apply (Qlt_irrefl 1). eapply Qlt_trans; eassumption.
  - intros Hbg Hlt. destruct (Qltb (1 # 2) g) eqn:E.
    + apply Hbg. apply Qltb_lt. exact E.
    + apply (Qlt_irrefl 0). eapply Qle_lt_trans; eassumption.
Qed.

(** ** The statements at concrete inputs

    Each lemma applies one of the theorems above to the worked inputs. *)

Lemma get_next_points_follows_spec_witness :
  ClickSim.get_next_points cityblock_dt pred_none gt_one points_unset 1
    default_pred_thresh ramp
  = ClickSpec.get_next_points cityblock_dt default_pred_thresh pred_none gt_one
      points_unset 1 ramp.
Proof.
  apply (get_next_points_follows_spec cityblock_dt default_pred_thresh 1 0 0 3 3
           pred_none gt_one points_unset 1 ramp cityblock_shape).
  - repeat constructor.
  - repeat constructor.
  - lia.
Defined.

Lemma get_next_points_slots_witness :
  ClickSim.get_next_points cityblock_dt pred_none gt_one points_unset 1
    default_pred_thresh ramp
  = Ok ([[sentinel; click_point (1, 1)%nat 1; sentinel; sentinel]], advance ramp)
  /\ length [[sentinel; click_point (1, 1)%nat 1; sentinel; sentinel]]
     = length points_unset.
Proof.
  assert (ClickSim.get_next_points cityblock_dt pred_none gt_one points_unset 1
            default_pred_thresh ramp
          = Ok ([[sentinel; click_point (1, 1)%nat 1; sentinel; sentinel]], advance ramp))
    as H by (vm_compute; reflexivity).
  split; [exact H|].
  exact (proj1 (get_next_points_slots _ _ _ _ _ _ _ _ _ H)).
Defined.

Lemma perfect_sample_left_unset_witness :
  ClickSim.get_next_points cityblock_dt pred_two gt_two points_two 1
    default_pred_thresh ramp
  = Ok ([replicate 4 sentinel; [sentinel; click_point (1, 1)%nat 1; sentinel; sentinel]],
        advance ramp)
  /\ [replicate 4 sentinel; [sentinel; click_point (1, 1)%nat 1; sentinel; sentinel]] !! 0%nat
     = points_two !! 0%nat.
Proof.
  assert (ClickSim.get_next_points cityblock_dt pred_two gt_two points_two 1
            default_pred_thresh ramp
          = Ok ([replicate 4 sentinel;
                 [sentinel; click_point (1, 1)%nat 1; sentinel; sentinel]],
                advance ramp)) as H by (vm_compute; reflexivity).
  split; [exact H|].
  refine (proj1 (perfect_sample_left_unset cityblock_dt pred_two gt_two points_two 1
                   default_pred_thresh ramp _ _ 0 square [] square []
                   cityblock_blank H eq_refl eq_refl _)).
  change square with (map (map (fun g => if Qltb (1 # 2) g then 1%Q else 0%Q)) square) at 1.
  apply binarized_no_error; [discriminate|reflexivity].
Defined.

Lemma ignore_pixel_never_false_negative_witness :
  ClickSim.false_negative_mask [[[1 # 5]]] [[[(-1)%Q]]] default_pred_thresh = Ok [[[false]]]
  /\ pixel3 [[[false]]] 0 0 0 = Some false.
Proof.
  assert (ClickSim.false_negative_mask [[[1 # 5]]] [[[(-1)%Q]]] default_pred_thresh
          = Ok [[[false]]]) as H by (vm_compute; reflexivity).
  split; [exact H|].
  apply (ignore_pixel_never_false_negative [[[1 # 5]]] [[[(-1)%Q]]] default_pred_thresh
           [[[false]]] 0 0 0 (-1)%Q H); reflexivity.
Defined.

Lemma num_iters_drawn_once_and_bounded_witness :
  exists r,
    ISTrainer.batch_forward cityblock_dt squash trainer_two_clicks batch_one
      false true 5 ramp = Ok r
    /\ ISTrainer.num_iters r = 2%Z
    /\ ISTrainer.rounds_run (ISTrainer.final_state r) = [0; 1]%nat.
Proof.
  destruct (ISTrainer.batch_forward cityblock_dt squash trainer_two_clicks batch_one
              false true 5 ramp) as [r|e] eqn:E; [|vm_compute in E; discriminate].
  exists r. split; [reflexivity|].
  destruct (proj1 (proj2 (proj2
              (num_iters_drawn_once_and_bounded cityblock_dt squash unit tt
                 (fun z _ => z) zoom_identity (fun _ p => p))))
              trainer_two_clicks batch_one false true 5%nat ramp r E)
    as (Hdraw & _ & Hrounds & _).
  assert (ISTrainer.num_iters r = 2%Z) as Hn.
  { vm_compute in Hdraw. injection Hdraw as Hd. symmetry. exact Hd. }
  split; [exact Hn|]. rewrite Hrounds, Hn. reflexivity.
Defined.

Lemma add_loss_composition_witness :
  exists total,
    ISTrainer.compose_losses cfg_instance_only cfg_instance_only false
      (oracle_output pred_none) gt_one
    = Ok (total, {[ "instance_loss"%string := (4 # 16)%Q ]})
    /\ (total == 2 * (4 # 16))%Q.
Proof.
  destruct (proj1 (proj2 (add_loss_composition cfg_instance_only cfg_instance_only false))
              "instance_loss"%string 2%Q squared_error (oracle_output pred_none) gt_one)
    as (total & Hc & Ht).
  - unfold trainer_terms. apply list_elem_of_here.
  - vm_compute. reflexivity.
  - reflexivity.
  - vm_compute. reflexivity.
  - intros t' Ht' Hne. left. unfold trainer_terms in Ht'.
    repeat (apply elem_of_cons in Ht' as [->|Ht']);
      [congruence| | | |inversion Ht']; vm_compute; reflexivity.
  - exists total. split; [exact Hc|exact Ht].
Defined.

Lemma add_loss_raises_iff_witness :
  Loss.get_weight cfg_no_criterion "instance_loss" = Ok 1%Q
  /\ raises (ISTrainer.add_loss cfg_no_criterion cfg_no_criterion "instance_loss" 0 ∅ false
               (fun _ => (pred_none, gt_one)) None).
Proof.
  assert (Loss.get_weight (active_cfg cfg_no_criterion cfg_no_criterion false)
            "instance_loss" = Ok 1%Q) as H by (vm_compute; reflexivity).
  split; [exact H|].
  apply (proj1 (add_loss_raises_iff cfg_no_criterion cfg_no_criterion false
                  "instance_loss" 0 ∅ (fun _ => (pred_none, gt_one)) None 1%Q H)).
  split; [reflexivity|]. intros f. vm_compute. discriminate.
Defined.

Lemma load_weights_merges_witness :
  torch_load_state_dict fs_partial "w.pth" = Ok {[ "conv.weight"%string := t_2x3 ]}
  /\ dict_update (parameters net_small) {[ "conv.weight"%string := t_2x3 ]}
       !! "conv.weight"%string = Some t_2x3.
Proof.
  assert (torch_load_state_dict fs_partial "w.pth"
          = Ok {[ "conv.weight"%string := t_2x3 ]}) as H by (vm_compute; reflexivity).
  split; [exact H|].
  apply (proj1 (load_weights_merges fs_partial net_small "w.pth" _ H)).
  vm_compute. reflexivity.
Defined.

Lemma _load_weights_failures_witness :
  _load_weights fs_partial cfg_fresh net_small = Ok (cfg_fresh, net_small).
Proof.
  apply (proj2 (proj2 (proj2 (proj2
           (_load_weights_failures fs_partial cfg_fresh net_small))))); reflexivity.
Defined.

Lemma row_zero_click_dropped_witness :
  ISFintuner.clicks_list_of [(0, 5, 1)%Q; sentinel]
  = ISFintuner.clicks_list_of (<[0%nat := sentinel]> [(0, 5, 1)%Q; sentinel]).
Proof.
  apply (proj1 (proj2 (row_zero_click_dropped [(0, 5, 1)%Q; sentinel])) 0%nat 0%Q 5%Q 1%Q);
    reflexivity.
Defined.

(** ** Evaluations *)

(** Nothing predicted, object in the centre: a positive click inside the
    object, in the last slot of the first half. *)
Example first_click_positive :
  ClickSim.get_next_points cityblock_dt pred_none gt_one points_unset 1
    default_pred_thresh ramp
  = Ok ([[sentinel; click_point (1, 1)%nat 1; sentinel; sentinel]], advance ramp).
Proof. vm_compute. reflexivity. Qed.

(** Object predicted where there is none: a negative click, in the last
    slot of the second half. *)
Example first_click_negative :
  ClickSim.get_next_points cityblock_dt gt_one pred_none points_unset 1
    default_pred_thresh ramp
  = Ok ([[sentinel; sentinel; sentinel; click_point (1, 1)%nat 1]], advance ramp).
Proof. vm_compute. reflexivity. Qed.

(** Equal maxima: the click is negative. *)
Example tie_is_negative :
  ClickSim.get_next_points cityblock_dt [[[[0; 1]]]]%Q [[[[1; 0]]]]%Q points_unset 1
    default_pred_thresh ramp
  = Ok ([[sentinel; sentinel; sentinel; click_point (0, 1)%nat 1]], advance ramp).
Proof. vm_compute. reflexivity. Qed.

(** Round 3 with two slots per polarity: the index [2 - 3] counts from the
    end, and the positive click lands in the second half. *)
Example beyond_capacity_wraps :
  ClickSim.get_next_points cityblock_dt pred_none gt_one points_unset 3
    default_pred_thresh ramp
  = Ok ([[sentinel; sentinel; sentinel; click_point (1, 1)%nat 3]], advance ramp).
Proof. vm_compute. reflexivity. Qed.

(** Round 7: the index [2 - 7] is out of range. *)
Example far_beyond_capacity_raises :
  ClickSim.get_next_points cityblock_dt pred_none gt_one points_unset 7
    default_pred_thresh ramp
  = Raise IndexError.
Proof. vm_compute. reflexivity. Qed.

Example round_zero_asserts :
  ClickSim.get_next_points cityblock_dt pred_none gt_one points_unset 0
    default_pred_thresh ramp
  = Raise AssertionError.
Proof. vm_compute. reflexivity. Qed.

(** A stored click in row 0 is not handed to the zoom transform. *)
Example row_zero_not_forwarded :
  ISFintuner.clicks_list_of [(0, 5, 1)%Q; (3, 0, 2)%Q; sentinel; (2, 2, 1)%Q]
  = [ {| ISFintuner.is_positive := true; ISFintuner.coords := (3, 0)%Q;
         ISFintuner.indx := 100 |};
      {| ISFintuner.is_positive := false; ISFintuner.coords := (2, 2)%Q;
         ISFintuner.indx := 100 |} ].
Proof. vm_compute. reflexivity. Qed.

(** * Further properties of the trainer code *)

(** ** Padding, cropping and channels *)

Lemma slice_pad {A} (x y : A) (l : list A) : slice_1_m1 (x :: l ++ [y]) = l.
Proof. unfold slice_1_m1. cbn [tail]. apply removelast_last. Qed.

(** X1. Cropping [1:-1, 1:-1] undoes the one-pixel padding of
    [get_next_points] for every mask, so a coordinate of the cropped
    distance map is a coordinate of the original mask. *)
Theorem crop_undoes_pad :
  forall m : list (list bool),
    crop (np_pad1 m) = m /\ crop (pad8 m) = astype_uint8 m.
Proof.
  intros m.
  assert (crop (np_pad1 m) = m) as H.
  { unfold crop, np_pad1. cbv zeta. rewrite slice_pad, map_map.
    rewrite <- (map_id m) at 2. apply map_ext. intros r. apply slice_pad. }
  split; [exact H|].
  unfold pad8, astype_uint8. rewrite <- H at 2.
  unfold crop, np_pad1. cbv zeta. cbn [map]. rewrite map_app. cbn [map].
  rewrite !slice_pad, !map_map. apply map_ext. intros r.
  cbn [map]. rewrite map_app. cbn [map]. rewrite !slice_pad. reflexivity.
Qed.

Lemma channel0_take1 {A} (t : list (list (list (list A)))) :
  channel0 (map (take 1) t) = channel0 t.
Proof.
  induction t as [|s t IH]; [reflexivity|].
  cbn [map channel0]. destruct s as [|c s]; [reflexivity|].
  cbn [take]. rewrite IH. reflexivity.
Qed.

(** X2. [get_next_points] reads channel 0 of the prediction and of the
    ground truth only: dropping all further channels changes neither the
    points nor the generator it returns, nor the error it raises. *)
Theorem get_next_points_reads_channel0 :
  forall dt pred gt (points : list pointset) click_indx thr g,
    ClickSim.get_next_points dt (map (take 1) pred) (map (take 1) gt) points
      click_indx thr g
    = ClickSim.get_next_points dt pred gt points click_indx thr g.
Proof.
  intros. unfold ClickSim.get_next_points. rewrite !channel0_take1. reflexivity.
Qed.

(** ** Random draws of the click simulator *)

Lemma sample_click_rng dt fn fp g click g' :
  sample_click dt fn fp g = Ok (click, g') ->
  stream g' = stream g
  /\ cursor g' = (cursor g + match click with Some _ => 1 | None => 0 end)%nat.
Proof.
  unfold sample_click.
  destruct (np_max (crop (dt fn))) as [vn|]; [|discriminate].
  destruct (np_max (crop (dt fp))) as [vp|]; [|discriminate].
  cbn [mbind result_bind].
  destruct (0 <? length _)%nat.
  - unfold np_random_randint. destruct (_ !! _); [|discriminate].
    intros [= <- <-]. cbn. split; [reflexivity|lia].
  - intros [= <- <-]. split; [reflexivity|lia].
Qed.

Lemma click_loop_rng dt masks :
  forall bindx num_points click_indx points g points' g',
    click_loop dt bindx masks num_points click_indx points g = Ok (points', g') ->
    stream g' = stream g
    /\ (cursor g <= cursor g' <= cursor g + length masks)%nat
    /\ (cursor g' = cursor g -> points' = points).
Proof.
  induction masks as [|[fn fp] rest IH]; intros bindx np k points g points' g' H.
  - injection H as <- <-. cbn. repeat split; lia.
  - cbn [click_loop] in H.
    destruct (sample_click dt fn fp g) as [[click g1]|] eqn:Es; [|discriminate].
    cbn [mbind result_bind] in H.
    apply sample_click_rng in Es as [Hs Hc].
    destruct click as [[pos coords]|].
    + destruct (write_click points np bindx k pos coords) as [points1|]; [|discriminate].
      cbn [mbind result_bind] in H. apply IH in H as (Hs' & Hc' & _).
      cbn [length]. split; [congruence|]. split; [lia|]. intros Heq. lia.
    + cbn [mbind result_bind] in H. apply IH in H as (Hs' & Hc' & Hsame).
      cbn [length]. split; [congruence|]. split; [lia|].
      intros Heq. apply Hsame. lia.
Qed.

(** X3. A call of [get_next_points] leaves the stream of numpy's generator
    as it is and consumes at most one draw per sample of the batch; when
    it consumes none, it returns the points unchanged. *)
Theorem get_next_points_draws :
  forall dt pred gt (points : list pointset) click_indx thr g points' g',
    ClickSim.get_next_points dt pred gt points click_indx thr g = Ok (points', g') ->
    stream g' = stream g
    /\ (cursor g <= cursor g' <= cursor g + length pred)%nat
    /\ (cursor g' = cursor g -> points' = points).
Proof.
  intros dt pred gt points k thr g points' g' H.
  apply get_next_points_unfold in H
    as (pred0 & gt0 & fn & fp & _ & Hp & _ & Hn & _ & H).
  apply click_loop_rng in H as (Hs & Hc & Hsame).
  split; [exact Hs|]. split; [|exact Hsame].
  assert (length pred0 = length pred) as Hlp.
  { clear -Hp. revert pred0 Hp. induction pred as [|s t IH]; intros pred0 Hp.
    - injection Hp as <-. reflexivity.
    - cbn [channel0] in Hp. destruct s; [discriminate|].
      destruct (channel0 t) as [r|]; [|discriminate]. injection Hp as <-.
      cbn [length]. f_equal. apply IH. reflexivity. }
  assert (length fn <= length pred0)%nat as Hlf.
  { unfold false_negative_mask, np_logical_and in Hn.
    destruct (decide _); [|discriminate]. injection Hn as <-.
    rewrite length_zip_with, !length_map. lia. }
  rewrite length_zip_with, !length_map in Hc. lia.
Qed.

(** ** Where the simulated clicks land *)

Lemma slice_lookup_Some {A} (l : list A) i x :
  slice_1_m1 l !! i = Some x -> l !! S i = Some x.
Proof.
  intros H. pose proof (lookup_lt_Some _ _ _ H) as Hlt.
  rewrite slice_length in Hlt. rewrite slice_lookup in H by lia. exact H.
Qed.

Lemma crop_pixel {A} (d : list (list A)) i j x :
  pixel (crop d) i j = Some x -> pixel d (S i) (S j) = Some x.
Proof.
  unfold pixel, crop. rewrite list_lookup_fmap.
  destruct (slice_1_m1 d !! i) as [r|] eqn:Er; [|discriminate].
  apply slice_lookup_Some in Er. rewrite Er. cbn. apply slice_lookup_Some.
Qed.

Lemma pad8_pixel_nonzero (m : list (list bool)) i j v :
  pixel (pad8 m) (S i) (S j) = Some v -> v <> 0%Z -> pixel m i j = Some true.
Proof.
  unfold pad8, astype_uint8. rewrite map2_pixel. unfold np_pad1, pixel. cbv zeta.
  rewrite lookup_cons.
  destruct (decide (i < length m)%nat) as [Hi|Hi].
  - rewrite lookup_app_l by (rewrite length_map; exact Hi).
    rewrite list_lookup_fmap.
    destruct (m !! i) as [r|]; [|discriminate]. cbn [fmap option_fmap option_map mbind option_bind].
    rewrite lookup_cons.
    destruct (decide (j < length r)%nat) as [Hj|Hj].
    + rewrite lookup_app_l by exact Hj.
      destruct (r !! j) as [[|]|]; cbn; [reflexivity|congruence|discriminate].
    + rewrite lookup_app_r by lia.
      destruct (j - length r)%nat; cbn; [congruence|discriminate].
  - rewrite lookup_app_r by (rewrite length_map; lia). rewrite length_map.
    destruct (i - length m)%nat; cbn; [|discriminate].
    destruct (replicate _ false !! S j) as [b|] eqn:Eb; cbn; [|discriminate].
    apply lookup_replicate in Eb as [-> _]. cbn. congruence.
Qed.

Lemma where_true_elem row : forall j0 j,
  j ∈ where_true j0 row -> exists k, j = (j0 + k)%nat /\ row !! k = Some true.
Proof.
  induction row as [|b row IH]; intros j0 j Hj; [inversion Hj|].
  cbn [where_true] in Hj. destruct b.
  - apply elem_of_cons in Hj as [->|Hj].
    + exists 0%nat. split; [lia|reflexivity].
    + apply IH in Hj as (k & -> & Hk). exists (S k). split; [lia|exact Hk].
  - apply IH in Hj as (k & -> & Hk). exists (S k). split; [lia|exact Hk].
Qed.

Lemma argwhere_elem m : forall i0 i j,
  (i, j) ∈ argwhere_from i0 m ->
  exists k, i = (i0 + k)%nat /\ pixel m k j = Some true.
Proof.
  induction m as [|row m IH]; intros i0 i j H; [inversion H|].
  cbn [argwhere_from] in H. apply elem_of_app in H as [H|H].
  - apply list_elem_of_fmap in H as (j' & [= -> ->] & Hj).
    apply where_true_elem in Hj as (k & -> & Hk).
    exists 0%nat. split; [lia|]. exact Hk.
  - apply IH in H as (k & -> & Hk). exists (S k). split; [lia|exact Hk].
Qed.

Lemma nonnegative_Forall dt m :
  nonnegative dt -> Forall (Forall (fun d => (0 <= d)%Q)) (crop (dt m)).
Proof.
  intros Hdt. apply crop_Forall. apply Forall_lookup. intros i r Hr.
  apply Forall_lookup. intros j d Hd. apply (Hdt m i j). unfold pixel.
  rewrite Hr. exact Hd.
Qed.

Lemma sample_click_on_mask dt fn fp g pos i j g' :
  nonnegative dt -> positive_on_mask dt ->
  sample_click dt fn fp g = Ok (Some (pos, (i, j)), g') ->
  exists v, pixel (if pos then fn else fp) (S i) (S j) = Some v /\ v <> 0%Z.
Proof.
  intros Hnn Hpos. unfold sample_click.
  destruct (np_max (crop (dt fn))) as [vn|] eqn:En; [|discriminate].
  destruct (np_max (crop (dt fp))) as [vp|] eqn:Ep; [|discriminate].
  cbn [mbind result_bind].
  pose proof (np_max_Forall _ _ _ (nonnegative_Forall dt fn Hnn) En) as Hvn.
  pose proof (np_max_Forall _ _ _ (nonnegative_Forall dt fp Hnn) Ep) as Hvp.
  destruct (0 <? length _)%nat; [|discriminate].
  unfold np_random_randint.
  destruct (_ !! _) as [c|] eqn:Ec; [|discriminate]. intros [= Hp -> _].
  apply list_elem_of_lookup_2 in Ec. unfold np_argwhere in Ec.
  apply argwhere_elem in Ec as (k & -> & Hk). cbn [Nat.add] in Hk.
  rewrite map2_pixel in Hk.
  destruct (pixel (if Qltb vp vn then crop (dt fn) else crop (dt fp)) k j)
    as [d|] eqn:Ed; [|discriminate].
  injection Hk as Hk. apply Qltb_lt in Hk.
  assert (0 < d)%Q as Hd.
  { eapply Qle_lt_trans; [|exact Hk].
    assert (0 <= py_max vn vp)%Q as Hm by (unfold py_max; destruct (Qltb vn vp); assumption).
    apply Qle_shift_div_l; [reflexivity|]. rewrite Qmult_0_l. exact Hm. }
  subst pos. destruct (Qltb vp vn); apply crop_pixel in Ed; eapply Hpos; eauto.
Qed.

Lemma click_loop_clicks dt masks :
  nonnegative dt -> positive_on_mask dt ->
  forall bindx num_points click_indx points g points' g',
    click_loop dt bindx masks num_points click_indx points g = Ok (points', g') ->
    forall i ps ps',
      points !! i = Some ps -> points' !! i = Some ps' -> ps' <> ps ->
      exists pos coords slot fn fp,
        (bindx <= i)%nat
        /\ masks !! (i - bindx)%nat = Some (fn, fp)
        /\ py_index (length ps) (slot_index num_points click_indx pos) = Ok slot
        /\ ps' = <[slot := click_point coords click_indx]> ps
        /\ exists v, pixel (if pos then fn else fp) (S (fst coords)) (S (snd coords)) = Some v
                     /\ v <> 0%Z.
Proof.
  intros Hnn Hpos. induction masks as [|[fn fp] rest IH];
    intros bindx np k points g points' g' H i ps ps' Hi Hi' Hne.
  - injection H as <- <-. congruence.
  - cbn [click_loop] in H.
    destruct (sample_click dt fn fp g) as [[click g1]|] eqn:Es; [|discriminate].
    cbn [mbind result_bind] in H.
    assert (forall points1,
               click_loop dt (S bindx) rest np k points1 g1 = Ok (points', g') ->
               points1 !! i = Some ps -> (bindx < i)%nat ->
               exists pos coords slot fn0 fp0,
                 (bindx <= i)%nat
                 /\ ((fn, fp) :: rest) !! (i - bindx)%nat = Some (fn0, fp0)
                 /\ py_index (length ps) (slot_index np k pos) = Ok slot
                 /\ ps' = <[slot := click_point coords k]> ps
                 /\ exists v, pixel (if pos then fn0 else fp0) (S (fst coords))
                                (S (snd coords)) = Some v /\ v <> 0%Z) as Hlater.
    { intros points1 H1 Hp1 Hlt.
      destruct (IH _ _ _ _ _ _ _ H1 i ps ps' Hp1 Hi' Hne)
        as (pos & coords & slot & fn0 & fp0 & _ & Hm & Hs & Hw & Hv).
      exists pos, coords, slot, fn0, fp0. split; [lia|]. split; [|auto].
      replace (i - bindx)%nat with (S (i - S bindx)) by lia. exact Hm. }
    assert (forall points1,
               click_loop dt (S bindx) rest np k points1 g1 = Ok (points', g') ->
               points1 !! i = Some ps -> (i <= bindx)%nat -> False) as Hearlier.
    { intros points1 H1 Hp1 Hle. apply click_loop_effect in H1 as [_ Hall].
      destruct (Hall i ps Hp1) as (ps0 & Hp0 & _ & Heq).
      apply Hne. rewrite Hi' in Hp0. injection Hp0 as <-. apply Heq. lia. }
    destruct click as [[pos coords]|]; cbn [mbind result_bind] in H.
    + destruct (write_click points np bindx k pos coords) as [points1|] eqn:Ew;
        [|discriminate].
      cbn [mbind result_bind] in H.
      destruct (write_click_inv _ _ _ _ _ _ _ Ew) as (psb & slot & Hb & Hslot & ->).
      destruct (decide (i = bindx)) as [->|Hnb].
      * assert (psb = ps) as -> by congruence.
        pose proof H as H1. apply click_loop_effect in H1 as [_ Hall].
        destruct (Hall bindx (<[slot := click_point coords k]> ps)) as (ps0 & Hp0 & _ & Heq).
        { apply list_lookup_insert_eq. eapply lookup_lt_Some; eauto. }
        rewrite Hi' in Hp0. injection Hp0 as <-. rewrite Heq by lia.
        destruct coords as [ci cj].
        destruct (sample_click_on_mask dt fn fp g pos ci cj g1 Hnn Hpos Es) as (v & Hv & Hv0).
        exists pos, (ci, cj), slot, fn, fp. rewrite Nat.sub_diag.
        split; [lia|]. split; [reflexivity|]. split; [exact Hslot|].
        split; [reflexivity|]. exists v. split; assumption.
      * assert (<[bindx := <[slot := click_point coords k]> psb]> points !! i = Some ps) as Hp1
          by (rewrite list_lookup_insert_ne by congruence; exact Hi).
        destruct (decide (bindx < i)%nat) as [Hlt|Hge].
        -- exact (Hlater _ H Hp1 Hlt).
        -- exfalso. eapply Hearlier; eauto. lia.
    + destruct (decide (bindx < i)%nat) as [Hlt|Hge].
      * exact (Hlater _ H Hi Hlt).
      * exfalso. eapply Hearlier; eauto. lia.
Qed.

(** X4. Every click [get_next_points] writes lies on an error pixel of its
    own kind: a positive click on a pixel that is foreground in the ground
    truth and predicted below the threshold, a negative click on a
    background pixel predicted above it.  (The distance transform is
    assumed non-negative and positive only on pixels of the mask.) *)
Theorem clicks_land_on_error_pixels :
  forall dt pred gt (points : list pointset) click_indx thr g points' g',
    nonnegative dt -> positive_on_mask dt ->
    ClickSim.get_next_points dt pred gt points click_indx thr g = Ok (points', g') ->
    forall bindx ps ps',
      points !! bindx = Some ps -> points' !! bindx = Some ps' -> ps' <> ps ->
      exists is_positive row col slot pred0 gt0 p gv,
        py_index (length ps) (slot_index (size1 points / 2) click_indx is_positive) = Ok slot
        /\ ps' = <[slot := click_point (row, col) click_indx]> ps
        /\ channel0 pred = Ok pred0 /\ channel0 gt = Ok gt0
        /\ pixel3 pred0 bindx row col = Some p
        /\ pixel3 gt0 bindx row col = Some gv
        /\ (if is_positive then (1 # 2 < gv)%Q /\ (p < thr)%Q
            else ~ (1 # 2 < gv)%Q /\ (thr < p)%Q).
Proof.
  intros dt pred gt points k thr g points' g' Hnn Hpos H b ps ps' Hb Hb' Hne.
  apply get_next_points_unfold in H
    as (pred0 & gt0 & fn & fp & _ & Hp & Hg & Hn & Hf & H).
  destruct (click_loop_clicks dt _ Hnn Hpos _ _ _ _ _ _ _ H b ps ps' Hb Hb' Hne)
    as (pos & [row col] & slot & mfn & mfp & _ & Hm & Hslot & Hw & v & Hv & Hv0).
  rewrite Nat.sub_0_r in Hm.
  apply lookup_zip_with_Some in Hm as (x & y & [= -> ->] & Hx & Hy).
  rewrite list_lookup_fmap in Hx, Hy.
  destruct (fn !! b) as [fnb|] eqn:Efn; [|discriminate]. injection Hx as <-.
  destruct (fp !! b) as [fpb|] eqn:Efp; [|discriminate]. injection Hy as <-.
  pose proof (np_logical_and_lookup _ _ _ b Hn) as Ln.
  pose proof (np_logical_and_lookup _ _ _ b Hf) as Lp.
  unfold np_logical_not in Lp.
  rewrite Efn in Ln. rewrite Efp in Lp.
  rewrite !list_lookup_fmap in Ln. rewrite !list_lookup_fmap in Lp.
  destruct (gt0 !! b) as [gm|] eqn:Eg; [|discriminate].
  destruct (pred0 !! b) as [pm|] eqn:Ep; [|discriminate].
  cbn in Ln, Lp. injection Ln as ->. injection Lp as ->.
  cbn [fst snd] in Hv.
  exists pos, row, col, slot, pred0, gt0.
  assert (forall a c (fa : Q -> bool) (fc : Q -> bool),
             pixel (zip_with (zip_with andb) (map (map fa) a) (map (map fc) c)) row col
             = Some true ->
             exists x y, pixel a row col = Some x /\ pixel c row col = Some y
                         /\ fa x = true /\ fc y = true) as Hzip.
  { intros a c fa fc Hz. unfold pixel in Hz. rewrite lookup_zip_with in Hz.
    rewrite !list_lookup_fmap in Hz. unfold pixel.
    destruct (a !! row) as [ra|]; [|discriminate].
    destruct (c !! row) as [rc|]; [|discriminate]. cbn in Hz |- *.
    rewrite lookup_zip_with, !list_lookup_fmap in Hz.
    destruct (ra !! col) as [x|]; [|discriminate].
    destruct (rc !! col) as [y|]; [|discriminate]. cbn in Hz.
    injection Hz as Hz. apply andb_true_iff in Hz as [Hfa Hfc].
    exists x, y. repeat split; assumption. }
  destruct pos.
  - apply pad8_pixel_nonzero in Hv; [|exact Hv0].
    apply Hzip in Hv as (gv & p & Hgv & Hpv & H1 & H2).
    exists p, gv. unfold pixel3. rewrite Ep, Eg. cbn.
    repeat split; try assumption; apply Qltb_lt; assumption.
  - apply pad8_pixel_nonzero in Hv; [|exact Hv0].
    assert (map (map negb) (map (map (fun g0 : Q => Qltb (1 # 2) g0)) gm)
            = map (map (fun g0 => negb (Qltb (1 # 2) g0))) gm) as Hmm
      by (rewrite map_map; apply map_ext; intros; apply map_map).
    rewrite Hmm in Hv.
    apply (Hzip gm pm (fun g0 => negb (Qltb (1 # 2) g0))) in Hv
      as (gv & p & Hgv & Hpv & H1 & H2).
    exists p, gv. unfold pixel3. rewrite Ep, Eg. cbn.
    repeat split; try assumption.
    + intros Hlt. apply Qltb_lt in Hlt. rewrite Hlt in H1. discriminate.
    + apply Qltb_lt. assumption.
Qed.

(** ** The slots the simulated rounds can write *)

Lemma get_next_points_window dt pred gt (points : list pointset) click_indx thr g
    points' g' N n :
  ClickSim.get_next_points dt pred gt points click_indx thr g = Ok (points', g') ->
  point_tensor N points ->
  (click_indx <= Z.of_nat n)%Z -> (n <= N / 2)%nat ->
  length points' = length points
  /\ point_tensor N points'
  /\ forall b ps ps' slot,
       points !! b = Some ps -> points' !! b = Some ps' ->
       outside_window (N / 2) n slot -> ps' !! slot = ps !! slot.
Proof.
  intros H [Hrect Hsize] Hk Hn.
  apply get_next_points_inv in H as (Hk0 & masks & H).
  apply click_loop_effect in H as [Hlen Hall]. rewrite Hsize in Hall.
  assert (forall b ps ps', points !! b = Some ps -> points' !! b = Some ps' ->
            length ps' = N
            /\ forall slot, outside_window (N / 2) n slot -> ps' !! slot = ps !! slot) as Hkey.
  { intros b ps ps' Hb Hb'. destruct (Hall b ps Hb) as (ps0 & Hp0 & Heff & _).
    assert (ps0 = ps') as -> by congruence.
    assert (length ps = N) as HN by (rewrite Forall_lookup in Hrect; eauto).
    destruct Heff as [->|(pos & coords & slot0 & Hslot & ->)].
    - split; [exact HN|reflexivity].
    - split; [rewrite length_insert; exact HN|].
      intros slot Hout. rewrite HN in Hslot.
      destruct (slot_within_capacity N click_indx pos slot0) as (_ & Hhalf & _);
        [lia|exact Hslot|].
      apply py_index_lt in Hslot as Hlt.
      assert (slot0 = slot_nat (N / 2) click_indx pos) as Hs0.
      { destruct (slot_within_capacity N click_indx pos slot0) as (E & _); [lia|exact Hslot|].
        exact E. }
      apply list_lookup_insert_ne. rewrite Hs0.
      unfold slot_nat, slot_index, outside_window in *. destruct pos; lia. }
  split; [exact Hlen|]. split; [split|].
  - apply Forall_lookup. intros b ps' Hb'.
    destruct (lookup_lt_is_Some_2 points b) as [ps Hb].
    { rewrite <- Hlen. eapply lookup_lt_Some; eauto. }
    apply (Hkey b ps ps' Hb Hb').
  - unfold size1 in *. destruct points as [|p0 points0].
    + destruct points'; [exact Hsize|discriminate].
    + destruct points' as [|q0 points0']; [discriminate|].
      cbn [hd]. apply (Hkey 0%nat p0 q0); reflexivity.
  - intros b ps ps' slot Hb Hb'. apply (Hkey b ps ps' Hb Hb').
Qed.

Lemma trainer_sim_round_inv dt sigmoid tr validation image orig_gt gt st c st1 :
  ISTrainer.sim_round dt sigmoid tr validation image orig_gt gt st c = Ok st1 ->
  exists prev g,
    ClickSim.get_next_points dt prev orig_gt (ISTrainer.cur_points st)
      (Z.of_nat c + 1) default_pred_thresh (ISTrainer.np_rng st)
    = Ok (ISTrainer.cur_points st1, g)
    /\ ISTrainer.net_training st1
       = (if negb validation then true else ISTrainer.net_training st)
    /\ ISTrainer.last_click_indx st1 = Some c.
Proof.
  unfold ISTrainer.sim_round.
  destruct (match ISTrainer.click_models tr with
            | Some ms => _ | None => _ end) as [eval_model mode].
  destruct (ClickSim.get_next_points _ _ _ _ _ _ _) as [[pts g]|] eqn:E; [|discriminate].
  intros [= <-]. cbn. eexists. exists g. split; [exact E|]. split; [|reflexivity].
  destruct validation; reflexivity.
Qed.

Lemma trainer_sim_loop_window dt sigmoid tr validation image orig_gt gt N n rounds :
  (n <= N / 2)%nat -> Forall (fun c => (c < n)%nat) rounds ->
  forall st st',
    ISTrainer.sim_loop dt sigmoid tr validation image orig_gt gt rounds st = Ok st' ->
    point_tensor N (ISTrainer.cur_points st) ->
    length (ISTrainer.cur_points st') = length (ISTrainer.cur_points st)
    /\ point_tensor N (ISTrainer.cur_points st')
    /\ forall b ps ps' slot,
         ISTrainer.cur_points st !! b = Some ps ->
         ISTrainer.cur_points st' !! b = Some ps' ->
         outside_window (N / 2) n slot -> ps' !! slot = ps !! slot.
Proof.
  intros Hn Hrounds. induction Hrounds as [|c rounds Hc _ IH]; intros st st' H Hpt.
  - injection H as <-. split; [reflexivity|]. split; [exact Hpt|].
    intros b ps ps' slot Hb Hb' _. congruence.
  - cbn [ISTrainer.sim_loop] in H.
    destruct (ISTrainer.sim_round dt sigmoid tr validation image orig_gt gt st c)
      as [st1|] eqn:E; [|discriminate].
    cbn [mbind result_bind] in H.
    apply trainer_sim_round_inv in E as (prev & g & E & _).
    destruct (get_next_points_window _ _ _ _ _ _ _ _ _ N n E Hpt) as (L1 & P1 & W1);
      [lia|exact Hn|].
    destruct (IH _ _ H P1) as (L2 & P2 & W2).
    split; [congruence|]. split; [exact P2|].
    intros b ps ps' slot Hb Hb' Hout.
    destruct (lookup_lt_is_Some_2 (ISTrainer.cur_points st1) b) as [ps1 Hb1].
    { rewrite L1. eapply lookup_lt_Some; eauto. }
    rewrite (W2 b ps1 ps' slot Hb1 Hb' Hout). apply (W1 b ps ps1 slot Hb Hb1 Hout).
Qed.

Lemma trainer_drop_points tr st :
  ISTrainer.cur_points (ISTrainer.drop_prev_mask tr st) = ISTrainer.cur_points st.
Proof.
  unfold ISTrainer.drop_prev_mask.
  destruct (_ && _ && _); [|reflexivity].
  destruct (ISTrainer.np_random_random_n _ _). reflexivity.
Qed.

Lemma seq_below n : Forall (fun c => (c < n)%nat) (seq 0 n).
Proof. apply Forall_forall. intros c Hc. apply elem_of_seq in Hc. lia. Qed.

(** X5. [ISTrainer.batch_forward] hands the final pass a point tensor of the
    shape it received, in which the simulated rounds have written at most
    the last [num_iters] slots of each half; every other slot, such as the
    clicks a dataset stores at the front of each half, is as it was. *)
Theorem trainer_simulation_window :
  forall dt sigmoid tr batch validation training raw g r N,
    ISTrainer.batch_forward dt sigmoid tr batch validation training raw g = Ok r ->
    point_tensor N (ISTrainer.points batch) ->
    (ISTrainer.max_num_next_clicks tr <= Z.of_nat (N / 2))%Z ->
    length (ISTrainer.batch_points r) = length (ISTrainer.points batch)
    /\ point_tensor N (ISTrainer.batch_points r)
    /\ forall b ps ps' slot,
         ISTrainer.points batch !! b = Some ps ->
         ISTrainer.batch_points r !! b = Some ps' ->
         outside_window (N / 2) (Z.to_nat (ISTrainer.num_iters r)) slot ->
         ps' !! slot = ps !! slot.
Proof.
  intros dt sigmoid tr batch validation training raw g r N H Hpt Hmax.
  unfold ISTrainer.batch_forward in H.
  destruct (random_randint 0 (ISTrainer.max_num_next_clicks tr) raw) as [k|] eqn:Ek;
    [|discriminate].
  cbn [mbind result_bind] in H.
  destruct (ISTrainer.sim_loop _ _ _ _ _ _ _ _ _) as [st|] eqn:Es; [|discriminate].
  cbn [mbind result_bind] in H.
  destruct (ISTrainer.compose_losses _ _ _ _ _) as [[l lg]|]; [|discriminate].
  injection H as <-. cbn [ISTrainer.batch_points ISTrainer.num_iters].
  rewrite trainer_drop_points.
  destruct (random_randint_range _ _ _ Ek) as [Hr _].
  apply (trainer_sim_loop_window _ _ _ _ _ _ _ N (Z.to_nat k)) in Es;
    [exact Es|lia|apply seq_below|exact Hpt].
Qed.

Section FintunerWindow.

Context (dt : list (list Z) -> list (list Q)) (sigmoid : Q -> Q) {ZoomIn : Type}
        (ZoomIn_new : ZoomIn)
        (set_probs : ZoomIn -> list (list (list Q)) -> ZoomIn)
        (transform : ZoomIn -> list (list (list Q)) -> list (list ISFintuner.Click) ->
                     list (list (list Q)) * list (list ISFintuner.Click) * ZoomIn)
        (inv_transform : ZoomIn -> list (list (list Q)) -> list (list (list Q))).

Lemma fintuner_sim_round_inv ft validation image gt orig_gt st c st1 :
  ISFintuner.sim_round dt sigmoid ZoomIn set_probs transform inv_transform
    ft validation image gt orig_gt st c = Ok st1 ->
  exists inv g,
    ClickSim.get_next_points dt inv orig_gt (ISFintuner.int_points ZoomIn st)
      (Z.of_nat c + 1) default_pred_thresh (ISFintuner.np_rng ZoomIn st)
    = Ok (ISFintuner.int_points ZoomIn st1, g)
    /\ ISFintuner.seg_training ZoomIn st1
       = (if negb validation then true else ISFintuner.seg_training ZoomIn st).
Proof.
  unfold ISFintuner.sim_round.
  destruct (ISFintuner.prepare_seg_net_input _ _ _ _ _ _ _ _ _) as [si|]; [|discriminate].
  cbn [mbind result_bind].
  destruct (ISFintuner.prepare_int_net_input _ _ _ _ _ _ _ _ _ _) as [[[prev pts] g]|] eqn:E;
    [|discriminate].
  intros [= <-]. cbn. unfold ISFintuner.prepare_int_net_input in E.
  destruct (ISFintuner.inv_zoom_all _ _ _ _) as [inv|]; [|discriminate].
  cbn [mbind result_bind] in E.
  destruct (ClickSim.get_next_points _ _ _ _ _ _ _) as [[pts' g']|] eqn:E'; [|discriminate].
  injection E as _ <- <-. exists inv, g'. split; [exact E'|].
  destruct validation; reflexivity.
Qed.

Lemma fintuner_sim_loop_window ft validation image gt orig_gt N n rounds :
  (n <= N / 2)%nat -> Forall (fun c => (c < n)%nat) rounds ->
  forall st st',
    ISFintuner.sim_loop dt sigmoid ZoomIn set_probs transform inv_transform
      ft validation image gt orig_gt rounds st = Ok st' ->
    point_tensor N (ISFintuner.int_points ZoomIn st) ->
    length (ISFintuner.int_points ZoomIn st') = length (ISFintuner.int_points ZoomIn st)
    /\ point_tensor N (ISFintuner.int_points ZoomIn st')
    /\ forall b ps ps' slot,
         ISFintuner.int_points ZoomIn st !! b = Some ps ->
         ISFintuner.int_points ZoomIn st' !! b = Some ps' ->
         outside_window (N / 2) n slot -> ps' !! slot = ps !! slot.
Proof.
  intros Hn Hrounds. induction Hrounds as [|c rounds Hc _ IH]; intros st st' H Hpt.
  - injection H as <-. split; [reflexivity|]. split; [exact Hpt|].
    intros b ps ps' slot Hb Hb' _. congruence.
  - cbn [ISFintuner.sim_loop] in H.
    destruct (ISFintuner.sim_round dt sigmoid ZoomIn set_probs transform inv_transform
                ft validation image gt orig_gt st c) as [st1|] eqn:E; [|discriminate].
    cbn [mbind result_bind] in H.
    apply fintuner_sim_round_inv in E as (inv & g & E & _).
    destruct (get_next_points_window _ _ _ _ _ _ _ _ _ N n E Hpt) as (L1 & P1 & W1);
      [lia|exact Hn|].
    destruct (IH _ _ H P1) as (L2 & P2 & W2).
    split; [congruence|]. split; [exact P2|].
    intros b ps ps' slot Hb Hb' Hout.
    destruct (lookup_lt_is_Some_2 (ISFintuner.int_points ZoomIn st1) b) as [ps1 Hb1].
    { rewrite L1. eapply lookup_lt_Some; eauto. }
    rewrite (W2 b ps1 ps' slot Hb1 Hb' Hout). apply (W1 b ps ps1 slot Hb Hb1 Hout).
Qed.

Lemma fintuner_sim_loop_mode ft validation image gt orig_gt rounds :
  forall st st',
    ISFintuner.sim_loop dt sigmoid ZoomIn set_probs transform inv_transform
      ft validation image gt orig_gt rounds st = Ok st' ->
    ISFintuner.seg_training ZoomIn st'
    = (if validation then ISFintuner.seg_training ZoomIn st
       else match rounds with [] => ISFintuner.seg_training ZoomIn st | _ => true end).
Proof.
  induction rounds as [|c rounds IH]; intros st st' H.
  - injection H as <-. destruct validation; reflexivity.
  - cbn [ISFintuner.sim_loop] in H.
    destruct (ISFintuner.sim_round dt sigmoid ZoomIn set_probs transform inv_transform
                ft validation image gt orig_gt st c) as [st1|] eqn:E; [|discriminate].
    cbn [mbind result_bind] in H.
    apply fintuner_sim_round_inv in E as (inv & g & _ & Em).
    rewrite (IH _ _ H), Em. destruct validation, rounds; reflexivity.
Qed.

End FintunerWindow.

(** X6. In [ISFintuner.batch_forward] the intention points keep their shape
    through the simulated rounds, and only the last [num_iters] slots of
    each half can have been written. *)
Theorem fintuner_simulation_window :
  forall dt sigmoid (ZoomIn : Type) (ZoomIn_new : ZoomIn) set_probs transform inv_transform
         ft batch validation training raw g r N,
    ISFintuner.batch_forward dt sigmoid ZoomIn ZoomIn_new set_probs transform
      inv_transform ft batch validation training raw g = Ok r ->
    point_tensor N (ISTrainer.points batch) ->
    (ISFintuner.max_num_next_clicks ft <= Z.of_nat (N / 2))%Z ->
    let final := ISFintuner.int_points ZoomIn (ISFintuner.final_state ZoomIn r) in
    length final = length (ISTrainer.points batch)
    /\ point_tensor N final
    /\ forall b ps ps' slot,
         ISTrainer.points batch !! b = Some ps -> final !! b = Some ps' ->
         outside_window (N / 2) (Z.to_nat (ISFintuner.num_iters ZoomIn r)) slot ->
         ps' !! slot = ps !! slot.
Proof.
  intros dt sigmoid ZoomIn zn sp tf itf ft batch validation training raw g r N H Hpt Hmax.
  unfold ISFintuner.batch_forward in H.
  destruct (random_randint 0 (ISFintuner.max_num_next_clicks ft) raw) as [k|] eqn:Ek;
    [|discriminate].
  cbn [mbind result_bind] in H.
  destruct (ISFintuner.sim_loop _ _ _ _ _ _ _ _ _ _ _ _ _) as [st|] eqn:Es; [|discriminate].
  cbn [mbind result_bind] in H.
  destruct (ISFintuner.prepare_seg_net_input _ _ _ _ _ _ _ _ _) as [si|]; [|discriminate].
  cbn [mbind result_bind] in H.
  destruct (ISFintuner.compose_losses _ _ _ _ _) as [[l lg]|]; [|discriminate].
  injection H as <-. cbn.
  destruct (random_randint_range _ _ _ Ek) as [Hr _].
  apply (fintuner_sim_loop_window _ _ _ _ _ _ _ _ _ _ N (Z.to_nat k)) in Es;
    [exact Es|lia|apply seq_below|exact Hpt].
Qed.

(** ** Train and eval mode around the simulated rounds *)

Lemma trainer_sim_loop_mode dt sigmoid tr validation image orig_gt gt rounds :
  forall st st',
    ISTrainer.sim_loop dt sigmoid tr validation image orig_gt gt rounds st = Ok st' ->
    ISTrainer.net_training st'
    = (if validation then ISTrainer.net_training st
       else match rounds with [] => ISTrainer.net_training st | _ => true end).
Proof.
  induction rounds as [|c rounds IH]; intros st st' H.
  - injection H as <-. destruct validation; reflexivity.
  - cbn [ISTrainer.sim_loop] in H.
    destruct (ISTrainer.sim_round dt sigmoid tr validation image orig_gt gt st c)
      as [st1|] eqn:E; [|discriminate].
    cbn [mbind result_bind] in H.
    apply trainer_sim_round_inv in E as (prev & g & _ & Em & _).
    rewrite (IH _ _ H), Em. destruct validation, rounds; reflexivity.
Qed.

Lemma trainer_drop_mode tr st :
  ISTrainer.net_training (ISTrainer.drop_prev_mask tr st) = ISTrainer.net_training st.
Proof.
  unfold ISTrainer.drop_prev_mask.
  destruct (_ && _ && _); [|reflexivity].
  destruct (ISTrainer.np_random_random_n _ _). reflexivity.
Qed.

(** X7. Both trainers leave the network in the mode the final pass needs:
    a validation call never changes the mode, and a training call that
    simulated at least one round ends in train mode (with no round the
    mode on entry is kept).  The final pass of the single-network trainer
    runs in that mode. *)
Theorem mode_after_simulation :
  forall dt sigmoid (ZoomIn : Type) (ZoomIn_new : ZoomIn) set_probs transform inv_transform,
    (forall tr batch validation training raw g r,
        ISTrainer.batch_forward dt sigmoid tr batch validation training raw g = Ok r ->
        let final := ISTrainer.final_state r in
        ISTrainer.net_training final
        = (if validation then training
           else if (ISTrainer.num_iters r =? 0)%Z then training else true)
        /\ ISTrainer.output r
           = ISTrainer.forward (ISTrainer.net tr) (ISTrainer.net_training final)
               (ISTrainer.net_input_of (ISTrainer.net tr) (ISTrainer.images batch)
                  (ISTrainer.prev_output final))
               (ISTrainer.batch_points r) (ISTrainer.gt_instances batch))
    /\ (forall ft batch validation training raw g r,
          ISFintuner.batch_forward dt sigmoid ZoomIn ZoomIn_new set_probs transform
            inv_transform ft batch validation training raw g = Ok r ->
          ISFintuner.seg_training ZoomIn (ISFintuner.final_state ZoomIn r)
          = (if validation then training
             else if (ISFintuner.num_iters ZoomIn r =? 0)%Z then training else true)).
Proof.
  intros dt sigmoid ZoomIn zn sp tf itf. split.
  - intros tr batch validation training raw g r H final. subst final.
    unfold ISTrainer.batch_forward in H.
    destruct (random_randint 0 (ISTrainer.max_num_next_clicks tr) raw) as [k|] eqn:Ek;
      [|discriminate].
    cbn [mbind result_bind] in H.
    destruct (ISTrainer.sim_loop _ _ _ _ _ _ _ _ _) as [st|] eqn:Es; [|discriminate].
    cbn [mbind result_bind] in H.
    destruct (ISTrainer.compose_losses _ _ _ _ _) as [[l lg]|]; [|discriminate].
    injection H as <-. cbn. split; [|reflexivity].
    rewrite trainer_drop_mode, (trainer_sim_loop_mode _ _ _ _ _ _ _ _ _ _ Es). cbn.
    destruct (random_randint_range _ _ _ Ek) as [Hr _].
    destruct validation; [reflexivity|].
    destruct (k =? 0)%Z eqn:E0.
    + apply Z.eqb_eq in E0. subst k. reflexivity.
    + apply Z.eqb_neq in E0. destruct (Z.to_nat k) eqn:En; [lia|reflexivity].
  - intros ft batch validation training raw g r H.
    unfold ISFintuner.batch_forward in H.
    destruct (random_randint 0 (ISFintuner.max_num_next_clicks ft) raw) as [k|] eqn:Ek;
      [|discriminate].
    cbn [mbind result_bind] in H.
    destruct (ISFintuner.sim_loop _ _ _ _ _ _ _ _ _ _ _ _ _) as [st|] eqn:Es;
      [|discriminate].
    cbn [mbind result_bind] in H.
    destruct (ISFintuner.prepare_seg_net_input _ _ _ _ _ _ _ _ _) as [si|]; [|discriminate].
    cbn [mbind result_bind] in H.
    destruct (ISFintuner.compose_losses _ _ _ _ _) as [[l lg]|]; [|discriminate].
    injection H as <-. cbn.
    apply fintuner_sim_loop_mode in Es. rewrite Es. cbn.
    destruct (random_randint_range _ _ _ Ek) as [Hr _].
    destruct validation; [reflexivity|].
    destruct (k =? 0)%Z eqn:E0.
    + apply Z.eqb_eq in E0. subst k. reflexivity.
    + apply Z.eqb_neq in E0. destruct (Z.to_nat k) eqn:En; [lia|reflexivity].
Qed.

(** ** Dropping the previous mask *)

Lemma np_random_random_n_spec n : forall g u g',
  ISTrainer.np_random_random_n n g = (u, g') ->
  length u = n /\ stream g' = stream g /\ cursor g' = (cursor g + n)%nat
  /\ Forall (fun x => (x < 1)%Q) u.
Proof.
  induction n as [|n IH]; intros g u g' H.
  - injection H as <- <-. repeat split; [lia|constructor].
  - cbn [ISTrainer.np_random_random_n] in H.
    destruct (ISTrainer.np_random_random g) as [x g1] eqn:E1.
    destruct (ISTrainer.np_random_random_n n g1) as [xs g2] eqn:E2.
    injection H as <- <-. apply IH in E2 as (L & S & C & F).
    unfold ISTrainer.np_random_random in E1. injection E1 as <- <-.
    cbn [length]. cbn in S, C. repeat split; [lia|exact S|lia|].
    constructor; [|exact F].
    apply Qlt_shift_div_r; [reflexivity|]. rewrite Qmult_1_l.
    rewrite <- Zlt_Qlt. apply Z.mod_pos_bound. reflexivity.
Qed.

(** X8. The mask dropout of [ISTrainer.batch_forward] keeps the points, the
    mode and the batch size; each sample's previous mask is kept or
    replaced by zeros of its shape.  It is skipped, drawing nothing,
    unless the network takes a previous mask, the drop probability is
    positive and a round has run; otherwise it draws once per sample, and
    with a probability of at least 1 it zeroes every mask. *)
Theorem drop_prev_mask_effect :
  forall tr st,
    let st' := ISTrainer.drop_prev_mask tr st in
    let active := ISTrainer.with_prev_mask (ISTrainer.net tr)
                  && Qltb 0 (ISTrainer.prev_mask_drop_prob tr)
                  && bool_decide (ISTrainer.last_click_indx st <> None) in
    let zeros := map (map (map (fun _ : Q => 0%Q))) in
    ISTrainer.cur_points st' = ISTrainer.cur_points st
    /\ ISTrainer.net_training st' = ISTrainer.net_training st
    /\ length (ISTrainer.prev_output st') = length (ISTrainer.prev_output st)
    /\ (forall b s, ISTrainer.prev_output st !! b = Some s ->
                    ISTrainer.prev_output st' !! b = Some s
                    \/ ISTrainer.prev_output st' !! b = Some (zeros s))
    /\ stream (ISTrainer.np_rng st') = stream (ISTrainer.np_rng st)
    /\ (active = false -> st' = st)
    /\ (active = true ->
        cursor (ISTrainer.np_rng st')
        = (cursor (ISTrainer.np_rng st) + length (ISTrainer.prev_output st))%nat
        /\ ((1 <= ISTrainer.prev_mask_drop_prob tr)%Q ->
            ISTrainer.prev_output st' = map zeros (ISTrainer.prev_output st))).
Proof.
  intros tr st st' active zeros. subst st'. unfold ISTrainer.drop_prev_mask.
  fold active. destruct active.
  - destruct (ISTrainer.np_random_random_n _ _) as [u g] eqn:E.
    apply np_random_random_n_spec in E as (L & S & C & F). cbn.
    split; [reflexivity|]. split; [reflexivity|].
    split; [rewrite length_zip_with, length_map; lia|].
    split.
    { intros b s Hb. rewrite lookup_zip_with, list_lookup_fmap, Hb.
      destruct (lookup_lt_is_Some_2 u b) as [x ->].
      { rewrite L. eapply lookup_lt_Some; eauto. }
      cbn. destruct (Qltb x _); [right|left]; reflexivity. }
    split; [exact S|]. split; [discriminate|]. intros _. split; [exact C|].
    intros Hp. apply list_eq. intros b.
    rewrite lookup_zip_with, !list_lookup_fmap.
    destruct (ISTrainer.prev_output st !! b) as [s|] eqn:Hb.
    + destruct (lookup_lt_is_Some_2 u b) as [x Hx].
      { rewrite L. eapply lookup_lt_Some; eauto. }
      rewrite Hx. cbn.
      rewrite Forall_lookup in F.
      assert (Qltb x (ISTrainer.prev_mask_drop_prob tr) = true) as ->.
      { apply Qltb_lt. eapply Qlt_le_trans; [exact (F b x Hx)|exact Hp]. }
      reflexivity.
    + destruct (u !! b); reflexivity.
  - repeat split; try reflexivity.
    + intros b s Hb. left. exact Hb.
    + discriminate.
    + discriminate.
Qed.

(** ** The composed loss as a weighted sum *)

Lemma add_loss_step loss_cfg val_loss_cfg t total log validation thunk :
  let cfg := active_cfg loss_cfg val_loss_cfg validation in
  term_configured cfg t ->
  exists total',
    ISTrainer.add_loss loss_cfg val_loss_cfg t total log validation thunk None
    = Ok (total', if term_active cfg t then <[t := term_mean cfg (thunk tt) t]> log else log)
    /\ (total' == total + term_share cfg (thunk tt) t)%Q.
Proof.
  intros cfg [Hnum Hcrit]. unfold term_share, term_active, term_mean, term_weight in *.
  unfold ISTrainer.add_loss, Loss.get_weight.
  fold (active_cfg loss_cfg val_loss_cfg validation). fold cfg.
  destruct (cfg !! (t +:+ "_weight")%string) as [[w|f]|] eqn:Ew.
  - cbn [mbind result_bind]. destruct (Qltb 0 w) eqn:Ea.
    + destruct (Hcrit eq_refl) as [f Hf]. rewrite Hf. destruct (thunk tt) as [x y].
      eexists. split; [reflexivity|]. reflexivity.
    + eexists. split; [reflexivity|]. symmetry. apply Qplus_0_r.
  - exfalso. eapply Hnum. reflexivity.
  - cbn [mbind result_bind]. cbn. eexists. split; [reflexivity|].
    symmetry. apply Qplus_0_r.
Qed.

Lemma lookup_insert_if (b : bool) (k : string) (v : Q) (m : gmap string Q) t :
  (if b then <[k := v]> m else m) !! t
  = if bool_decide (t = k) && b then Some v else m !! t.
Proof.
  destruct b; [|rewrite andb_false_r; reflexivity].
  rewrite andb_true_r. destruct (decide (t = k)) as [->|N].
  - rewrite lookup_insert_eq, bool_decide_eq_true_2; reflexivity.
  - rewrite lookup_insert_ne by congruence.
    rewrite bool_decide_eq_false_2 by exact N. reflexivity.
Qed.

(** X9. With a usable loss table, the loss [ISTrainer.batch_forward]
    composes is the sum over its four terms of weight times mean of the
    criterion, taken over the terms whose weight is positive, and the
    logging dict holds the unweighted mean of exactly those terms. *)
Theorem composed_loss_is_weighted_sum :
  forall loss_cfg val_loss_cfg validation output gt,
    let cfg := active_cfg loss_cfg val_loss_cfg validation in
    (forall t, t ∈ trainer_terms -> term_configured cfg t) ->
    exists total log,
      ISTrainer.compose_losses loss_cfg val_loss_cfg validation output gt = Ok (total, log)
      /\ (total == term_share cfg (term_inputs output gt "instance_loss") "instance_loss"
                   + term_share cfg (term_inputs output gt "instance_aux_loss")
                       "instance_aux_loss"
                   + term_share cfg (term_inputs output gt "zoom_in_loss") "zoom_in_loss"
                   + term_share cfg (term_inputs output gt "point_loss") "point_loss")%Q
      /\ forall t,
           log !! t
           = if bool_decide (t ∈ trainer_terms) && term_active cfg t
             then Some (term_mean cfg (term_inputs output gt t) t) else None.
Proof.
  intros loss_cfg val_loss_cfg validation output gt cfg Hcfg.
  unfold ISTrainer.compose_losses.
  assert (forall t, t ∈ trainer_terms ->
            term_configured (active_cfg loss_cfg val_loss_cfg validation) t) as Hcfg'
    by exact Hcfg.
  unfold trainer_terms in Hcfg'.
  match goal with
  | |- context [ISTrainer.add_loss ?a ?b ?t ?tot ?lg ?v ?th None] =>
      destruct (add_loss_step a b t tot lg v th) as (t1 & E1 & Q1);
        [apply Hcfg'; rewrite !elem_of_cons; tauto|]
  end.
  rewrite E1. cbn [mbind result_bind].
  match goal with
  | |- context [ISTrainer.add_loss ?a ?b ?t ?tot ?lg ?v ?th None] =>
      destruct (add_loss_step a b t tot lg v th) as (t2 & E2 & Q2);
        [apply Hcfg'; rewrite !elem_of_cons; tauto|]
  end.
  rewrite E2. cbn [mbind result_bind].
  match goal with
  | |- context [ISTrainer.add_loss ?a ?b ?t ?tot ?lg ?v ?th None] =>
      destruct (add_loss_step a b t tot lg v th) as (t3 & E3 & Q3);
        [apply Hcfg'; rewrite !elem_of_cons; tauto|]
  end.
  rewrite E3. cbn [mbind result_bind].
  match goal with
  | |- context [ISTrainer.add_loss ?a ?b ?t ?tot ?lg ?v ?th None] =>
      destruct (add_loss_step a b t tot lg v th) as (t4 & E4 & Q4);
        [apply Hcfg'; rewrite !elem_of_cons; tauto|]
  end.
  rewrite E4. clear E1 E2 E3 E4. fold cfg in Q1, Q2, Q3, Q4 |- *.
  eexists _, _. split; [reflexivity|]. split.
  - rewrite Q4, Q3, Q2, Q1. cbn [term_inputs String.eqb Ascii.eqb Bool.eqb].
    rewrite Qplus_0_l. reflexivity.
  - intros t. unfold trainer_terms.
    rewrite !lookup_insert_if, lookup_empty.
    destruct (decide (t = "instance_loss"%string)) as [->|N1];
      [|destruct (decide (t = "instance_aux_loss"%string)) as [->|N2];
        [|destruct (decide (t = "zoom_in_loss"%string)) as [->|N3];
          [|destruct (decide (t = "point_loss"%string)) as [->|N4]]]];
      cbn [term_inputs String.eqb Ascii.eqb Bool.eqb];
      repeat match goal with
      | |- context [bool_decide (?x = ?x)] =>
          rewrite (bool_decide_eq_true_2 (x = x)) by reflexivity
      | |- context [bool_decide (?x = ?y)] =>
          rewrite (bool_decide_eq_false_2 (x = y)) by (assumption || discriminate)
      end;
      cbn [andb].
    1-4: rewrite bool_decide_eq_true_2 by (rewrite !elem_of_cons; auto 10).
    1-4: cbn [andb]; destruct (term_active cfg _); reflexivity.
    rewrite bool_decide_eq_false_2; [reflexivity|].
    rewrite !elem_of_cons, elem_of_nil. tauto.
Qed.

(** ** Points and clicks of the fine-tuner *)

Lemma padded_half_length pts : length (padded_half pts) = Nat.max 24 (length pts).
Proof. unfold padded_half. rewrite length_app, length_replicate. lia. Qed.

Lemma padded_half_lookup pts j p : pts !! j = Some p -> padded_half pts !! j = Some p.
Proof. intros H. unfold padded_half. apply lookup_app_l_Some. exact H. Qed.

Lemma padded_half_sentinel pts j :
  (length pts <= j < 24)%nat -> padded_half pts !! j = Some sentinel.
Proof.
  intros H. unfold padded_half. rewrite lookup_app_r by lia.
  apply lookup_replicate_2. lia.
Qed.

Lemma get_points_nd_single cl :
  ISFintuner.get_points_nd [cl]
  = Ok [padded_half (map ISFintuner.coords_and_indx (positives cl))
        ++ padded_half (map ISFintuner.coords_and_indx (negatives cl))].
Proof. reflexivity. Qed.

(** X10. [get_points_nd] lays one list of clicks out as a row: the
    positive clicks in order from slot 0, the negative clicks in order
    after the positive half, each half filled with sentinels up to 24
    slots; a half with more than 24 clicks is not cut, so the row has 48
    slots exactly when neither polarity has more than 24 clicks. *)
Theorem get_points_nd_layout :
  forall cl,
    let P := positives cl in
    let N := negatives cl in
    let off := Nat.max 24 (length P) in
    exists row,
      ISFintuner.get_points_nd [cl] = Ok [row]
      /\ length row = (off + Nat.max 24 (length N))%nat
      /\ (length row = 48%nat <-> (length P <= 24 /\ length N <= 24)%nat)
      /\ (forall j c, P !! j = Some c -> row !! j = Some (ISFintuner.coords_and_indx c))
      /\ (forall j, (length P <= j < 24)%nat -> row !! j = Some sentinel)
      /\ (forall j c, N !! j = Some c ->
                      row !! (off + j)%nat = Some (ISFintuner.coords_and_indx c))
      /\ (forall j, (length N <= j < 24)%nat -> row !! (off + j)%nat = Some sentinel).
Proof.
  intros cl P N off. eexists. split; [apply get_points_nd_single|].
  fold P N.
  assert (length (padded_half (map ISFintuner.coords_and_indx P)) = off) as HP.
  { rewrite padded_half_length, length_map. reflexivity. }
  split; [|split; [|split; [|split; [|split]]]].
  - rewrite length_app, HP, padded_half_length, length_map. reflexivity.
  - rewrite length_app, HP, padded_half_length, length_map. unfold off. lia.
  - intros j c Hj. apply lookup_app_l_Some. apply padded_half_lookup.
    rewrite list_lookup_fmap, Hj. reflexivity.
  - intros j Hj. apply lookup_app_l_Some. apply padded_half_sentinel.
    rewrite length_map. exact Hj.
  - intros j c Hj. rewrite lookup_app_r by lia. rewrite HP.
    replace (off + j - off)%nat with j by lia. apply padded_half_lookup.
    rewrite list_lookup_fmap, Hj. reflexivity.
  - intros j Hj. rewrite lookup_app_r by lia. rewrite HP.
    replace (off + j - off)%nat with j by lia. apply padded_half_sentinel.
    rewrite length_map. exact Hj.
Qed.

Lemma imap_by_halves {A B} (f g : A -> B) (n : nat) (l : list A) :
  imap (fun i x => if (i <? n)%nat then f x else g x) l
  = map f (take n l) ++ map g (drop n l).
Proof.
  rewrite <- (take_drop n l) at 1. rewrite imap_app. f_equal.
  - rewrite <- imap_const. apply imap_ext. intros i x Hi.
    apply lookup_lt_Some in Hi. rewrite length_take in Hi.
    assert ((i <? n)%nat = true) as -> by (apply Nat.ltb_lt; lia). reflexivity.
  - rewrite <- imap_const. apply imap_ext. intros i x Hi.
    apply lookup_lt_Some in Hi. rewrite length_drop in Hi. rewrite length_take.
    assert ((n `min` length l + i <? n)%nat = false) as ->
      by (apply Nat.ltb_ge; lia).
    reflexivity.
Qed.

Lemma mark_halves_split (ps : pointset) :
  let n := (length ps / 2)%nat in
  ISFintuner.mark_halves ps
  = map (set_comp 2 999) (take n ps) ++ map (set_comp 2 (-999)) (drop n ps).
Proof.
  intros n. unfold ISFintuner.mark_halves. fold n.
  rewrite <- imap_by_halves. apply imap_ext. intros i x _.
  destruct (i <? n)%nat; reflexivity.
Qed.

Lemma valid_points_set_comp v (l : pointset) :
  ISFintuner.valid_points_list (map (set_comp 2 v) l)
  = map (set_comp 2 v) (ISFintuner.valid_points_list l).
Proof.
  unfold ISFintuner.valid_points_list. induction l as [|p l IH]; [reflexivity|].
  cbn [map]. destruct (decide (Qltb 0 (fst (fst p)) = true)) as [H|H].
  - rewrite filter_cons_True by (rewrite set_comp2_row; exact H).
    rewrite filter_cons_True by exact H. cbn [map]. rewrite IH. reflexivity.
  - rewrite filter_cons_False by (rewrite set_comp2_row; exact H).
    rewrite filter_cons_False by exact H. exact IH.
Qed.

Lemma filter_all {A} (P : A -> Prop) `{forall x, Decision (P x)} (l : list A) :
  Forall P l -> filter P l = l.
Proof.
  induction 1 as [|x l Hx Hl IH]; [reflexivity|].
  rewrite filter_cons_True by exact Hx. rewrite IH. reflexivity.
Qed.

Lemma filter_none {A} (P : A -> Prop) `{forall x, Decision (P x)} (l : list A) :
  Forall (fun x => ~ P x) l -> filter P l = [].
Proof.
  induction 1 as [|x l Hx Hl IH]; [reflexivity|].
  rewrite filter_cons_False by exact Hx. exact IH.
Qed.

Lemma clicks_of_marked (b : bool) (l : list point) :
  let cs := ISFintuner.clicks_of (map (set_comp 2 (if b then 999 else (-999))%Q) l) in
  Forall (fun c => ISFintuner.is_positive c = b) cs
  /\ map ISFintuner.coords_and_indx cs = map (set_comp 2 100) l.
Proof.
  intros cs. unfold cs, ISFintuner.clicks_of. split.
  - rewrite Forall_fmap, Forall_fmap. apply Forall_true. intros [[x y] z].
    destruct b; reflexivity.
  - rewrite !map_map. apply map_ext. intros [[x y] z]. reflexivity.
Qed.

Lemma clicks_list_of_halves (ps : pointset) :
  let n := (length ps / 2)%nat in
  ISFintuner.clicks_list_of ps
  = ISFintuner.clicks_of (map (set_comp 2 999) (ISFintuner.valid_points_list (take n ps)))
    ++ ISFintuner.clicks_of
         (map (set_comp 2 (-999)) (ISFintuner.valid_points_list (drop n ps))).
Proof.
  intros n. unfold ISFintuner.clicks_list_of. rewrite mark_halves_split. fold n.
  rewrite <- !valid_points_set_comp.
  unfold ISFintuner.valid_points_list, ISFintuner.clicks_of.
  rewrite filter_app, map_app. reflexivity.
Qed.

(** X11. What [prepare_seg_net_input] hands on for one sample when the
    zoom transform leaves the clicks alone: the points with a positive row
    coordinate of the first half of the sample, in order, then sentinels up
    to slot 24, followed by those of the second half and sentinels; every
    kept point carries the order index 100 in place of its own. *)
Theorem points_recoded_by_halves :
  forall ps : pointset,
    let n := (length ps / 2)%nat in
    ISFintuner.get_points_nd [ISFintuner.clicks_list_of ps]
    = Ok [compacted_half (take n ps) ++ compacted_half (drop n ps)].
Proof.
  intros ps n. rewrite get_points_nd_single. do 2 f_equal.
  rewrite clicks_list_of_halves. fold n.
  destruct (clicks_of_marked true (ISFintuner.valid_points_list (take n ps))) as [F1 M1].
  destruct (clicks_of_marked false (ISFintuner.valid_points_list (drop n ps))) as [F2 M2].
  cbv beta iota zeta in F1, M1, F2, M2.
  unfold positives, negatives. rewrite !filter_app.
  rewrite (filter_all _ _ F1), (filter_all _ _ F2).
  rewrite (filter_none (fun c => ISFintuner.is_positive c = true)
             (ISFintuner.clicks_of (map (set_comp 2 (-999)) _))).
  2:{ eapply Forall_impl; [exact F2|]. intros c -> . discriminate. }
  rewrite (filter_none (fun c => ISFintuner.is_positive c = false)
             (ISFintuner.clicks_of (map (set_comp 2 999) _))).
  2:{ eapply Forall_impl; [exact F1|]. intros c -> . discriminate. }
  rewrite app_nil_r. cbn [app]. rewrite M1, M2. reflexivity.
Qed.

(** ** Shapes through [prepare_seg_net_input] *)

Lemma get_points_nd_rows cls rows :
  ISFintuner.get_points_nd cls = Ok rows ->
  length rows = length cls /\ Forall (fun r : pointset => (48 <= length r)%nat) rows.
Proof.
  unfold ISFintuner.get_points_nd. destruct (decide (cls = [])); [discriminate|].
  intros [= <-]. split; [apply length_map|].
  apply Forall_fmap, Forall_true. intros cl. cbn.
  rewrite !length_app, !length_replicate. lia.
Qed.

Section SegInputShapes.

Context (sigmoid : Q -> Q) {ZoomIn : Type}
        (set_probs : ZoomIn -> list (list (list Q)) -> ZoomIn)
        (transform : ZoomIn -> list (list (list Q)) -> list (list ISFintuner.Click) ->
                     list (list (list Q)) * list (list ISFintuner.Click) * ZoomIn).

Lemma prepare_sample_inv image gt_mask probs (pts : list pointset) acc bs acc' :
  ISFintuner.prepare_sample ZoomIn set_probs transform image gt_mask probs pts acc bs
  = Ok acc' ->
  (exists ps, pts !! bs = Some ps)
  /\ (exists old zp, ISFintuner.seg_points ZoomIn acc !! bs = Some old
        /\ length zp = length old /\ (48 <= length zp)%nat
        /\ ISFintuner.seg_points ZoomIn acc' = <[bs := zp]> (ISFintuner.seg_points ZoomIn acc))
  /\ length (ISFintuner.seg_input ZoomIn acc') = length (ISFintuner.seg_input ZoomIn acc)
  /\ length (ISFintuner.seg_gt_mask ZoomIn acc') = length (ISFintuner.seg_gt_mask ZoomIn acc)
  /\ length (ISFintuner.zoom_ins ZoomIn acc') = length (ISFintuner.zoom_ins ZoomIn acc).
Proof.
  unfold ISFintuner.prepare_sample.
  destruct (probs !! bs) as [prediction|]; [|discriminate].
  destruct (ISFintuner.zoom_ins ZoomIn acc !! bs) as [z|]; [|discriminate].
  destruct (zip_with app gt_mask (zip_with app image probs) !! bs) as [cur|]; [|discriminate].
  destruct (pts !! bs) as [ps|]; [|discriminate].
  destruct (transform _ _ _) as [[img cls] z'].
  destruct (ISFintuner.get_points_nd cls) as [rows|] eqn:Er; [|discriminate].
  cbn [mbind result_bind]. apply get_points_nd_rows in Er as [_ Hrows].
  destruct rows as [|zp rows]; [discriminate|].
  destruct (ISFintuner.seg_points ZoomIn acc !! bs) as [old|] eqn:Eo; [|discriminate].
  destruct (length zp =? length old)%nat eqn:El; [|discriminate].
  cbn [negb]. intros [= <-]. cbn. apply Nat.eqb_eq in El.
  apply Forall_cons in Hrows as [Hzp _].
  split; [eauto|]. split; [exists old, zp; repeat split; assumption|].
  rewrite !length_insert. repeat split; reflexivity.
Qed.

Lemma prepare_loop_inv image gt_mask probs (pts : list pointset) bss :
  forall acc acc',
    ISFintuner.prepare_loop ZoomIn set_probs transform image gt_mask probs pts bss acc
    = Ok acc' ->
    same_slots (ISFintuner.seg_points ZoomIn acc') (ISFintuner.seg_points ZoomIn acc)
    /\ Forall (fun bs => exists ps row, pts !! bs = Some ps
                 /\ ISFintuner.seg_points ZoomIn acc !! bs = Some row
                 /\ (48 <= length row)%nat) bss
    /\ length (ISFintuner.seg_input ZoomIn acc') = length (ISFintuner.seg_input ZoomIn acc)
    /\ length (ISFintuner.seg_gt_mask ZoomIn acc') = length (ISFintuner.seg_gt_mask ZoomIn acc)
    /\ length (ISFintuner.zoom_ins ZoomIn acc') = length (ISFintuner.zoom_ins ZoomIn acc).
Proof.
  induction bss as [|bs bss IH]; intros acc acc'.
  - intros [= <-]. repeat split; constructor.
  - cbn [ISFintuner.prepare_loop].
    destruct (ISFintuner.prepare_sample _ _ _ _ _ _ _ _ _) as [acc1|] eqn:E1; [|discriminate].
    cbn [mbind result_bind]. intros E2.
    apply prepare_sample_inv in E1
      as ([ps Hps] & (old & zp & Ho & Hlen & H48 & Hsp) & Hi & Hg & Hz).
    apply IH in E2 as (Hs & Hall & Hi' & Hg' & Hz').
    assert (same_slots (ISFintuner.seg_points ZoomIn acc1) (ISFintuner.seg_points ZoomIn acc))
      as Hs1.
    { unfold same_slots. rewrite Hsp, list_fmap_insert, Hlen.
      apply list_insert_id. rewrite list_lookup_fmap, Ho. reflexivity. }
    split; [unfold same_slots in *; congruence|].
    split; [|repeat split; congruence].
    constructor.
    + exists ps, old. repeat split; [exact Hps|exact Ho|lia].
    + eapply Forall_impl; [exact Hall|]. cbn. intros b (ps' & row & Hp & Hr & Hl).
      rewrite Hsp in Hr. destruct (decide (bs = b)) as [<-|Hne].
      * exists ps', old. repeat split; [exact Hp|exact Ho|].
        rewrite list_lookup_insert_eq in Hr by (eapply lookup_lt_Some; exact Ho).
        injection Hr as <-. lia.
      * rewrite list_lookup_insert_ne in Hr by exact Hne.
        exists ps', row. repeat split; assumption.
Qed.

(** X12. A [prepare_seg_net_input] that returns keeps every shape it is
    given: the points it returns have the samples and the slots per sample
    of [int_points], and the other tensors keep their batch size; it can
    only return when every sample of the batch has at least 48 point slots,
    since each row is written whole from [get_points_nd]. *)
Theorem prepare_seg_net_input_slots :
  forall intention_out image gt_mask (int_points : list pointset) zs si,
    ISFintuner.prepare_seg_net_input sigmoid ZoomIn set_probs transform
      intention_out image gt_mask int_points zs = Ok si ->
    map length (ISFintuner.seg_points ZoomIn si) = map (@length point) int_points
    /\ (forall bs, (bs < length (Loss.instances intention_out))%nat ->
          exists ps, int_points !! bs = Some ps /\ (48 <= length ps)%nat)
    /\ length (ISFintuner.seg_input ZoomIn si) = length image
    /\ length (ISFintuner.seg_gt_mask ZoomIn si) = length gt_mask
    /\ length (ISFintuner.zoom_ins ZoomIn si) = length zs.
Proof.
  intros intention_out image gt_mask int_points zs si.
  unfold ISFintuner.prepare_seg_net_input. cbv zeta. intros E.
  apply prepare_loop_inv in E as (Hs & Hall & Hi & Hg & Hz).
  cbn [ISFintuner.seg_points ISFintuner.seg_input ISFintuner.seg_gt_mask
       ISFintuner.zoom_ins] in *.
  unfold same_slots in Hs. split; [|split; [|split; [|split]]].
  - rewrite Hs, map_map. apply map_ext. intros ps. apply length_map.
  - intros bs Hbs. rewrite !length_map in Hall. rewrite Forall_lookup in Hall.
    destruct (Hall bs bs (lookup_seq_lt _ _ _ Hbs)) as (ps & row & Hp & Hr & Hl).
    rewrite list_lookup_fmap in Hp. rewrite list_lookup_fmap in Hr.
    destruct (int_points !! bs) as [ps0|]; [|discriminate].
    exists ps0. split; [reflexivity|]. cbn in Hr. injection Hr as <-.
    rewrite length_map in Hl. exact Hl.
  - rewrite Hi, length_map. unfold ISFintuner.zeros_like4. apply length_map.
  - rewrite Hg. unfold ISFintuner.zeros_like4. apply length_map.
  - exact Hz.
Qed.

End SegInputShapes.

(** ** Loading keeps the architecture *)

(** X13. A [load_weights] that returns leaves the network with the keys
    it had and every parameter with the shape it had; it returns only when
    the checkpoint names no parameter the network lacks, and loading the
    same file once more changes nothing. *)
Theorem load_weights_keeps_architecture :
  forall fs model path model',
    load_weights fs model path = Ok model' ->
    dom (parameters model') = dom (parameters model)
    /\ (forall k t', parameters model' !! k = Some t' ->
                     shape <$> parameters model !! k = Some (shape t'))
    /\ (exists sd, torch_load_state_dict fs path = Ok sd
                   /\ dom sd ⊆ dom (parameters model))
    /\ load_weights fs model' path = Ok model'.
Proof.
  intros fs model path model'. unfold load_weights.
  destruct (torch_load_state_dict fs path) as [sd|] eqn:Esd; [|discriminate].
  cbn [mbind result_bind]. intros H.
  apply load_state_dict_inv in H as (Hp & Hd & Hs).
  split; [rewrite Hp; exact Hd|]. split; [|split].
  - intros k t' Hk. rewrite Hp in Hk. exact (Hs k t' Hk).
  - exists sd. split; [reflexivity|].
    intros k Hk. rewrite <- Hd. unfold dict_update. rewrite dom_union. 
    apply elem_of_union. left. exact Hk.
  - assert (dict_update (parameters model') sd = parameters model') as ->.
    { rewrite Hp. unfold dict_update. rewrite (assoc_L (∪)), (idemp_L (∪)). reflexivity. }
    destruct model' as [p]. cbn [parameters] in *. apply load_state_dict_Ok.
    + reflexivity.
    + intros k t Hk. unfold shape_matches. cbn [parameters]. rewrite Hk. reflexivity.
Qed.

(** ** The interval table of the numbered checkpoints *)

Lemma last_filter_sorted (rows : list (Z * Z)) (epoch : Z) x :
  increasing_starts rows ->
  last (filter (fun r : Z * Z => (fst r <= epoch)%Z) rows) = Some x ->
  x ∈ rows /\ (fst x <= epoch)%Z
  /\ forall r, r ∈ rows -> (fst r <= epoch)%Z -> (fst r <= fst x)%Z.
Proof.
  induction rows as [|r rest IH]; [discriminate|].
  cbn [increasing_starts]. intros [Hr Hs].
  destruct (decide (fst r <= epoch)%Z) as [Hle|Hgt].
  - rewrite filter_cons_True by exact Hle. rewrite last_cons.
    destruct (last (filter _ rest)) as [y|] eqn:El.
    + intros [= ->]. destruct (IH Hs eq_refl) as (Hin & Hxe & Hmax).
      split; [apply elem_of_cons; right; exact Hin|]. split; [exact Hxe|].
      intros r' Hr' Hle'. apply elem_of_cons in Hr' as [->|Hr']; [|auto].
      rewrite Forall_forall in Hr. specialize (Hr x Hin). lia.
    + intros [= ->]. split; [apply elem_of_cons; left; reflexivity|].
      split; [exact Hle|]. intros r' Hr' Hle'.
      apply elem_of_cons in Hr' as [->|Hr']; [lia|].
      apply last_None in El.
      assert (r' ∈ filter (fun r : Z * Z => (fst r <= epoch)%Z) rest) as Hf
        by (apply list_elem_of_filter; split; assumption).
      rewrite El in Hf. inversion Hf.
  - rewrite filter_cons_False by exact Hgt. intros El.
    destruct (IH Hs El) as (Hin & Hxe & Hmax).
    split; [apply elem_of_cons; right; exact Hin|]. split; [exact Hxe|].
    intros r' Hr' Hle'. apply elem_of_cons in Hr' as [->|Hr']; [lia|auto].
Qed.

(** X14. With the intervals listed by increasing first epoch, the epoch's
    numbered checkpoint is decided by the row of the greatest first epoch
    not after the epoch: it is written exactly when that row's interval
    divides the epoch (so always at epoch 0, and for a negative interval as
    for its absolute value); an interval 0 raises [ZeroDivisionError], and
    an epoch before every row raises [IndexError]. *)
Theorem numbered_checkpoint_rule :
  forall rows epoch,
    increasing_starts rows ->
    (Schedule.saves_numbered (Schedule.Table rows) epoch = inl Schedule.IndexError
     <-> forall r, r ∈ rows -> (epoch < fst r)%Z)
    /\ (forall out, Schedule.saves_numbered (Schedule.Table rows) epoch = out ->
          out <> inl Schedule.IndexError ->
          exists s n,
            (s, n) ∈ rows /\ (s <= epoch)%Z
            /\ (forall r, r ∈ rows -> (fst r <= epoch)%Z -> (fst r <= s)%Z)
            /\ (n = 0%Z -> out = inl Schedule.ZeroDivisionError)
            /\ (n <> 0%Z -> exists b, out = inr b /\ (b = true <-> (n | epoch)%Z))).
Proof.
  intros rows epoch Hs. unfold Schedule.saves_numbered, Schedule.checkpoint_interval_at.
  destruct (last (filter _ rows)) as [[s n]|] eqn:El.
  - destruct (last_filter_sorted rows epoch (s, n) Hs El) as (Hin & Hle & Hmax).
    cbn [fst snd] in *. split.
    + split.
      * destruct (n =? 0)%Z; discriminate.
      * intros Hall. specialize (Hall _ Hin). cbn in Hall. lia.
    + intros out <- _. exists s, n.
      split; [exact Hin|]. split; [exact Hle|]. split; [exact Hmax|]. split.
      * intros ->. reflexivity.
      * intros En. rewrite (proj2 (Z.eqb_neq n 0) En). eexists. split; [reflexivity|].
        rewrite Z.eqb_eq. apply Z.mod_divide. exact En.
  - split.
    + split; [|reflexivity]. intros _ r Hr.
      apply last_None in El.
      destruct (decide (fst r <= epoch)%Z) as [Hle|Hgt]; [|lia].
      assert (r ∈ filter (fun x : Z * Z => (fst x <= epoch)%Z) rows) as Hf
        by (apply list_elem_of_filter; split; assumption).
      rewrite El in Hf. inversion Hf.
    + intros out <- Hne. exfalso. apply Hne. reflexivity.
Qed.

(** ** The reference distance transform meets the further contract *)

Lemma cityblock_pixel m i j d :
  pixel (cityblock_dt m) i j = Some d ->
  exists v, pixel m i j = Some v
            /\ d = if (v =? 0)%Z then 0%Q
                   else inject_Z (Z.of_nat
                          (nearest_zero (np_argwhere (map (map (Z.eqb 0)) m)) i j)).
Proof.
  unfold pixel, cityblock_dt. rewrite list_lookup_imap.
  destruct (m !! i) as [row|]; [|discriminate]. cbn.
  rewrite list_lookup_imap. destruct (row !! j) as [v|]; [|discriminate]. cbn.
  intros [= <-]. exists v. split; reflexivity.
Qed.

Lemma cityblock_nonnegative : nonnegative cityblock_dt.
Proof.
  intros m i j d H. apply cityblock_pixel in H as (v & _ & ->).
  destruct (v =? 0)%Z; [apply Qle_refl|].
  change 0%Q with (inject_Z 0). rewrite <- Zle_Qle. lia.
Qed.

Lemma cityblock_positive : positive_on_mask cityblock_dt.
Proof.
  intros m i j d H Hd. apply cityblock_pixel in H as (v & Hv & ->).
  exists v. split; [exact Hv|]. intros ->. cbn in Hd. revert Hd. apply Qlt_irrefl.
Qed.

(** ** The further properties at concrete inputs *)

Lemma get_next_points_draws_witness :
  ClickSim.get_next_points cityblock_dt pred_none gt_one points_unset 1
    default_pred_thresh ramp
  = Ok ([[sentinel; click_point (1, 1)%nat 1; sentinel; sentinel]], advance ramp)
  /\ stream (advance ramp) = stream ramp
  /\ (cursor ramp <= cursor (advance ramp) <= cursor ramp + length pred_none)%nat.
Proof.
  assert (ClickSim.get_next_points cityblock_dt pred_none gt_one points_unset 1
            default_pred_thresh ramp
          = Ok ([[sentinel; click_point (1, 1)%nat 1; sentinel; sentinel]], advance ramp))
    as H by (vm_compute; reflexivity).
  split; [exact H|].
  destruct (get_next_points_draws _ _ _ _ _ _ _ _ _ H) as (Hs & Hc & _).
  split; [exact Hs|exact Hc].
Defined.

Lemma clicks_land_on_error_pixels_witness :
  exists is_positive row col slot pred0 gt0 p gv,
    py_index 4 (slot_index (size1 points_unset / 2) 1 is_positive) = Ok slot
    /\ [sentinel; click_point (1, 1)%nat 1; sentinel; sentinel]
       = <[slot := click_point (row, col) 1]> (replicate 4 sentinel)
    /\ channel0 pred_none = Ok pred0 /\ channel0 gt_one = Ok gt0
    /\ pixel3 pred0 0 row col = Some p
    /\ pixel3 gt0 0 row col = Some gv
    /\ (if is_positive then (1 # 2 < gv)%Q /\ (p < default_pred_thresh)%Q
        else ~ (1 # 2 < gv)%Q /\ (default_pred_thresh < p)%Q).
Proof.
  assert (ClickSim.get_next_points cityblock_dt pred_none gt_one points_unset 1
            default_pred_thresh ramp
          = Ok ([[sentinel; click_point (1, 1)%nat 1; sentinel; sentinel]], advance ramp))
    as H by (vm_compute; reflexivity).
  apply (clicks_land_on_error_pixels cityblock_dt pred_none gt_one points_unset 1
           default_pred_thresh ramp _ _ cityblock_nonnegative cityblock_positive H
           0%nat (replicate 4 sentinel)
           [sentinel; click_point (1, 1)%nat 1; sentinel; sentinel]).
  - reflexivity.
  - reflexivity.
  - discriminate.
Defined.

Lemma trainer_simulation_window_witness :
  exists r,
    ISTrainer.batch_forward cityblock_dt squash trainer_two_clicks batch_one
      false true 5 ramp = Ok r
    /\ point_tensor 4 (ISTrainer.batch_points r)
    /\ length (ISTrainer.batch_points r) = 1%nat.
Proof.
  destruct (ISTrainer.batch_forward cityblock_dt squash trainer_two_clicks batch_one
              false true 5 ramp) as [r|e] eqn:E; [|vm_compute in E; discriminate].
  exists r. split; [reflexivity|].
  destruct (trainer_simulation_window cityblock_dt squash trainer_two_clicks batch_one
              false true 5%nat ramp r 4 E) as (Hlen & Hpt & _).
  - split; [repeat constructor|reflexivity].
  - vm_compute. discriminate.
  - split; [exact Hpt|exact Hlen].
Defined.

Lemma fintuner_simulation_window_witness :
  exists r,
    ISFintuner.batch_forward cityblock_dt squash unit tt (fun z _ => z) zoom_identity
      (fun _ p => p) fintuner_two_clicks batch_48 false true 5 ramp = Ok r
    /\ point_tensor 48
         (ISFintuner.int_points unit (ISFintuner.final_state unit r))
    /\ length (ISFintuner.int_points unit (ISFintuner.final_state unit r)) = 1%nat.
Proof.
  destruct (ISFintuner.batch_forward cityblock_dt squash unit tt (fun z _ => z)
              zoom_identity (fun _ p => p) fintuner_two_clicks batch_48 false true 5 ramp)
    as [r|e] eqn:E; [|vm_compute in E; discriminate].
  exists r. split; [reflexivity|].
  destruct (fintuner_simulation_window cityblock_dt squash unit tt (fun z _ => z)
              zoom_identity (fun _ p => p) fintuner_two_clicks batch_48
              false true 5%nat ramp r 48 E) as (Hlen & Hpt & _).
  - split; [repeat constructor|reflexivity].
  - vm_compute. discriminate.
  - split; [exact Hpt|exact Hlen].
Defined.

Lemma mode_after_simulation_witness :
  (exists r,
     ISTrainer.batch_forward cityblock_dt squash trainer_two_clicks batch_one
       false false 5 ramp = Ok r
     /\ ISTrainer.net_training (ISTrainer.final_state r)
        = (if (ISTrainer.num_iters r =? 0)%Z then false else true))
  /\ (exists r,
        ISFintuner.batch_forward cityblock_dt squash unit tt (fun z _ => z) zoom_identity
          (fun _ p => p) fintuner_two_clicks batch_48 false false 5 ramp = Ok r
        /\ ISFintuner.seg_training unit (ISFintuner.final_state unit r)
           = (if (ISFintuner.num_iters unit r =? 0)%Z then false else true)).
Proof.
  destruct (mode_after_simulation cityblock_dt squash unit tt (fun z _ => z)
              zoom_identity (fun _ p => p)) as [Ht Hf].
  split.
  - destruct (ISTrainer.batch_forward cityblock_dt squash trainer_two_clicks batch_one
                false false 5 ramp) as [r|e] eqn:E; [|vm_compute in E; discriminate].
    exists r. split; [reflexivity|].
    exact (proj1 (Ht trainer_two_clicks batch_one false false 5%nat ramp r E)).
  - destruct (ISFintuner.batch_forward cityblock_dt squash unit tt (fun z _ => z)
                zoom_identity (fun _ p => p) fintuner_two_clicks batch_48 false false 5 ramp)
      as [r|e] eqn:E; [|vm_compute in E; discriminate].
    exists r. split; [reflexivity|].
    exact (Hf fintuner_two_clicks batch_48 false false 5%nat ramp r E).
Defined.

Lemma drop_prev_mask_effect_witness :
  ISTrainer.prev_output (ISTrainer.drop_prev_mask trainer_always_drops state_after_round)
  = [[blank]]
  /\ cursor (ISTrainer.np_rng
               (ISTrainer.drop_prev_mask trainer_always_drops state_after_round)) = 1%nat.
Proof.
  destruct (drop_prev_mask_effect trainer_always_drops state_after_round)
    as (_ & _ & _ & _ & _ & _ & Hact).
  destruct Hact as [Hc Hz]; [reflexivity|].
  split; [|exact Hc]. rewrite Hz; [reflexivity|discriminate].
Defined.

Lemma composed_loss_is_weighted_sum_witness :
  exists total log,
    ISTrainer.compose_losses cfg_instance_only cfg_instance_only false
      (oracle_output pred_none) gt_one = Ok (total, log)
    /\ log !! "instance_loss"%string = Some (4 # 16)%Q
    /\ log !! "point_loss"%string = None.
Proof.
  destruct (composed_loss_is_weighted_sum cfg_instance_only cfg_instance_only false
              (oracle_output pred_none) gt_one) as (total & log & Hc & _ & Hlog).
  - intros t Ht. unfold trainer_terms in Ht.
    repeat (apply elem_of_cons in Ht as [->|Ht]); [| | | |inversion Ht].
    + split; [intros f; vm_compute; discriminate|].
      intros _. exists squared_error. vm_compute. reflexivity.
    + split; [intros f; vm_compute; discriminate|]. vm_compute. discriminate.
    + split; [intros f; vm_compute; discriminate|]. vm_compute. discriminate.
    + split; [intros f; vm_compute; discriminate|]. vm_compute. discriminate.
  - exists total, log. split; [exact Hc|]. split.
    + rewrite Hlog. vm_compute. reflexivity.
    + rewrite Hlog. vm_compute. reflexivity.
Defined.

Lemma get_points_nd_layout_witness :
  exists row,
    ISFintuner.get_points_nd [one_positive_click] = Ok [row]
    /\ length row = 48%nat
    /\ row !! 0%nat = Some (3, 4, 1)%Q
    /\ row !! 24%nat = Some sentinel.
Proof.
  destruct (get_points_nd_layout one_positive_click)
    as (row & Hr & _ & H48 & Hpos & _ & _ & Hneg).
  exists row. split; [exact Hr|]. split; [|split].
  - apply H48. split; vm_compute; lia.
  - apply (Hpos 0%nat _ eq_refl).
  - apply (Hneg 0%nat). vm_compute. lia.
Defined.

Lemma prepare_seg_net_input_slots_witness :
  exists si,
    ISFintuner.prepare_seg_net_input squash unit (fun z _ => z) zoom_identity
      (zero_logits [[blank]]) [[blank; blank; blank]] gt_one points_48 [tt] = Ok si
    /\ map length (ISFintuner.seg_points unit si) = [48%nat]
    /\ length (ISFintuner.seg_input unit si) = 1%nat.
Proof.
  destruct (ISFintuner.prepare_seg_net_input squash unit (fun z _ => z) zoom_identity
              (zero_logits [[blank]]) [[blank; blank; blank]] gt_one points_48 [tt])
    as [si|e] eqn:E; [|vm_compute in E; discriminate].
  exists si. split; [reflexivity|].
  destruct (prepare_seg_net_input_slots squash (fun z _ => z) zoom_identity
              _ _ _ _ _ _ E) as (Hs & _ & Hi & _).
  split; [exact Hs|exact Hi].
Defined.

Lemma load_weights_keeps_architecture_witness :
  load_weights fs_partial net_small "w.pth" = Ok net_small
  /\ dom (parameters net_small) = dom (parameters net_small)
  /\ exists sd, torch_load_state_dict fs_partial "w.pth" = Ok sd
                /\ dom sd ⊆ dom (parameters net_small).
Proof.
  assert (load_weights fs_partial net_small "w.pth" = Ok net_small) as H
    by (vm_compute; reflexivity).
  split; [exact H|].
  destruct (load_weights_keeps_architecture fs_partial net_small "w.pth" net_small H)
    as (Hd & _ & Hsd & _).
  split; [exact Hd|exact Hsd].
Defined.

Lemma numbered_checkpoint_rule_witness :
  increasing_starts two_phase_table
  /\ exists s n,
       (s, n) ∈ two_phase_table /\ (s <= 120)%Z
       /\ (forall r, r ∈ two_phase_table -> (fst r <= 120)%Z -> (fst r <= s)%Z)
       /\ (n = 0%Z -> Schedule.saves_numbered (Schedule.Table two_phase_table) 120
                      = inl Schedule.ZeroDivisionError)
       /\ (n <> 0%Z ->
           exists b, Schedule.saves_numbered (Schedule.Table two_phase_table) 120 = inr b
                     /\ (b = true <-> (n | 120)%Z)).
Proof.
  assert (increasing_starts two_phase_table) as Hs.
  { cbn. repeat split; repeat constructor. }
  split; [exact Hs|].
  apply (proj2 (numbered_checkpoint_rule two_phase_table 120 Hs) _ eq_refl).
  vm_compute. discriminate.
Defined.
